(** * RNN-Transducer forward score (ha/transducer.py)

    A shallow embedding of the four forward-score functions of
    [ha/transducer.py] over exact real arithmetic, with the tensor
    library's failures (out-of-range indexing, shapes that do not
    broadcast) made explicit in an error monad, followed by the
    properties of the forward recurrence. *)

From Stdlib Require Import Reals List ZArith Lia Lra Bool Arith.
From Stdlib Require Import FunctionalExtensionality.
From Stdlib Require Import Sorted Permutation.
From Stdlib Require Ascii String.
Import ListNotations.

Open Scope R_scope.

(** ** Failures of the tensor library *)

Inductive error : Type :=
| IndexError     (* an index outside the dimension it addresses *)
| RuntimeError.  (* shapes that do not broadcast, gather out of bounds *)

Inductive result (A : Type) : Type :=
| Ok (a : A)
| Raise (e : error).

Arguments Ok {A} a.
Arguments Raise {A} e.

Definition bind {A B : Type} (m : result A) (f : A -> result B) : result B :=
  match m with
  | Ok a => f a
  | Raise e => Raise e
  end.

Notation "x <- m ;; k" := (bind m (fun x => k))
  (at level 61, m at next level, right associativity).

(** [for i in l: s = body(i, s)], stopping at the first failure. *)
Fixpoint for_range {S : Type} (l : list nat) (body : nat -> S -> result S)
  (s : S) : result S :=
  match l with
  | [] => Ok s
  | i :: l' => s' <- body i s ;; for_range l' body s'
  end.

(** Python's [range(a, b)]. *)
Definition range (a b : nat) : list nat := seq a (b - a).

(** ** Tensors

    A one-dimensional tensor is a list.  A two- or three-dimensional
    tensor is its shape together with its indexing function; every read
    and write goes through a bounds check, so that the function is never
    consulted outside the shape. *)

Record Tensor2 : Type := mkTensor2 {
  rows2 : nat;
  cols2 : nat;
  item2 : nat -> nat -> R
}.

Record Tensor3 : Type := mkTensor3 {
  dim0 : nat;
  dim1 : nat;
  dim2 : nat;
  item3 : nat -> nat -> nat -> R
}.

(** [x.new_zeros((T, U))] and [x.new_full((T, U), v)]. *)
Definition new_full (T U : nat) (v : R) : Tensor2 :=
  mkTensor2 T U (fun _ _ => v).

Definition new_zeros (T U : nat) : Tensor2 := new_full T U 0.

(** [torch.finfo(torch.float).min] *)
Definition finfo_float_min : R := - ((2 - / 2 ^ 23) * 2 ^ 127).

(** [a[t, u]] for non-negative Python integers [t], [u]. *)
Definition get2 (a : Tensor2) (t u : nat) : result R :=
  if (t <? rows2 a)%nat && (u <? cols2 a)%nat
  then Ok (item2 a t u)
  else Raise IndexError.

(** [a[t, u] = v] *)
Definition set2 (a : Tensor2) (t u : nat) (v : R) : result Tensor2 :=
  if (t <? rows2 a)%nat && (u <? cols2 a)%nat
  then Ok (mkTensor2 (rows2 a) (cols2 a)
             (fun t' u' => if (t' =? t)%nat && (u' =? u)%nat then v
                           else item2 a t' u'))
  else Raise IndexError.

(** An index taken from an integer tensor (or an integer literal) into a
    dimension of size [n]: negative values count from the end. *)
Definition wrap_index (n : nat) (y : Z) : result nat :=
  if (0 <=? y)%Z && (y <? Z.of_nat n)%Z then Ok (Z.to_nat y)
  else if (- Z.of_nat n <=? y)%Z && (y <? 0)%Z then Ok (Z.to_nat (y + Z.of_nat n))
  else Raise IndexError.

(** [targets[i]] for a non-negative Python integer [i]. *)
Definition index1 (targets : list Z) (i : nat) : result Z :=
  match nth_error targets i with
  | Some y => Ok y
  | None => Raise IndexError
  end.

(** [joint[t, u, y]] for non-negative Python integers [t], [u] and an
    integer [y] taken from [targets] (or the literal 0). *)
Definition get3 (J : Tensor3) (t u : nat) (y : Z) : result R :=
  if (t <? dim0 J)%nat && (u <? dim1 J)%nat
  then k <- wrap_index (dim2 J) y ;; Ok (item3 J t u k)
  else Raise IndexError.

(** ** Joint lattice *)

Fixpoint sum_upto (f : nat -> R) (n : nat) : R :=
  match n with
  | O => 0
  | S n' => sum_upto f n' + f n'
  end.

(** Size of two broadcast dimensions, when they broadcast. *)
Definition broadcast_dim (a b : nat) : option nat :=
  if (a =? b)%nat then Some a
  else if (a =? 1)%nat then Some b
  else if (b =? 1)%nat then Some a
  else None.

(** Index into a dimension of size [n] that may have been broadcast. *)
Definition bidx (n k : nat) : nat := if (n =? 1)%nat then 0%nat else k.

(** [x[:, None, :] + y[None, :, :]] *)
Definition broadcast_add (x y : Tensor2) : result Tensor3 :=
  match broadcast_dim (cols2 x) (cols2 y) with
  | Some K =>
      Ok (mkTensor3 (rows2 x) (rows2 y) K
            (fun t u k => item2 x t (bidx (cols2 x) k)
                          + item2 y u (bidx (cols2 y) k)))
  | None => Raise RuntimeError
  end.

(** [z.softmax(dim=-1)] *)
Definition softmax (z : Tensor3) : Tensor3 :=
  mkTensor3 (dim0 z) (dim1 z) (dim2 z)
    (fun t u k => exp (item3 z t u k)
                  / sum_upto (fun j => exp (item3 z t u j)) (dim2 z)).

(** [z.log_softmax(dim=-1)] *)
Definition log_softmax (z : Tensor3) : Tensor3 :=
  mkTensor3 (dim0 z) (dim1 z) (dim2 z)
    (fun t u k => item3 z t u k
                  - ln (sum_upto (fun j => exp (item3 z t u j)) (dim2 z))).

(** Line 18: the probability-domain joint lattice. *)
Definition joint_probs (transcription_probs prediction_probs : Tensor2)
  : result Tensor3 :=
  z <- broadcast_add transcription_probs prediction_probs ;;
  Ok (softmax z).

(** Line 88: the log-domain joint lattice. *)
Definition joint_log (transcription_probs prediction_probs : Tensor2)
  : result Tensor3 :=
  z <- broadcast_add transcription_probs prediction_probs ;;
  Ok (log_softmax z).

(** ** transducer_forward_score1 *)

(** Lines 20-39: the alpha table of the nested-loop recurrence. *)
Definition alpha_table1 (joint_probs : Tensor3) (T U : nat)
  (targets : list Z) : result Tensor2 :=
  let alpha := new_zeros T U in
  let t := 0%nat in
  alpha <- set2 alpha t 0 1 ;;
  alpha <- for_range (range 1 U) (fun u alpha =>
      y <- index1 targets (u - 1) ;;
      prev_symbol_prob <- get3 joint_probs t (u - 1) y ;;
      a <- get2 alpha t (u - 1) ;;
      set2 alpha t u (a * prev_symbol_prob)) alpha ;;
  for_range (range 1 T) (fun t alpha =>
      let u := 0%nat in
      prev_blank_prob <- get3 joint_probs (t - 1) u 0 ;;
      a <- get2 alpha (t - 1) u ;;
      alpha <- set2 alpha t u (a * prev_blank_prob) ;;
      for_range (range 1 U) (fun u alpha =>
          prev_blank_prob <- get3 joint_probs (t - 1) u 0 ;;
          y <- index1 targets (u - 1) ;;
          prev_symbol_prob <- get3 joint_probs t (u - 1) y ;;
          a_up <- get2 alpha (t - 1) u ;;
          a_left <- get2 alpha t (u - 1) ;;
          set2 alpha t u (a_up * prev_blank_prob + a_left * prev_symbol_prob))
        alpha) alpha.

(** The whole function.  [T - 1] and [U - 1] are read only after
    [alpha[0, 0] = 1] has succeeded, hence with [T >= 1] and [U >= 1]. *)
Definition transducer_forward_score1
  (transcription_probs prediction_probs : Tensor2) (targets : list Z)
  : result R :=
  let T := rows2 transcription_probs in
  let U := rows2 prediction_probs in
  joint_probs <- joint_probs transcription_probs prediction_probs ;;
  alpha <- alpha_table1 joint_probs T U targets ;;
  a <- get2 alpha (T - 1) (U - 1) ;;
  b <- get3 joint_probs (T - 1) (U - 1) 0 ;;
  Ok (a * b).

(** ** One-dimensional tensor operations used by the scan formulations *)

(** [J[t, :]]: the (U, K) slice at a non-negative Python integer [t]. *)
Definition slice3 (J : Tensor3) (t : nat) : result Tensor2 :=
  if (t <? dim0 J)%nat
  then Ok (mkTensor2 (dim1 J) (dim2 J) (item3 J t))
  else Raise IndexError.

Fixpoint gather_from (m : Tensor2) (u : nat) (index : list Z)
  : result (list R) :=
  match index with
  | [] => Ok []
  | y :: index' =>
      if (0 <=? y)%Z && (y <? Z.of_nat (cols2 m))%Z
      then rest <- gather_from m (S u) index' ;;
           Ok (item2 m u (Z.to_nat y) :: rest)
      else Raise RuntimeError
  end.

(** [m.gather(-1, index[:, None])[:, 0]]: entry [u] is [m[u, index[u]]].
    The index may not have more rows than [m], and gather does not wrap
    negative indices. *)
Definition gather_last (m : Tensor2) (index : list Z) : result (list R) :=
  if (length index <=? rows2 m)%nat
  then gather_from m 0 index
  else Raise RuntimeError.

(** [J[t, :, k]] *)
Definition slice_u (J : Tensor3) (t : nat) (k : Z) : result (list R) :=
  if (t <? dim0 J)%nat
  then k' <- wrap_index (dim2 J) k ;;
       Ok (map (fun u => item3 J t u k') (seq 0 (dim1 J)))
  else Raise IndexError.

(** [J[:, u, k]] *)
Definition slice_t (J : Tensor3) (u : nat) (k : Z) : result (list R) :=
  if (u <? dim1 J)%nat
  then k' <- wrap_index (dim2 J) k ;;
       Ok (map (fun t => item3 J t u k') (seq 0 (dim0 J)))
  else Raise IndexError.

(** [a[t, :]] and [a[:, u]] *)
Definition get_row (a : Tensor2) (t : nat) : result (list R) :=
  if (t <? rows2 a)%nat
  then Ok (map (item2 a t) (seq 0 (cols2 a)))
  else Raise IndexError.

Definition get_col (a : Tensor2) (u : nat) : result (list R) :=
  if (u <? cols2 a)%nat
  then Ok (map (fun t => item2 a t u) (seq 0 (rows2 a)))
  else Raise IndexError.

(** [a[t, :] = v]: [v] has as many entries as the row, or one entry
    that is broadcast. *)
Definition set_row (a : Tensor2) (t : nat) (v : list R) : result Tensor2 :=
  if (t <? rows2 a)%nat
  then if (length v =? cols2 a)%nat
       then Ok (mkTensor2 (rows2 a) (cols2 a)
                  (fun t' u' => if (t' =? t)%nat then nth u' v 0
                                else item2 a t' u'))
       else if (length v =? 1)%nat
       then Ok (mkTensor2 (rows2 a) (cols2 a)
                  (fun t' u' => if (t' =? t)%nat then nth 0 v 0
                                else item2 a t' u'))
       else Raise RuntimeError
  else Raise IndexError.

(** [a[:, u] = v] *)
Definition set_col (a : Tensor2) (u : nat) (v : list R) : result Tensor2 :=
  if (u <? cols2 a)%nat
  then if (length v =? rows2 a)%nat
       then Ok (mkTensor2 (rows2 a) (cols2 a)
                  (fun t' u' => if (u' =? u)%nat then nth t' v 0
                                else item2 a t' u'))
       else if (length v =? 1)%nat
       then Ok (mkTensor2 (rows2 a) (cols2 a)
                  (fun t' u' => if (u' =? u)%nat then nth 0 v 0
                                else item2 a t' u'))
       else Raise RuntimeError
  else Raise IndexError.

(** Elementwise product and sum of two one-dimensional tensors; in this
    file both operands always have the same number of entries. *)
Fixpoint map2 (f : R -> R -> R) (l1 l2 : list R) : list R :=
  match l1, l2 with
  | x :: l1', y :: l2' => f x y :: map2 f l1' l2'
  | _, _ => []
  end.

Fixpoint cum_from (f : R -> R -> R) (acc : R) (l : list R) : list R :=
  match l with
  | [] => []
  | x :: l' => let acc' := f acc x in acc' :: cum_from f acc' l'
  end.

(** [torch.cumprod(l, dim=0)] and [torch.cumsum(l, dim=0)] *)
Definition cumprod (l : list R) : list R := cum_from Rmult 1 l.
Definition cumsum (l : list R) : list R := cum_from Rplus 0 l.

(** ** The scan formulations

    [scanrec] and [scanrec_log] are imported from [ha/scan.py]; the
    three functions below are written over whatever the import
    provides. *)

Section ScanFormulations.

Variable scanrec : list R -> list R -> list R.
Variable scanrec_log : list R -> list R -> list R.

(** Lines 58-71 *)
Definition alpha_table2 (joint_probs : Tensor3) (T U : nat)
  (targets : list Z) : result Tensor2 :=
  let alpha := new_zeros T U in
  let t := 0%nat in
  row <- slice3 joint_probs t ;;
  from_bot <- gather_last row targets ;;
  let from_bot := 1 :: removelast from_bot in
  alpha <- set_row alpha t (cumprod from_bot) ;;
  for_range (range 1 T) (fun t alpha =>
      prev <- get_row alpha (t - 1) ;;
      blank <- slice_u joint_probs (t - 1) 0 ;;
      let from_left := map2 Rmult prev blank in
      row <- slice3 joint_probs t ;;
      from_bot <- gather_last row targets ;;
      let from_bot := 1 :: removelast from_bot in
      set_row alpha t (scanrec from_bot from_left)) alpha.

Definition transducer_forward_score2
  (transcription_probs prediction_probs : Tensor2) (targets : list Z)
  : result R :=
  let T := rows2 transcription_probs in
  let U := rows2 prediction_probs in
  joint_probs <- joint_probs transcription_probs prediction_probs ;;
  alpha <- alpha_table2 joint_probs T U targets ;;
  a <- get2 alpha (T - 1) (U - 1) ;;
  b <- get3 joint_probs (T - 1) (U - 1) 0 ;;
  Ok (a * b).

(** Lines 90-103 *)
Definition log_alpha_table3 (joint : Tensor3) (T U : nat)
  (targets : list Z) : result Tensor2 :=
  let log_alpha := new_full T U finfo_float_min in
  let t := 0%nat in
  row <- slice3 joint t ;;
  from_bot <- gather_last row targets ;;
  let from_bot := 0 :: removelast from_bot in
  log_alpha <- set_row log_alpha t (cumsum from_bot) ;;
  for_range (range 1 T) (fun t log_alpha =>
      prev <- get_row log_alpha (t - 1) ;;
      blank <- slice_u joint (t - 1) 0 ;;
      let from_left := map2 Rplus prev blank in
      row <- slice3 joint t ;;
      from_bot <- gather_last row targets ;;
      let from_bot := 0 :: removelast from_bot in
      set_row log_alpha t (scanrec_log from_bot from_left)) log_alpha.

Definition transducer_forward_score3
  (transcription_probs prediction_probs : Tensor2) (targets : list Z)
  : result R :=
  let T := rows2 transcription_probs in
  let U := rows2 prediction_probs in
  joint <- joint_log transcription_probs prediction_probs ;;
  log_alpha <- log_alpha_table3 joint T U targets ;;
  a <- get2 log_alpha (T - 1) (U - 1) ;;
  b <- get3 joint (T - 1) (U - 1) 0 ;;
  Ok (a + b).

(** Lines 122-135 *)
Definition log_alpha_table3_transposed (joint : Tensor3) (T U : nat)
  (targets : list Z) : result Tensor2 :=
  let log_alpha := new_full T U finfo_float_min in
  let u := 0%nat in
  from_left <- slice_t joint u 0 ;;
  let from_left := 0 :: removelast from_left in
  log_alpha <- set_col log_alpha u (cumsum from_left) ;;
  for_range (range 1 U) (fun u log_alpha =>
      prev <- get_col log_alpha (u - 1) ;;
      y <- index1 targets (u - 1) ;;
      symbol <- slice_t joint (u - 1) y ;;
      let from_bot := map2 Rplus prev symbol in
      from_left <- slice_t joint u 0 ;;
      let from_left := 0 :: removelast from_left in
      set_col log_alpha u (scanrec_log from_left from_bot)) log_alpha.

Definition transducer_forward_score3_transposed
  (transcription_probs prediction_probs : Tensor2) (targets : list Z)
  : result R :=
  let T := rows2 transcription_probs in
  let U := rows2 prediction_probs in
  joint <- joint_log transcription_probs prediction_probs ;;
  log_alpha <- log_alpha_table3_transposed joint T U targets ;;
  a <- get2 log_alpha (T - 1) (U - 1) ;;
  b <- get3 joint (T - 1) (U - 1) 0 ;;
  Ok (a + b).

End ScanFormulations.

(** ** The scan helper of ha/scan.py *)

Module Scan.

(** Modelled from the spec: [scanrec] of [ha/scan.py], which is not part
    of the sources at hand.  Section 4.3 asks for a prefix scan that
    unrolls a linear recurrence and matches the sequential recurrence
    exactly: position [u] collects what enters at [u] from the left plus
    what was collected at [u - 1] carried over one bottom transition.
    Nothing is collected before position 0. *)
Fixpoint scan_from (x : R) (gates tokens : list R) : list R :=
  match gates, tokens with
  | g :: gates', b :: tokens' =>
      let x' := g * x + b in x' :: scan_from x' gates' tokens'
  | _, _ => []
  end.

(** Modelled from the spec: the entry point [scanrec(gates, tokens)] of
    [ha/scan.py], the scan above started with nothing collected. *)
Definition scanrec (gates tokens : list R) : list R :=
  scan_from 0 gates tokens.

(** Modelled from the spec: the pairwise log-sum-exp combination that
    section 4.3 names for the log-domain helper of [ha/scan.py]. *)
Definition logaddexp (a b : R) : R := ln (exp a + exp b).

(** Modelled from the spec: the recurrence of [scanrec_log] of
    [ha/scan.py], the same scan with products replaced by sums and the
    two-term sum by log-sum-exp. *)
Fixpoint scan_log_from (x : R) (gates tokens : list R) : list R :=
  match gates, tokens with
  | g :: gates', b :: tokens' =>
      let x' := logaddexp (g + x) b in x' :: scan_log_from x' gates' tokens'
  | _, _ => []
  end.

(** Modelled from the spec: the entry point [scanrec_log(gates, tokens)]
    of [ha/scan.py].  Before position 0 the carry is the unreachable
    state, which adds no mass, so the first entry is the first token
    alone. *)
Definition scanrec_log (gates tokens : list R) : list R :=
  match gates, tokens with
  | _ :: gates', b :: tokens' => b :: scan_log_from b gates' tokens'
  | _, _ => []
  end.

End Scan.

(** ** The lattice entries the loops read *)

(** The lattice entry for the blank (index 0) at (t, u): a probability in
    the softmax lattice, a log-probability in the log-softmax lattice. *)
Definition blank_at (J : Tensor3) (t u : nat) : R := item3 J t u 0.

(** The position of the K axis that the read
    [joint_probs[t, u, targets[u]]] of the loops addresses (line 25 with
    u - 1 for u): entry [u] of the array as it was passed, a negative
    entry counting from the end. *)
Definition label_index (K : nat) (targets : list Z) (u : nat) : nat :=
  match nth_error targets u with
  | Some y => match wrap_index K y with Ok k => k | Raise _ => 0%nat end
  | None => 0%nat
  end.

(** The value of that read at (t, u). *)
Definition symbol_at (J : Tensor3) (targets : list Z) (t u : nat) : R :=
  item3 J t u (label_index (dim2 J) targets u).

(** ** The recurrence of section 4.2 *)

Section Recurrence.

Variable blank : nat -> nat -> R.   (* the blank's entry at (t, u) *)
Variable symbol : nat -> nat -> R.  (* the entry consumed on leaving
                                       column u for column u + 1, at (t, u) *)

Fixpoint alpha_row0 (u : nat) : R :=
  match u with
  | O => 1
  | S u' => alpha_row0 u' * symbol 0%nat u'
  end.

(** The recurrence as section 4.2 words it. *)
Fixpoint alpha_rec (t : nat) : nat -> R :=
  match t with
  | O => alpha_row0
  | S t' =>
      fix row (u : nat) : R :=
        match u with
        | O => alpha_rec t' 0%nat * blank t' 0%nat
        | S u' => alpha_rec t' (S u') * blank t' (S u')
                  + row u' * symbol (S t') u'
        end
  end.

End Recurrence.

(** ** The documented layout of targets

    Line 9 documents [targets] as an array of U entries whose first
    symbol is the blank (0); [_test_simple] passes [0, 1, 2] with U = 3.
    Under that layout the U - 1 labels of the utterance are the entries
    1 .. U-1, and the label consumed on the advance from column u - 1
    to column u (the target[u-1] of section 4.2, which counts the labels
    from 0) is entry u of the array.  These definitions read the layout
    off the parameter comment; they share nothing with the loops. *)

(** Label number [i] (from 0) of an array laid out as documented. *)
Definition documented_label (targets : list Z) (i : nat) : nat :=
  Z.to_nat (nth (S i) targets 0%Z).

(** P(target[u] | joint at (t, u)) of section 4.2 under the documented
    layout: the entry consumed on leaving column u for column u + 1. *)
Definition documented_symbol (J : Tensor3) (targets : list Z) (t u : nat)
  : R :=
  item3 J t u (documented_label targets u).

Fixpoint prod_upto (f : nat -> R) (n : nat) : R :=
  match n with
  | O => 1
  | S n' => prod_upto f n' * f n'
  end.

(** Section 4.3 in closed form: what enters at [k <= u] from the left,
    carried over the bottom transitions [k+1 .. u], summed over the entry
    points [k]. *)
Definition prod_between (gates : nat -> R) (k u : nat) : R :=
  prod_upto (fun i => gates (S (k + i))) (u - k).

Definition scan_entry_sum (gates tokens : nat -> R) (u : nat) : R :=
  sum_upto (fun k => tokens k * prod_between gates k u) (S u).

(** ** Input contracts *)

(** The labels the sequential loops read, [targets[0 .. U-2]], exist and
    address the K axis (negative labels count from the end). *)
Definition targets_readable (K U : nat) (targets : list Z) : Prop :=
  forall u, (u + 1 < U)%nat ->
    exists y, nth_error targets u = Some y
              /\ (- Z.of_nat K <= y < Z.of_nat K)%Z.

(** The documented shape of [targets], with every label in [0, K). *)
Definition valid_targets (K U : nat) (targets : list Z) : Prop :=
  length targets = U /\ Forall (fun y => (0 <= y < Z.of_nat K)%Z) targets.

(** A well-formed call: T >= 1 time steps, U >= 1 label positions, the
    same vocabulary size K >= 1 on both score matrices, and U labels in
    [0, K). *)
Definition valid_input (transcription_probs prediction_probs : Tensor2)
  (targets : list Z) : Prop :=
  (1 <= rows2 transcription_probs)%nat
  /\ (1 <= rows2 prediction_probs)%nat
  /\ (1 <= cols2 transcription_probs)%nat
  /\ cols2 prediction_probs = cols2 transcription_probs
  /\ valid_targets (cols2 transcription_probs) (rows2 prediction_probs)
       targets.

Definition is_ok {A : Type} (r : result A) : Prop := exists a, r = Ok a.

(** The log-domain variant: products become sums and the two-term sum
    becomes log-sum-exp. *)
Section LogRecurrence.

Variable blank : nat -> nat -> R.   (* the blank's log-entry at (t, u) *)
Variable symbol : nat -> nat -> R.  (* the log-entry consumed on leaving
                                       column u, at (t, u) *)

Fixpoint log_alpha_row0 (u : nat) : R :=
  match u with
  | O => 0
  | S u' => log_alpha_row0 u' + symbol 0%nat u'
  end.

Fixpoint log_alpha_rec (t : nat) : nat -> R :=
  match t with
  | O => log_alpha_row0
  | S t' =>
      fix row (u : nat) : R :=
        match u with
        | O => log_alpha_rec t' 0%nat + blank t' 0%nat
        | S u' => Scan.logaddexp
                    (log_alpha_rec t' (S u') + blank t' (S u'))
                    (row u' + symbol (S t') u')
        end
  end.

End LogRecurrence.

(** What transducer_forward_score1 needs in order to return, once the two
    K axes broadcast to [K]. *)
Definition score1_returns_on (K T U : nat) (targets : list Z) : Prop :=
  (1 <= T)%nat /\ (1 <= U)%nat /\ (1 <= K)%nat
  /\ targets_readable K U targets.

(** A computation that does not fail with a shape error. *)
Definition no_shape_error {A : Type} (r : result A) : Prop :=
  r <> Raise RuntimeError.

(** A label as indexing reads it: a negative label in [-K, 0) names the
    same position as the label plus K. *)
Definition normalize_label (K : nat) (y : Z) : Z :=
  if (- Z.of_nat K <=? y)%Z && (y <? 0)%Z then (y + Z.of_nat K)%Z else y.

(** The score matrix [x] with [c t] added to every score of row [t]. *)
Definition shift_rows (c : nat -> R) (x : Tensor2) : Tensor2 :=
  mkTensor2 (rows2 x) (cols2 x) (fun t k => item2 x t k + c t).

(** ** Concrete inputs *)

(** A matrix written row by row. *)
Definition of_rows (rows cols : nat) (l : list (list R)) : Tensor2 :=
  mkTensor2 rows cols (fun t k => nth k (nth t l []) 0).

(** The input of [_test_simple]: T = 4, U = 3, K = 4. *)
Definition simple_transcription : Tensor2 :=
  of_rows 4 4 [ [1; 0; 0; 0];
                [1/10; 2/10; 3/10; 4/10];
                [1/10; 2/10; 3/10; 4/10];
                [1/10; 2/10; 3/10; 4/10] ].

Definition simple_prediction : Tensor2 :=
  of_rows 3 4 [ [1; 0; 0; 0];
                [1/10; 2/10; 3/10; 4/10];
                [1/10; 2/10; 3/10; 4/10] ].

Definition simple_targets : list Z := [0; 1; 2]%Z.

(** The (rows, cols) matrix with every score equal to [c]. *)
Definition const_scores (rows cols : nat) (c : R) : Tensor2 :=
  mkTensor2 rows cols (fun _ _ => c).

(** An input with a single time step, laid out as documented: T = 1,
    U = 3, K = 2; the leading blank, then the label 1 twice. *)
Definition single_row_transcription : Tensor2 := of_rows 1 2 [ [1; 0] ].

Definition single_row_prediction : Tensor2 := const_scores 3 2 0.

Definition single_row_targets : list Z := [0; 1; 1]%Z.

(** An input on which the blank carries most of every softmax row, laid
    out as documented: T = 2, U = 2, K = 2; the leading blank, then the
    label 1. *)
Definition peaked_transcription : Tensor2 := of_rows 2 2 [ [4; 0]; [4; 0] ].

Definition peaked_prediction : Tensor2 := const_scores 2 2 0.

Definition peaked_targets : list Z := [0; 1]%Z.

(** The blank's entry in every softmax row of that input. *)
Definition peaked_blank : R := exp 4 / (exp 4 + 1).

(** Proof invariant of the table-filling loops: the table has its shape
    and agrees with [f] on every cell before (t, u) in row-major order. *)
Definition filled (f : nat -> nat -> R) (T U t u : nat) (a : Tensor2) : Prop :=
  rows2 a = T /\ cols2 a = U /\
  forall t' u', (u' < U)%nat -> (t' < t \/ (t' = t /\ u' < u))%nat ->
    item2 a t' u' = f t' u'.

(** The same for the column-by-column traversal: every cell of the
    columns before [u]. *)
Definition filled_cols (f : nat -> nat -> R) (T U u : nat) (a : Tensor2)
  : Prop :=
  rows2 a = T /\ cols2 a = U /\
  forall t' u', (t' < T)%nat -> (u' < u)%nat -> item2 a t' u' = f t' u'.

(** * The audio encoders (ha/attention_audio.py)

    The parts of [ha/attention_audio.py] that are arithmetic: the
    sinusoidal position table, over exact reals, and the length
    bookkeeping of the two encoders, over int64 and binary32 as the
    tensor library computes it.  A float that is not a finite number
    is [None]. *)

Module AttentionAudio.

Inductive exn : Type :=
| AssertionError
| ValueError
| IndexError.

Inductive outcome (A : Type) : Type :=
| Return (a : A)
| Throw (e : exn).

Arguments Return {A} a.
Arguments Throw {A} e.

(** [torch.arange(n) / d] for Python integers [n], [d]: a zero divisor
    meets the single numerator 0 here (n = 1, d = 0), and 0 / 0 is
    NaN. *)
Definition arange_div (n : nat) (d : Z) : list (option R) :=
  map (fun i => if (d =? 0)%Z then None else Some (INR i / IZR d)) (seq 0 n).

(** Lines 10-16.  [length] and [channels] are non-negative Python
    integers. *)
Definition sinusoids (length channels : nat) (max_timescale : R)
  : outcome (list (list (option R))) :=
  if negb (channels mod 2 =? 0)%nat then Throw AssertionError
  else
    let scales := arange_div (channels / 2) (Z.of_nat (channels / 2) - 1) in
    (* math.log raises ValueError outside its domain *)
    if Rlt_dec 0 max_timescale then
      let inv_timescales :=
        map (option_map (fun s => exp (- ln max_timescale * s))) scales in
      let scaled_time :=
        map (fun t => map (option_map (fun w => INR t * w)) inv_timescales)
          (seq 0 length) in
      Return (map (fun row => map (option_map sin) row
                              ++ map (option_map cos) row) scaled_time)
    else Throw ValueError.

(** What [subsampled_lengths] reads off a convolution layer:
    [conv.padding[0]], [conv.kernel_size[0]], [conv.stride[0]]. *)
Record Conv1d : Type := mkConv1d {
  kernel_size : Z;
  stride : Z;
  padding : Z
}.

(** ** binary32 arithmetic

    A finite binary32 number is an integer multiple of 2^-149, the
    smallest subnormal, and is held as that integer; [None] stands for
    the infinities and NaN.  The sign of zero is not kept: nothing
    below tells the two zeros apart. *)
Module Float32.

Local Open Scope Z_scope.

Definition float32 : Type := option Z.

(** The integer nearest to [p / q] for [q > 0], a tie going to the even
    one. *)
Definition round_half_even (p q : Z) : Z :=
  let f := p / q in
  match 2 * (p mod q) ?= q with
  | Lt => f
  | Gt => f + 1
  | Eq => if Z.even f then f else f + 1
  end.

(** Rounding of the rational [p / q >= 0], counted in units of 2^-149:
    24 significant bits from the leading bit of [p / q] down, never
    below the unit; a result of 2^128 or more overflows to infinity. *)
Definition round_nonneg (p q : Z) : float32 :=
  let c := Z.max (Z.log2 (p / q) - 23) 0 in
  let r := round_half_even p (q * 2 ^ c) * 2 ^ c in
  if r <? 2 ^ 277 then Some r else None.

(** Round to nearest, ties to even, of [p / q] units, [q > 0]. *)
Definition round (p q : Z) : float32 :=
  if 0 <=? p then round_nonneg p q
  else option_map Z.opp (round_nonneg (- p) q).

(** The binary32 number whose value is the integer [n], for an [n] that
    binary32 holds. *)
Definition integer (n : Z) : float32 := Some (n * 2 ^ 149).

(** A Python or int64 integer converted to binary32. *)
Definition of_int (n : Z) : float32 := round (n * 2 ^ 149) 1.

Definition add (a b : float32) : float32 :=
  match a, b with
  | Some x, Some y => round (x + y) 1
  | _, _ => None
  end.

Definition sub (a b : float32) : float32 :=
  match a, b with
  | Some x, Some y => round (x - y) 1
  | _, _ => None
  end.

(** Division by a finite divisor; by zero the quotient is an infinity
    or NaN. *)
Definition div (a b : float32) : float32 :=
  match a, b with
  | Some x, Some y =>
      if y =? 0 then None
      else if 0 <? y then round (x * 2 ^ 149) y
      else round (- x * 2 ^ 149) (- y)
  | _, _ => None
  end.

(** [torch.floor]: the floor of a binary32 number is a binary32
    number. *)
Definition floor (a : float32) : float32 :=
  option_map (fun x => x / 2 ^ 149 * 2 ^ 149) a.

(** Conversion to int32: truncation toward zero; out of range, or of a
    value that is not finite, the result is not specified. *)
Definition to_int32 (a : float32) : option Z :=
  match a with
  | Some x =>
      let n := Z.quot x (2 ^ 149) in
      if (- 2 ^ 31 <=? n) && (n <? 2 ^ 31) then Some n else None
  | None => None
  end.

End Float32.

(** Integer arithmetic of dtype int64 and the conversion to int32 wrap
    around. *)
Definition wrap64 (n : Z) : Z := ((n + 2 ^ 63) mod 2 ^ 64 - 2 ^ 63)%Z.

Definition wrap32 (n : Z) : Z := ((n + 2 ^ 31) mod 2 ^ 32 - 2 ^ 31)%Z.

(** A one-dimensional tensor of lengths: [input_lengths] arrives as
    dtype int64; true division by a Python integer yields the default
    float dtype, binary32. *)
Inductive lengths : Type :=
| Int64 (l : list Z)
| Float (l : list Float32.float32).

(** [o + n] and [o - n] for a Python integer [n]. *)
Definition add_scalar (o : lengths) (n : Z) : lengths :=
  match o with
  | Int64 l => Int64 (map (fun x => wrap64 (x + n)) l)
  | Float l => Float (map (fun x => Float32.add x (Float32.of_int n)) l)
  end.

Definition sub_scalar (o : lengths) (n : Z) : lengths :=
  match o with
  | Int64 l => Int64 (map (fun x => wrap64 (x - n)) l)
  | Float l => Float (map (fun x => Float32.sub x (Float32.of_int n)) l)
  end.

(** [o / s] for a Python integer [s]: true division, in binary32
    whatever the dtype of [o], the quotient correctly rounded.  For a
    stride that is a power of two the quotient is exact, and a kernel
    that multiplies by the reciprocal instead computes the same
    number. *)
Definition true_div (o : lengths) (s : Z) : lengths :=
  let x := match o with
           | Int64 l => map Float32.of_int l
           | Float l => l
           end in
  Float (map (fun a => Float32.div a (Float32.of_int s)) x).

(** [torch.floor] *)
Definition floor (o : lengths) : lengths :=
  match o with
  | Int64 l => Int64 l
  | Float l => Float (map Float32.floor l)
  end.

(** [o.int()] *)
Definition to_int (o : lengths) : list (option Z) :=
  match o with
  | Int64 l => map (fun x => Some (wrap32 x)) l
  | Float l => map Float32.to_int32 l
  end.

(** One pass of the length arithmetic:
    [o = o + 2 * p - k; o = torch.floor(o / s + 1)]. *)
Definition conv_lengths (conv : Conv1d) (o : lengths) : lengths :=
  let p := padding conv in
  let k := kernel_size conv in
  let s := stride conv in
  let o := sub_scalar (add_scalar o (2 * p)) k in
  floor (add_scalar (true_div o s) 1).

Module AudioEncoder.

(** Line 72: [nn.Conv1d(n_embd, n_embd, kernel_size=3, stride=2,
    padding=1)]. *)
Definition conv_subsample : Conv1d := mkConv1d 3 2 1.

(** Lines 93-98 *)
Definition subsampled_lengths (input_lengths : list Z) : list (option Z) :=
  to_int (conv_lengths conv_subsample (Int64 input_lengths)).

End AudioEncoder.


Module StridingAudioEncoder.

(** Lines 25-29: the layers [self.conv] as their (kernel size, stride,
    padding), taking a [DWConv1d] to expose the arguments it was built
    with, as [nn.Conv1d] does.  [conv_strides[0]] of an empty sequence
    raises. *)
Definition conv (conv_strides : list Z) : outcome (list Conv1d) :=
  match conv_strides with
  | [] => Throw IndexError
  | s0 :: _ =>
      Return ([mkConv1d 3 s0 1]
              ++ map (fun s => mkConv1d 3 s 1) (removelast (tl conv_strides))
              ++ [mkConv1d 3 (last conv_strides s0) 1])
  end.

(** Lines 38-45, over the layers of [self.conv]. *)
Definition subsampled_lengths (conv : list Conv1d) (input_lengths : list Z)
  : list (option Z) :=
  let o := Int64 input_lengths in
  let o := fold_left (fun o c => conv_lengths c o) conv o in
  to_int o.

End StridingAudioEncoder.

End AttentionAudio.

(** * The training-log reader (ha/query_sim.py)

    [training_log_to_dataset] over the lines of the log as iterating the
    file yields them.  A character is a code point below 256.  Python's
    [int] and the sort behind [DataFrame.sort_values] (whose order among
    equal keys is not fixed) are library code and are taken as
    parameters; the data frame returned is its list of rows
    (dataset_index, hyp_text). *)

Module QuerySim.

Import Ascii String.

Inductive exn : Type :=
| AssertionError
| ValueError.

Inductive outcome (A : Type) : Type :=
| Return (a : A)
| Throw (e : exn).

Arguments Return {A} a.
Arguments Throw {A} e.

(** [c.isspace()] for a code point below 256: the characters that
    [str.strip()] removes. *)
Definition isspace (c : ascii) : bool :=
  let n := nat_of_ascii c in
  ((9 <=? n) && (n <=? 13) || (28 <=? n) && (n <=? 32)
   || (n =? 133) || (n =? 160))%nat.

Fixpoint lstrip (s : string) : string :=
  match s with
  | EmptyString => EmptyString
  | String c s' => if isspace c then lstrip s' else s
  end.

Definition reverse (s : string) : string :=
  string_of_list_ascii (rev (list_ascii_of_string s)).

Definition rstrip (s : string) : string := reverse (lstrip (reverse s)).

(** [s.strip()] *)
Definition strip (s : string) : string := rstrip (lstrip s).

(** [s.split(sep)] for a one-character separator. *)
Fixpoint split (sep : ascii) (s : string) : list string :=
  match s with
  | EmptyString => [EmptyString]
  | String c s' =>
      if Ascii.eqb c sep then EmptyString :: split sep s'
      else match split sep s' with
           | field :: fields => String c field :: fields
           | [] => [String c EmptyString]
           end
  end.

(** [s.startswith(p)] *)
Definition startswith (s p : string) : bool := prefix p s.

(** [p in s] *)
Fixpoint contains (p s : string) : bool :=
  prefix p s
  || match s with
     | EmptyString => false
     | String _ s' => contains p s'
     end.

Definition tab : ascii := ascii_of_nat 9.

Section TrainingLog.

Variable int : string -> option Z.   (* None: ValueError *)
Variable sort_values : list (Z * string) -> list (Z * string).

(** Lines 44-50: one turn of the loop on the state
    (decoding_train, train_hypotheses). *)
Definition read_line (line : string) (state : bool * list (Z * string))
  : outcome (bool * list (Z * string)) :=
  let '(decoding_train, train_hypotheses) := state in
  if decoding_train && startswith line "12" && contains "hyp" line
  then
    match split tab (strip line) with
    | [epoch; dataset_index; hypN; text] =>
        if String.eqb epoch "12" && startswith hypN "hyp"
        then match int dataset_index with
             | Some n =>
                 Return (decoding_train, train_hypotheses ++ [(n, text)])
             | None => Throw ValueError
             end
        else Throw AssertionError
    | _ => Throw ValueError
    end
  else if startswith line "valid [12"
  then Return (true, train_hypotheses)
  else Return (decoding_train, train_hypotheses).

Fixpoint read_lines (lines : list string) (state : bool * list (Z * string))
  : outcome (bool * list (Z * string)) :=
  match lines with
  | [] => Return state
  | line :: lines' =>
      match read_line line state with
      | Return state' => read_lines lines' state'
      | Throw e => Throw e
      end
  end.

(** Lines 38-53 *)
Definition training_log_to_dataset (training_log : list string)
  : outcome (list (Z * string)) :=
  match read_lines training_log (false, []) with
  | Return (_, train_hypotheses) => Return (sort_values train_hypotheses)
  | Throw e => Throw e
  end.

End TrainingLog.

(** The lines the loop looks at for hypotheses: those after the first
    line that starts with "valid [12". *)
Fixpoint after_marker (lines : list string) : list string :=
  match lines with
  | [] => []
  | line :: lines' =>
      if startswith line "valid [12" then lines' else after_marker lines'
  end.

(** A line the loop takes for a hypothesis of epoch 12. *)
Definition selected (line : string) : bool :=
  startswith line "12" && contains "hyp" line.

(** A selected line that the loop turns into the row (n, text). *)
Definition row_of (int : string -> option Z) (line : string)
  (row : Z * string) : Prop :=
  exists dataset_index hypN,
    split tab (strip line) = ["12"%string; dataset_index; hypN; snd row]
    /\ startswith hypN "hyp" = true
    /\ int dataset_index = Some (fst row).

(** An insertion sort on dataset_index, one sort that
    [DataFrame.sort_values] may be. *)
Fixpoint insert_row (r : Z * string) (l : list (Z * string))
  : list (Z * string) :=
  match l with
  | [] => [r]
  | r' :: l' => if (fst r <=? fst r')%Z then r :: l else r' :: insert_row r l'
  end.

Definition insertion_sort (l : list (Z * string)) : list (Z * string) :=
  fold_right insert_row [] l.

(** Decimal digits only, one parser that agrees with [int] on them. *)
Fixpoint digits (acc : Z) (s : string) : option Z :=
  match s with
  | EmptyString => Some acc
  | String c s' =>
      let n := nat_of_ascii c in
      if ((48 <=? n) && (n <=? 57))%nat
      then digits (10 * acc + Z.of_nat (n - 48)) s'
      else None
  end.

Definition int_of_digits (s : string) : option Z :=
  match s with
  | EmptyString => None
  | _ => digits 0 s
  end.

(** A log line written field by field: the fields joined by tabs, and
    the newline that ends the line. *)
Definition log_line (fields : list string) : string :=
  concat (String tab EmptyString) fields
  ++ String (ascii_of_nat 10) EmptyString.

(** The order of the returned frame. *)
Definition index_le (r r' : Z * string) : Prop := (fst r <= fst r')%Z.

(** A small log: two lines before the validation of epoch 12, one of them
    shaped like a hypothesis, then two hypotheses around another line. *)
Definition small_log_head : list string :=
  [ log_line ["train [12"%string];
    log_line ["12"; "0"; "hyp1"; "before the marker"]%string ].

Definition small_log_tail : list string :=
  [ log_line ["valid [12, 1.5]"%string];
    log_line ["12"; "7"; "hyp1"; "hello world"]%string;
    log_line ["step 100"%string];
    log_line ["12"; "3"; "hyp2"; "foo"]%string ].

(** The same with a hypothesis of epoch 120 first. *)
Definition epoch_120_line : string :=
  log_line ["120"; "7"; "hyp1"; "hello world"]%string.

Definition epoch_120_log : list string :=
  [ log_line ["valid [12, 1.5]"%string];
    epoch_120_line;
    log_line ["12"; "3"; "hyp2"; "foo"]%string ].

End QuerySim.


(** [ceil(a / b)] on integers. *)
Definition ceil_div (a b : Z) : Z := ((a + b - 1) / b)%Z.

(** Product of the strides of a stack of layers. *)
Definition total_stride (conv : list AttentionAudio.Conv1d) : Z :=
  fold_right Z.mul 1%Z (map AttentionAudio.stride conv).


(** A layer with kernel size 3, padding 1 and a stride 2^j, j <= 23. *)
Definition pow2_layer (c : AttentionAudio.Conv1d) : Prop :=
  AttentionAudio.kernel_size c = 3%Z /\ AttentionAudio.padding c = 1%Z
  /\ exists j, (0 <= j <= 23)%Z /\ AttentionAudio.stride c = (2 ^ j)%Z.

(** * Properties *)

(** ** The error monad and the loops *)

Lemma bind_ok {A B : Type} (m : result A) (f : A -> result B) (a : A) :
  m = Ok a -> bind m f = f a.
Proof. intros ->. reflexivity. Qed.

Lemma bind_ok_inv {A B : Type} (m : result A) (f : A -> result B) (b : B) :
  bind m f = Ok b -> exists a, m = Ok a /\ f a = Ok b.
Proof.
  destruct m as [a|e]; cbn; intros H.
  - exists a. split; [reflexivity | exact H].
  - discriminate H.
Qed.

(** A loop whose body keeps an invariant and never fails, succeeds. *)
Lemma for_range_seq_inv {S : Type} (P : nat -> S -> Prop)
  (body : nat -> S -> result S) :
  forall n a s,
    P a s ->
    (forall i s, (a <= i < a + n)%nat -> P i s ->
       exists s', body i s = Ok s' /\ P (Datatypes.S i) s') ->
    exists s', for_range (seq a n) body s = Ok s' /\ P (a + n)%nat s'.
Proof.
  induction n as [|n IH]; intros a s Ha Hstep.
  - exists s. rewrite Nat.add_0_r. split; [reflexivity | exact Ha].
  - destruct (Hstep a s) as [s1 [Hb Hs1]]; [lia | exact Ha |].
    destruct (IH (Datatypes.S a) s1 Hs1) as [s2 [Hr Hs2]].
    + intros i s0 Hi. apply Hstep. lia.
    + exists s2. cbn [seq for_range]. rewrite (bind_ok _ _ _ Hb).
      split; [exact Hr |]. replace (a + Datatypes.S n)%nat
        with (Datatypes.S a + n)%nat by lia. exact Hs2.
Qed.

Lemma for_range_inv {S : Type} (P : nat -> S -> Prop)
  (body : nat -> S -> result S) (a b : nat) (s : S) :
  (a <= b)%nat ->
  P a s ->
  (forall i s, (a <= i < b)%nat -> P i s ->
     exists s', body i s = Ok s' /\ P (Datatypes.S i) s') ->
  exists s', for_range (range a b) body s = Ok s' /\ P b s'.
Proof.
  intros Hab Ha Hstep.
  destruct (for_range_seq_inv P body (b - a) a s Ha) as [s' [Hrun Hs']].
  - intros i s0 Hi. apply Hstep. lia.
  - exists s'. split; [exact Hrun |].
    replace (a + (b - a))%nat with b in Hs' by lia. exact Hs'.
Qed.

(** A loop that succeeded ran every iteration successfully. *)
Lemma for_range_seq_ok_inv {S : Type} (Q : nat -> Prop)
  (body : nat -> S -> result S) :
  forall n a s s',
    for_range (seq a n) body s = Ok s' ->
    (forall i s0 s1, (a <= i < a + n)%nat -> body i s0 = Ok s1 -> Q i) ->
    forall i, (a <= i < a + n)%nat -> Q i.
Proof.
  induction n as [|n IH]; intros a s s' Hrun Hstep i Hi; [lia |].
  cbn [seq for_range] in Hrun.
  apply bind_ok_inv in Hrun. destruct Hrun as [s1 [Hb Hrest]].
  destruct (Nat.eq_dec i a) as [-> | Hne].
  - eapply Hstep; [lia | exact Hb].
  - eapply (IH (Datatypes.S a) s1 s' Hrest); [| lia].
    intros j s0 s2 Hj. apply Hstep. lia.
Qed.

(** ** Reads and writes inside the shape *)

Lemma get2_ok (a : Tensor2) (t u : nat) :
  (t < rows2 a)%nat -> (u < cols2 a)%nat -> get2 a t u = Ok (item2 a t u).
Proof.
  intros Ht Hu. unfold get2.
  apply Nat.ltb_lt in Ht. apply Nat.ltb_lt in Hu. now rewrite Ht, Hu.
Qed.

Lemma set2_ok (a : Tensor2) (t u : nat) (v : R) :
  (t < rows2 a)%nat -> (u < cols2 a)%nat ->
  set2 a t u v =
  Ok (mkTensor2 (rows2 a) (cols2 a)
        (fun t' u' => if (t' =? t)%nat && (u' =? u)%nat then v
                      else item2 a t' u')).
Proof.
  intros Ht Hu. unfold set2.
  apply Nat.ltb_lt in Ht. apply Nat.ltb_lt in Hu. now rewrite Ht, Hu.
Qed.

Lemma set2_ok_inv (a a' : Tensor2) (t u : nat) (v : R) :
  set2 a t u v = Ok a' -> (t < rows2 a)%nat /\ (u < cols2 a)%nat.
Proof.
  unfold set2. destruct (t <? rows2 a)%nat eqn:Ht;
    destruct (u <? cols2 a)%nat eqn:Hu; cbn; try discriminate.
  intros _. split; apply Nat.ltb_lt; assumption.
Qed.

Lemma wrap_index_0 (K : nat) : (1 <= K)%nat -> wrap_index K 0 = Ok 0%nat.
Proof.
  intros HK. unfold wrap_index.
  replace (0 <=? 0)%Z with true by reflexivity.
  replace (0 <? Z.of_nat K)%Z with true; [reflexivity |].
  symmetry. apply Z.ltb_lt. lia.
Qed.

Lemma wrap_index_in (K : nat) (y : Z) :
  (- Z.of_nat K <= y < Z.of_nat K)%Z ->
  exists k, wrap_index K y = Ok k /\ (k < K)%nat.
Proof.
  intros Hy. unfold wrap_index.
  destruct (0 <=? y)%Z eqn:H0.
  - replace (y <? Z.of_nat K)%Z with true
      by (symmetry; apply Z.ltb_lt; lia).
    cbn. exists (Z.to_nat y). split; [reflexivity |].
    apply Z.leb_le in H0. lia.
  - apply Z.leb_gt in H0. cbn.
    replace (- Z.of_nat K <=? y)%Z with true
      by (symmetry; apply Z.leb_le; lia).
    replace (y <? 0)%Z with true by (symmetry; apply Z.ltb_lt; lia).
    cbn. exists (Z.to_nat (y + Z.of_nat K)). split; [reflexivity | lia].
Qed.

Lemma wrap_index_ok_inv (K : nat) (y : Z) (k : nat) :
  wrap_index K y = Ok k ->
  (- Z.of_nat K <= y < Z.of_nat K)%Z /\ (k < K)%nat.
Proof.
  unfold wrap_index.
  destruct (0 <=? y)%Z eqn:H0; destruct (y <? Z.of_nat K)%Z eqn:H1; cbn.
  - intros [= <-]. apply Z.leb_le in H0. apply Z.ltb_lt in H1. lia.
  - apply Z.leb_le in H0. apply Z.ltb_ge in H1.
    replace (y <? 0)%Z with false by (symmetry; apply Z.ltb_ge; lia).
    rewrite andb_false_r. discriminate.
  - apply Z.leb_gt in H0.
    replace (y <? 0)%Z with true by (symmetry; apply Z.ltb_lt; lia).
    rewrite andb_true_r.
    destruct (- Z.of_nat K <=? y)%Z eqn:H2; [| discriminate].
    intros [= <-]. apply Z.leb_le in H2. lia.
  - apply Z.leb_gt in H0. apply Z.ltb_ge in H1. lia.
Qed.

Lemma get3_blank (J : Tensor3) (t u : nat) :
  (t < dim0 J)%nat -> (u < dim1 J)%nat -> (1 <= dim2 J)%nat ->
  get3 J t u 0 = Ok (blank_at J t u).
Proof.
  intros Ht Hu HK. unfold get3.
  apply Nat.ltb_lt in Ht. apply Nat.ltb_lt in Hu. rewrite Ht, Hu. cbn.
  now rewrite (wrap_index_0 _ HK).
Qed.

Lemma get3_symbol (J : Tensor3) (targets : list Z) (t u : nat) (y : Z) :
  (t < dim0 J)%nat -> (u < dim1 J)%nat ->
  nth_error targets u = Some y ->
  (- Z.of_nat (dim2 J) <= y < Z.of_nat (dim2 J))%Z ->
  index1 targets u = Ok y /\ get3 J t u y = Ok (symbol_at J targets t u).
Proof.
  intros Ht Hu Hy Hin. split.
  - unfold index1. now rewrite Hy.
  - unfold get3, symbol_at, label_index.
    apply Nat.ltb_lt in Ht. apply Nat.ltb_lt in Hu. rewrite Ht, Hu, Hy. cbn.
    destruct (wrap_index_in _ _ Hin) as [k [Hk _]]. now rewrite Hk.
Qed.

(** ** The recurrence *)

Section RecurrenceFacts.

Variable blank symbol : nat -> nat -> R.
Let alpha := alpha_rec blank symbol.

Lemma alpha_rec_00 : alpha 0%nat 0%nat = 1.
Proof. reflexivity. Qed.

Lemma alpha_rec_0S (u : nat) :
  alpha 0%nat (S u) = alpha 0%nat u * symbol 0%nat u.
Proof. reflexivity. Qed.

Lemma alpha_rec_S0 (t : nat) :
  alpha (S t) 0%nat = alpha t 0%nat * blank t 0%nat.
Proof. reflexivity. Qed.

Lemma alpha_rec_SS (t u : nat) :
  alpha (S t) (S u) =
  alpha t (S u) * blank t (S u) + alpha (S t) u * symbol (S t) u.
Proof. reflexivity. Qed.

End RecurrenceFacts.

(** ** The table of transducer_forward_score1 *)

Lemma filled_next_row (f : nat -> nat -> R) (T U t : nat) (a : Tensor2) :
  filled f T U t U a -> filled f T U (S t) 0 a.
Proof.
  intros [Hr [Hc Hf]]. repeat split; try assumption.
  intros t' u' Hu' Hlt. apply Hf; [exact Hu' |].
  destruct (Nat.eq_dec t' t); [right | left]; lia.
Qed.

Lemma filled_set2 (f : nat -> nat -> R) (T U t u : nat) (a : Tensor2) (v : R) :
  filled f T U t u a -> (t < T)%nat -> (u < U)%nat -> v = f t u ->
  exists a', set2 a t u v = Ok a' /\ filled f T U t (S u) a'.
Proof.
  intros [Hr [Hc Hf]] Ht Hu Hv.
  eexists. split; [apply set2_ok; lia |].
  repeat split; cbn [rows2 cols2 item2]; try assumption.
  intros t' u' Hu' Hlt.
  destruct (Nat.eqb_spec t' t) as [-> | Hne];
    destruct (Nat.eqb_spec u' u) as [-> | Hne']; cbn [andb];
    try exact Hv; apply Hf; try assumption; lia.
Qed.

Section Score1Table.

Variable J : Tensor3.
Variable T U : nat.
Variable targets : list Z.

Hypothesis J_dim0 : dim0 J = T.
Hypothesis J_dim1 : dim1 J = U.
Hypothesis J_dim2 : (1 <= dim2 J)%nat.
Hypothesis T_pos : (1 <= T)%nat.
Hypothesis U_pos : (1 <= U)%nat.
Hypothesis readable : targets_readable (dim2 J) U targets.

Let f := alpha_rec (blank_at J) (symbol_at J targets).

Lemma read_symbol (t u : nat) :
  (t < T)%nat -> (u + 1 < U)%nat ->
  exists y, index1 targets u = Ok y
            /\ get3 J t u y = Ok (symbol_at J targets t u).
Proof.
  intros Ht Hu. destruct (readable u Hu) as [y [Hy Hin]].
  exists y. apply get3_symbol; try assumption; lia.
Qed.

Lemma score1_row0 :
  exists a,
    for_range (range 1 U) (fun u alpha =>
      y <- index1 targets (u - 1) ;;
      prev_symbol_prob <- get3 J 0 (u - 1) y ;;
      a <- get2 alpha 0 (u - 1) ;;
      set2 alpha 0 u (a * prev_symbol_prob))
      (mkTensor2 T U (fun t' u' =>
         if (t' =? 0)%nat && (u' =? 0)%nat then 1 else 0)) = Ok a
    /\ filled f T U 0 U a.
Proof.
  apply (for_range_inv (fun u a => filled f T U 0 u a)); [lia | |].
  - repeat split. intros t' u' _ [Hlt | [-> Hlt]]; [lia |].
    assert (u' = 0%nat) as -> by lia. reflexivity.
  - intros u a Hu Ha.
    destruct (read_symbol 0 (u - 1)) as [y [Hy Hg]]; [lia | lia |].
    rewrite (bind_ok _ _ _ Hy), (bind_ok _ _ _ Hg).
    destruct Ha as [Hr [Hc Hf]].
    rewrite (bind_ok _ _ _ (get2_ok a 0 (u - 1) ltac:(lia) ltac:(lia))).
    apply filled_set2; [repeat split; assumption | lia | lia |].
    rewrite Hf by lia. unfold f.
    replace u with (S (u - 1)) at 3 by lia. reflexivity.
Qed.

Lemma score1_inner (t : nat) (a0 : Tensor2) :
  (1 <= t < T)%nat -> filled f T U t 1 a0 ->
  exists a,
    for_range (range 1 U) (fun u alpha =>
      prev_blank_prob <- get3 J (t - 1) u 0 ;;
      y <- index1 targets (u - 1) ;;
      prev_symbol_prob <- get3 J t (u - 1) y ;;
      a_up <- get2 alpha (t - 1) u ;;
      a_left <- get2 alpha t (u - 1) ;;
      set2 alpha t u (a_up * prev_blank_prob + a_left * prev_symbol_prob))
      a0 = Ok a
    /\ filled f T U t U a.
Proof.
  intros Ht H0.
  apply (for_range_inv (fun u a => filled f T U t u a)); [lia | exact H0 |].
  intros u a Hu Ha.
  rewrite (bind_ok _ _ _ (get3_blank J (t - 1) u ltac:(lia) ltac:(lia) J_dim2)).
  destruct (read_symbol t (u - 1)) as [y [Hy Hg]]; [lia | lia |].
  rewrite (bind_ok _ _ _ Hy), (bind_ok _ _ _ Hg).
  destruct Ha as [Hr [Hc Hf]].
  rewrite (bind_ok _ _ _ (get2_ok a (t - 1) u ltac:(lia) ltac:(lia))).
  rewrite (bind_ok _ _ _ (get2_ok a t (u - 1) ltac:(lia) ltac:(lia))).
  apply filled_set2; [repeat split; assumption | lia | lia |].
  rewrite !Hf by lia. unfold f.
  replace t with (S (t - 1)) at 3 4 5 by lia.
  replace u with (S (u - 1)) at 1 2 5 by lia.
  rewrite alpha_rec_SS.
  replace (S (t - 1)) with t by lia. replace (S (u - 1)) with u by lia.
  reflexivity.
Qed.

(** The nested loops run to completion and leave the recurrence's values
    in every cell. *)
Lemma alpha_table1_filled :
  exists a, alpha_table1 J T U targets = Ok a /\ filled f T U T 0 a.
Proof.
  unfold alpha_table1.
  rewrite (bind_ok _ _ _ (set2_ok (new_zeros T U) 0 0 1
             ltac:(cbn; lia) ltac:(cbn; lia))).
  cbn [new_zeros new_full rows2 cols2 item2].
  destruct score1_row0 as [a0 [Hrun0 Hfill0]].
  rewrite (bind_ok _ _ _ Hrun0).
  apply (for_range_inv (fun t a => filled f T U t 0 a)); [lia | |].
  - apply filled_next_row. exact Hfill0.
  - intros t a Ht Ha. cbv zeta.
    rewrite (bind_ok _ _ _ (get3_blank J (t - 1) 0 ltac:(lia) ltac:(lia) J_dim2)).
    pose proof Ha as [Hr [Hc Hf]].
    rewrite (bind_ok _ _ _ (get2_ok a (t - 1) 0 ltac:(lia) ltac:(lia))).
    destruct (filled_set2 f T U t 0 a
                (item2 a (t - 1)%nat 0%nat * blank_at J (t - 1) 0))
      as [a1 [Hset Ha1]]; [exact Ha | lia | lia | |].
    + rewrite Hf by lia. unfold f.
      replace t with (S (t - 1)) at 3 by lia. reflexivity.
    + rewrite (bind_ok _ _ _ Hset).
      destruct (score1_inner t a1 ltac:(lia) Ha1) as [a2 [Hrun Ha2]].
      exists a2. split; [exact Hrun | apply filled_next_row; exact Ha2].
Qed.

End Score1Table.

(** ** The joint lattice *)

Lemma sum_upto_ext (f g : nat -> R) (n : nat) :
  (forall j, (j < n)%nat -> f j = g j) -> sum_upto f n = sum_upto g n.
Proof.
  induction n as [|n IH]; intros H; [reflexivity |].
  cbn. rewrite IH by (intros j Hj; apply H; lia).
  rewrite (H n) by lia. reflexivity.
Qed.

Lemma sum_upto_nonneg (f : nat -> R) (n : nat) :
  (forall j, (j < n)%nat -> 0 <= f j) -> 0 <= sum_upto f n.
Proof.
  induction n as [|n IH]; intros H; cbn; [lra |].
  pose proof (H n ltac:(lia)). pose proof (IH ltac:(intros; apply H; lia)). lra.
Qed.

Lemma sum_exp_pos (g : nat -> R) (n : nat) :
  (1 <= n)%nat -> 0 < sum_upto (fun j => exp (g j)) n.
Proof.
  intros Hn. destruct n as [|n]; [lia |]. cbn.
  pose proof (exp_pos (g n)).
  pose proof (sum_upto_nonneg (fun j => exp (g j)) n
                ltac:(intros; left; apply exp_pos)). lra.
Qed.

Lemma sum_upto_scale (f : nat -> R) (c : R) (n : nat) :
  sum_upto (fun j => f j * c) n = sum_upto f n * c.
Proof. induction n as [|n IH]; cbn; [lra | rewrite IH; lra]. Qed.

Lemma bidx_same (K k : nat) : (k < K)%nat -> bidx K k = k.
Proof.
  intros Hk. unfold bidx. destruct (Nat.eqb_spec K 1); [lia | reflexivity].
Qed.

Lemma broadcast_dim_same (K : nat) : broadcast_dim K K = Some K.
Proof. unfold broadcast_dim. now rewrite Nat.eqb_refl. Qed.

Lemma broadcast_add_same (x y : Tensor2) :
  cols2 y = cols2 x ->
  exists z, broadcast_add x y = Ok z
    /\ dim0 z = rows2 x /\ dim1 z = rows2 y /\ dim2 z = cols2 x
    /\ forall t u k, (k < cols2 x)%nat ->
         item3 z t u k = item2 x t k + item2 y u k.
Proof.
  intros HK. unfold broadcast_add. rewrite HK, broadcast_dim_same.
  eexists. split; [reflexivity |]. cbn. repeat split.
  intros t u k Hk. now rewrite bidx_same.
Qed.

(** A softmax row is positive and sums to one; it is the exponential of
    the log-softmax row. *)
Lemma softmax_pos (z : Tensor3) (t u k : nat) :
  (1 <= dim2 z)%nat -> 0 < item3 (softmax z) t u k.
Proof.
  intros HK. cbn. apply Rdiv_lt_0_compat; [apply exp_pos |].
  now apply sum_exp_pos.
Qed.

Lemma softmax_row_sum (z : Tensor3) (t u : nat) :
  (1 <= dim2 z)%nat ->
  sum_upto (item3 (softmax z) t u) (dim2 z) = 1.
Proof.
  intros HK. cbn. unfold Rdiv. rewrite sum_upto_scale.
  apply Rinv_r. pose proof (sum_exp_pos (item3 z t u) _ HK). lra.
Qed.

Lemma softmax_exp_log (z : Tensor3) (t u k : nat) :
  (1 <= dim2 z)%nat ->
  item3 (softmax z) t u k = exp (item3 (log_softmax z) t u k).
Proof.
  intros HK. cbn. unfold Rminus. rewrite exp_plus, exp_Ropp.
  rewrite exp_ln by now apply sum_exp_pos. reflexivity.
Qed.

Lemma joint_same (x y : Tensor2) :
  cols2 y = cols2 x ->
  exists z, broadcast_add x y = Ok z
    /\ joint_probs x y = Ok (softmax z) /\ joint_log x y = Ok (log_softmax z)
    /\ dim0 z = rows2 x /\ dim1 z = rows2 y /\ dim2 z = cols2 x.
Proof.
  intros HK. destruct (broadcast_add_same x y HK) as [z [Hz [H0 [H1 [H2 _]]]]].
  exists z. unfold joint_probs, joint_log. rewrite Hz. cbn [bind].
  repeat split; assumption || reflexivity.
Qed.

(** C6: with matching K both joint lattices are built, have shape
    (T, U, K), and their entry (t, u, k) is the softmax, respectively the
    log-softmax, over the K axis of [transcription[t] + prediction[u]]
    taken at k.  The lattice is a function of the two score matrices
    alone; the forward-score functions bind it once and only read it. *)
Theorem joint_lattice_entries (transcription_probs prediction_probs : Tensor2) :
  cols2 prediction_probs = cols2 transcription_probs ->
  let K := cols2 transcription_probs in
  let z t u k := item2 transcription_probs t k + item2 prediction_probs u k in
  exists P L,
    joint_probs transcription_probs prediction_probs = Ok P
    /\ joint_log transcription_probs prediction_probs = Ok L
    /\ (dim0 P, dim1 P, dim2 P)
       = (rows2 transcription_probs, rows2 prediction_probs, K)
    /\ (dim0 L, dim1 L, dim2 L)
       = (rows2 transcription_probs, rows2 prediction_probs, K)
    /\ forall t u k,
         (t < rows2 transcription_probs)%nat ->
         (u < rows2 prediction_probs)%nat -> (k < K)%nat ->
         item3 P t u k
         = exp (z t u k) / sum_upto (fun j => exp (z t u j)) K
         /\ item3 L t u k
            = z t u k - ln (sum_upto (fun j => exp (z t u j)) K).
Proof.
  intros HK K z.
  destruct (broadcast_add_same _ _ HK) as [s [Hs [H0 [H1 [H2 Hitem]]]]].
  exists (softmax s), (log_softmax s).
  unfold joint_probs, joint_log. rewrite Hs. cbn [bind].
  split; [reflexivity |]. split; [reflexivity |].
  split; [cbn; unfold K; congruence |].
  split; [cbn; unfold K; congruence |].
  intros t u k Ht Hu Hk. cbn. rewrite H2, Hitem by assumption.
  assert (Hsum : sum_upto (fun j => exp (item3 s t u j))
                   (cols2 transcription_probs)
                 = sum_upto (fun j => exp (z t u j)) K).
  { apply sum_upto_ext. intros j Hj. now rewrite Hitem. }
  rewrite Hsum. split; reflexivity.
Qed.

Lemma joint_probs_dims (x y : Tensor2) (J : Tensor3) :
  joint_probs x y = Ok J -> dim0 J = rows2 x /\ dim1 J = rows2 y.
Proof.
  unfold joint_probs, broadcast_add.
  destruct (broadcast_dim (cols2 x) (cols2 y)); cbn; [| discriminate].
  intros [= <-]. split; reflexivity.
Qed.

Lemma joint_log_dims (x y : Tensor2) (J : Tensor3) :
  joint_log x y = Ok J -> dim0 J = rows2 x /\ dim1 J = rows2 y.
Proof.
  unfold joint_log, broadcast_add.
  destruct (broadcast_dim (cols2 x) (cols2 y)); cbn; [| discriminate].
  intros [= <-]. split; reflexivity.
Qed.

(** ** transducer_forward_score1 returns the recurrence's value *)

Lemma score1_with_joint (transcription_probs prediction_probs : Tensor2)
  (targets : list Z) (J : Tensor3) :
  let T := rows2 transcription_probs in
  let U := rows2 prediction_probs in
  let f := alpha_rec (blank_at J) (symbol_at J targets) in
  joint_probs transcription_probs prediction_probs = Ok J ->
  (1 <= dim2 J)%nat -> (1 <= T)%nat -> (1 <= U)%nat ->
  targets_readable (dim2 J) U targets ->
  exists a,
    alpha_table1 J T U targets = Ok a
    /\ filled f T U T 0 a
    /\ transducer_forward_score1 transcription_probs prediction_probs targets
       = Ok (f (T - 1)%nat (U - 1)%nat * blank_at J (T - 1) (U - 1)).
Proof.
  intros T U f HJ HK HT HU Hread.
  destruct (joint_probs_dims _ _ _ HJ) as [H0 H1].
  destruct (alpha_table1_filled J T U targets H0 H1 HK HT HU Hread)
    as [a [Ha Hfill]].
  exists a. split; [exact Ha |]. split; [exact Hfill |].
  unfold transducer_forward_score1. rewrite HJ. cbn [bind].
  fold T U. rewrite Ha. cbn [bind].
  destruct Hfill as [Hr [Hc Hf]].
  rewrite (bind_ok _ _ _ (get2_ok a (T - 1) (U - 1) ltac:(lia) ltac:(lia))).
  rewrite (bind_ok _ _ _ (get3_blank J (T - 1) (U - 1)
                            ltac:(lia) ltac:(lia) HK)).
  rewrite Hf by lia. reflexivity.
Qed.

(** ** Lists as tables of functions *)

Lemma nth_map_seq (h : nat -> R) (k n i : nat) :
  (i < n)%nat -> nth i (map h (seq k n)) 0 = h (k + i)%nat.
Proof.
  intros Hi.
  rewrite (nth_indep _ 0 (h 0%nat)) by (rewrite length_map, length_seq; lia).
  rewrite map_nth, seq_nth by lia. reflexivity.
Qed.

Lemma removelast_map_seq (h : nat -> R) (k n : nat) :
  removelast (map h (seq k (S n))) = map h (seq k n).
Proof.
  rewrite seq_S, map_app. cbn [map]. apply removelast_last.
Qed.

Lemma map2_map_seq (f : R -> R -> R) (g h : nat -> R) (n k : nat) :
  map2 f (map g (seq k n)) (map h (seq k n))
  = map (fun i => f (g i) (h i)) (seq k n).
Proof.
  revert k. induction n as [|n IH]; intros k; [reflexivity |].
  cbn. now rewrite IH.
Qed.

Lemma cum_from_map_seq (f : R -> R -> R) (g h : nat -> R) :
  forall n k acc,
    acc = h k ->
    (forall i, (k <= i < k + n)%nat -> h (S i) = f (h i) (g i)) ->
    cum_from f acc (map g (seq k n)) = map h (seq (S k) n).
Proof.
  induction n as [|n IH]; intros k acc Hacc Hstep; [reflexivity |].
  cbn [seq map cum_from]. cbv zeta. subst acc.
  rewrite <- (Hstep k) by lia. f_equal.
  apply IH; [reflexivity |]. intros i Hi. apply Hstep. lia.
Qed.

Lemma scan_from_map_seq (g b h : nat -> R) :
  forall n k x,
    x = h k ->
    (forall i, (k <= i < k + n)%nat -> h (S i) = g i * h i + b (S i)) ->
    Scan.scan_from x (map g (seq k n)) (map b (seq (S k) n))
    = map h (seq (S k) n).
Proof.
  induction n as [|n IH]; intros k x Hx Hstep; [reflexivity |].
  cbn [seq map Scan.scan_from]. cbv zeta. subst x.
  rewrite <- (Hstep k) by lia. f_equal.
  apply IH; [reflexivity |]. intros i Hi. apply Hstep. lia.
Qed.

Lemma scan_log_from_map_seq (g b h : nat -> R) :
  forall n k x,
    x = h k ->
    (forall i, (k <= i < k + n)%nat ->
       h (S i) = Scan.logaddexp (g i + h i) (b (S i))) ->
    Scan.scan_log_from x (map g (seq k n)) (map b (seq (S k) n))
    = map h (seq (S k) n).
Proof.
  induction n as [|n IH]; intros k x Hx Hstep; [reflexivity |].
  cbn [seq map Scan.scan_log_from]. cbv zeta. subst x.
  rewrite <- (Hstep k) by lia. f_equal.
  apply IH; [reflexivity |]. intros i Hi. apply Hstep. lia.
Qed.

Lemma seq_0_pos (n : nat) : (1 <= n)%nat -> seq 0 n = 0%nat :: seq 1 (n - 1).
Proof. intros Hn. replace n with (S (n - 1)) at 1 by lia. reflexivity. Qed.

Lemma shift_map_seq (h : nat -> R) (one : R) (n : nat) :
  (1 <= n)%nat ->
  one :: removelast (map h (seq 0 n)) = one :: map h (seq 0 (n - 1)).
Proof.
  intros Hn. replace n with (S (n - 1)) at 1 by lia.
  now rewrite removelast_map_seq.
Qed.

(** ** Row and column reads and writes *)

Lemma slice3_ok (J : Tensor3) (t : nat) :
  (t < dim0 J)%nat ->
  slice3 J t = Ok (mkTensor2 (dim1 J) (dim2 J) (item3 J t)).
Proof. intros Ht. unfold slice3. apply Nat.ltb_lt in Ht. now rewrite Ht. Qed.

Lemma slice_u_blank (J : Tensor3) (t : nat) :
  (t < dim0 J)%nat -> (1 <= dim2 J)%nat ->
  slice_u J t 0 = Ok (map (blank_at J t) (seq 0 (dim1 J))).
Proof.
  intros Ht HK. unfold slice_u. apply Nat.ltb_lt in Ht. rewrite Ht.
  now rewrite (wrap_index_0 _ HK).
Qed.

Lemma slice_t_blank (J : Tensor3) (u : nat) :
  (u < dim1 J)%nat -> (1 <= dim2 J)%nat ->
  slice_t J u 0 = Ok (map (fun t => blank_at J t u) (seq 0 (dim0 J))).
Proof.
  intros Hu HK. unfold slice_t. apply Nat.ltb_lt in Hu. rewrite Hu.
  now rewrite (wrap_index_0 _ HK).
Qed.

Lemma slice_t_symbol (J : Tensor3) (targets : list Z) (u : nat) (y : Z) :
  (u < dim1 J)%nat ->
  nth_error targets u = Some y ->
  (- Z.of_nat (dim2 J) <= y < Z.of_nat (dim2 J))%Z ->
  slice_t J u y
  = Ok (map (fun t => symbol_at J targets t u) (seq 0 (dim0 J))).
Proof.
  intros Hu Hy Hin. unfold slice_t, symbol_at, label_index.
  apply Nat.ltb_lt in Hu. rewrite Hu, Hy.
  destruct (wrap_index_in _ _ Hin) as [k [Hk _]]. now rewrite Hk.
Qed.

Lemma get_row_ok (a : Tensor2) (t : nat) :
  (t < rows2 a)%nat -> get_row a t = Ok (map (item2 a t) (seq 0 (cols2 a))).
Proof. intros Ht. unfold get_row. apply Nat.ltb_lt in Ht. now rewrite Ht. Qed.

Lemma get_col_ok (a : Tensor2) (u : nat) :
  (u < cols2 a)%nat ->
  get_col a u = Ok (map (fun t => item2 a t u) (seq 0 (rows2 a))).
Proof. intros Hu. unfold get_col. apply Nat.ltb_lt in Hu. now rewrite Hu. Qed.

Lemma set_row_ok (a : Tensor2) (t : nat) (v : list R) :
  (t < rows2 a)%nat -> length v = cols2 a ->
  set_row a t v
  = Ok (mkTensor2 (rows2 a) (cols2 a)
          (fun t' u' => if (t' =? t)%nat then nth u' v 0 else item2 a t' u')).
Proof.
  intros Ht Hv. unfold set_row. apply Nat.ltb_lt in Ht.
  apply Nat.eqb_eq in Hv. now rewrite Ht, Hv.
Qed.

Lemma set_col_ok (a : Tensor2) (u : nat) (v : list R) :
  (u < cols2 a)%nat -> length v = rows2 a ->
  set_col a u v
  = Ok (mkTensor2 (rows2 a) (cols2 a)
          (fun t' u' => if (u' =? u)%nat then nth t' v 0 else item2 a t' u')).
Proof.
  intros Hu Hv. unfold set_col. apply Nat.ltb_lt in Hu.
  apply Nat.eqb_eq in Hv. now rewrite Hu, Hv.
Qed.

(** Writing the recurrence's row [t] keeps the row-major invariant. *)
Lemma filled_set_row (f : nat -> nat -> R) (T U t : nat) (a : Tensor2) :
  filled f T U t 0 a -> (t < T)%nat ->
  exists a', set_row a t (map (f t) (seq 0 U)) = Ok a'
             /\ filled f T U (S t) 0 a'.
Proof.
  intros [Hr [Hc Hf]] Ht.
  eexists. split.
  - apply set_row_ok; [lia |]. now rewrite length_map, length_seq.
  - repeat split; cbn [rows2 cols2 item2]; try assumption.
    intros t' u' Hu' Hlt. destruct (Nat.eqb_spec t' t) as [-> | Hne].
    + now rewrite nth_map_seq.
    + apply Hf; [exact Hu' | lia].
Qed.

(** ** Gathering the labels' probabilities *)

Lemma label_index_valid (K : nat) (targets : list Z) (u : nat) (y : Z) :
  nth_error targets u = Some y -> (0 <= y < Z.of_nat K)%Z ->
  label_index K targets u = Z.to_nat y.
Proof.
  intros Hy Hin. unfold label_index, wrap_index. rewrite Hy.
  replace (0 <=? y)%Z with true by (symmetry; apply Z.leb_le; lia).
  replace (y <? Z.of_nat K)%Z with true by (symmetry; apply Z.ltb_lt; lia).
  reflexivity.
Qed.

Lemma gather_from_valid (m : Tensor2) (targets : list Z) :
  forall l2 l1,
    targets = l1 ++ l2 ->
    Forall (fun y => (0 <= y < Z.of_nat (cols2 m))%Z) l2 ->
    gather_from m (length l1) l2
    = Ok (map (fun u => item2 m u (label_index (cols2 m) targets u))
            (seq (length l1) (length l2))).
Proof.
  induction l2 as [|y l2 IH]; intros l1 Heq Hall; [reflexivity |].
  inversion Hall as [|? ? Hy Hall']; subst.
  cbn [gather_from length seq map].
  replace (0 <=? y)%Z with true by (symmetry; apply Z.leb_le; lia).
  replace (y <? Z.of_nat (cols2 m))%Z with true
    by (symmetry; apply Z.ltb_lt; lia).
  cbn [andb].
  specialize (IH (l1 ++ [y])). rewrite length_app in IH. cbn [length] in IH.
  replace (length l1 + 1)%nat with (S (length l1)) in IH by lia.
  rewrite IH; [| now rewrite <- app_assoc | exact Hall'].
  cbn [bind]. do 2 f_equal.
  rewrite (label_index_valid _ _ _ y); [reflexivity | | exact Hy].
  rewrite nth_error_app2, Nat.sub_diag by lia. reflexivity.
Qed.

Lemma gather_row_valid (J : Tensor3) (targets : list Z) (t : nat) :
  valid_targets (dim2 J) (dim1 J) targets ->
  gather_last (mkTensor2 (dim1 J) (dim2 J) (item3 J t)) targets
  = Ok (map (symbol_at J targets t) (seq 0 (dim1 J))).
Proof.
  intros [Hlen Hall]. unfold gather_last. cbn [rows2].
  rewrite Hlen, Nat.leb_refl.
  rewrite (gather_from_valid _ targets targets []); [| reflexivity | exact Hall].
  cbn [length cols2 item2]. rewrite Hlen. reflexivity.
Qed.

Lemma valid_targets_readable (K U : nat) (targets : list Z) :
  valid_targets K U targets -> targets_readable K U targets.
Proof.
  intros [Hlen Hall] u Hu.
  destruct (nth_error targets u) as [y|] eqn:Hy.
  - exists y. split; [reflexivity |].
    rewrite Forall_forall in Hall.
    pose proof (Hall y (nth_error_In _ _ Hy)). lia.
  - apply nth_error_None in Hy. lia.
Qed.

(** ** The table of transducer_forward_score2 *)

Section Score2Table.

Variable J : Tensor3.
Variable T U : nat.
Variable targets : list Z.

Hypothesis J_dim0 : dim0 J = T.
Hypothesis J_dim1 : dim1 J = U.
Hypothesis J_dim2 : (1 <= dim2 J)%nat.
Hypothesis T_pos : (1 <= T)%nat.
Hypothesis U_pos : (1 <= U)%nat.
Hypothesis valid : valid_targets (dim2 J) U targets.

Let f := alpha_rec (blank_at J) (symbol_at J targets).

Lemma score2_row0 :
  cumprod (1 :: map (symbol_at J targets 0) (seq 0 (U - 1)))
  = map (f 0%nat) (seq 0 U).
Proof.
  unfold cumprod. cbn [cum_from]. cbv zeta.
  rewrite (cum_from_map_seq Rmult _ (f 0%nat)).
  - rewrite (seq_0_pos U U_pos). cbn [map]. f_equal. unfold f. cbn. lra.
  - unfold f. cbn. lra.
  - intros i _. reflexivity.
Qed.

Lemma score2_row (t : nat) :
  Scan.scanrec (1 :: map (symbol_at J targets (S t)) (seq 0 (U - 1)))
    (map (fun u => f t u * blank_at J t u) (seq 0 U))
  = map (f (S t)) (seq 0 U).
Proof.
  rewrite (seq_0_pos U U_pos). unfold Scan.scanrec. cbn [map Scan.scan_from]. cbv zeta.
  rewrite (scan_from_map_seq _ _ (f (S t))).
  - f_equal. unfold f. rewrite alpha_rec_S0. lra.
  - unfold f. rewrite alpha_rec_S0. lra.
  - intros i _. unfold f. rewrite alpha_rec_SS. lra.
Qed.

Lemma alpha_table2_filled :
  exists a, alpha_table2 Scan.scanrec J T U targets = Ok a
            /\ filled f T U T 0 a.
Proof.
  unfold alpha_table2.
  rewrite (bind_ok _ _ _ (slice3_ok J 0 ltac:(lia))).
  assert (valid' : valid_targets (dim2 J) (dim1 J) targets)
    by (rewrite J_dim1; exact valid).
  rewrite (bind_ok _ _ _ (gather_row_valid J targets 0 valid')).
  rewrite J_dim1, (shift_map_seq _ _ U U_pos), score2_row0.
  destruct (filled_set_row f T U 0 (new_zeros T U)) as [a0 [Hset Ha0]];
    [repeat split; intros; lia | lia |].
  rewrite (bind_ok _ _ _ Hset).
  apply (for_range_inv (fun t a => filled f T U t 0 a)); [lia | exact Ha0 |].
  intros t a Ht Ha. pose proof Ha as [Hr [Hc Hf]].
  rewrite (bind_ok _ _ _ (get_row_ok a (t - 1) ltac:(lia))).
  rewrite (bind_ok _ _ _ (slice_u_blank J (t - 1) ltac:(lia) J_dim2)).
  rewrite (bind_ok _ _ _ (slice3_ok J t ltac:(lia))).
  rewrite (bind_ok _ _ _ (gather_row_valid J targets t valid')).
  rewrite Hc, !J_dim1, (shift_map_seq _ _ U U_pos), map2_map_seq.
  assert (Hprev : map (fun i => item2 a (t - 1)%nat i * blank_at J (t - 1) i)
                    (seq 0 U)
                  = map (fun u => f (t - 1)%nat u * blank_at J (t - 1) u)
                      (seq 0 U)).
  { apply map_ext_in. intros u Hu. apply in_seq in Hu.
    rewrite Hf by lia. reflexivity. }
  rewrite Hprev. destruct t as [|t]; [lia |].
  replace (S t - 1)%nat with t by lia.
  rewrite score2_row. apply filled_set_row; [exact Ha | lia].
Qed.

End Score2Table.

(** ** The tables of the two log-domain traversals *)

Lemma logaddexp_comm (a b : R) : Scan.logaddexp a b = Scan.logaddexp b a.
Proof. unfold Scan.logaddexp. now rewrite Rplus_comm. Qed.

Section LogRecurrenceFacts.

Variable blank symbol : nat -> nat -> R.
Let la := log_alpha_rec blank symbol.

Lemma log_alpha_rec_0S (u : nat) :
  la 0%nat (S u) = la 0%nat u + symbol 0%nat u.
Proof. reflexivity. Qed.

Lemma log_alpha_rec_S0 (t : nat) :
  la (S t) 0%nat = la t 0%nat + blank t 0%nat.
Proof. reflexivity. Qed.

Lemma log_alpha_rec_SS (t u : nat) :
  la (S t) (S u) =
  Scan.logaddexp (la t (S u) + blank t (S u)) (la (S t) u + symbol (S t) u).
Proof. reflexivity. Qed.

End LogRecurrenceFacts.

Lemma filled_cols_set_col (f : nat -> nat -> R) (T U u : nat) (a : Tensor2) :
  filled_cols f T U u a -> (u < U)%nat ->
  exists a', set_col a u (map (fun t => f t u) (seq 0 T)) = Ok a'
             /\ filled_cols f T U (S u) a'.
Proof.
  intros [Hr [Hc Hf]] Hu.
  eexists. split.
  - apply set_col_ok; [lia |]. now rewrite length_map, length_seq.
  - repeat split; cbn [rows2 cols2 item2]; try assumption.
    intros t' u' Ht' Hlt. destruct (Nat.eqb_spec u' u) as [-> | Hne].
    + now rewrite nth_map_seq.
    + apply Hf; [exact Ht' | lia].
Qed.

Section LogTables.

Variable J : Tensor3.
Variable T U : nat.
Variable targets : list Z.

Hypothesis J_dim0 : dim0 J = T.
Hypothesis J_dim1 : dim1 J = U.
Hypothesis J_dim2 : (1 <= dim2 J)%nat.
Hypothesis T_pos : (1 <= T)%nat.
Hypothesis U_pos : (1 <= U)%nat.

Let g := log_alpha_rec (blank_at J) (symbol_at J targets).

Lemma score3_row0 :
  cumsum (0 :: map (symbol_at J targets 0) (seq 0 (U - 1)))
  = map (g 0%nat) (seq 0 U).
Proof.
  unfold cumsum. cbn [cum_from]. cbv zeta.
  rewrite (cum_from_map_seq Rplus _ (g 0%nat)).
  - rewrite (seq_0_pos U U_pos). cbn [map]. f_equal. unfold g. cbn. lra.
  - unfold g. cbn. lra.
  - intros i _. reflexivity.
Qed.

Lemma score3_row (t : nat) :
  Scan.scanrec_log (0 :: map (symbol_at J targets (S t)) (seq 0 (U - 1)))
    (map (fun u => g t u + blank_at J t u) (seq 0 U))
  = map (g (S t)) (seq 0 U).
Proof.
  rewrite (seq_0_pos U U_pos). unfold Scan.scanrec_log. cbn [map].
  rewrite (scan_log_from_map_seq _ _ (g (S t))).
  - reflexivity.
  - reflexivity.
  - intros i _. unfold g. rewrite log_alpha_rec_SS.
    rewrite (Rplus_comm (symbol_at J targets (S t) i)).
    apply logaddexp_comm.
Qed.

Lemma score3_table :
  valid_targets (dim2 J) U targets ->
  exists a, log_alpha_table3 Scan.scanrec_log J T U targets = Ok a
            /\ filled g T U T 0 a.
Proof.
  intros valid. unfold log_alpha_table3.
  rewrite (bind_ok _ _ _ (slice3_ok J 0 ltac:(lia))).
  assert (valid' : valid_targets (dim2 J) (dim1 J) targets)
    by (rewrite J_dim1; exact valid).
  rewrite (bind_ok _ _ _ (gather_row_valid J targets 0 valid')).
  rewrite J_dim1, (shift_map_seq _ _ U U_pos), score3_row0.
  destruct (filled_set_row g T U 0 (new_full T U finfo_float_min))
    as [a0 [Hset Ha0]]; [repeat split; intros; lia | lia |].
  rewrite (bind_ok _ _ _ Hset).
  apply (for_range_inv (fun t a => filled g T U t 0 a)); [lia | exact Ha0 |].
  intros t a Ht Ha. pose proof Ha as [Hr [Hc Hf]].
  rewrite (bind_ok _ _ _ (get_row_ok a (t - 1) ltac:(lia))).
  rewrite (bind_ok _ _ _ (slice_u_blank J (t - 1) ltac:(lia) J_dim2)).
  rewrite (bind_ok _ _ _ (slice3_ok J t ltac:(lia))).
  rewrite (bind_ok _ _ _ (gather_row_valid J targets t valid')).
  rewrite Hc, !J_dim1, (shift_map_seq _ _ U U_pos), map2_map_seq.
  assert (Hprev : map (fun i => item2 a (t - 1)%nat i + blank_at J (t - 1) i)
                    (seq 0 U)
                  = map (fun u => g (t - 1)%nat u + blank_at J (t - 1) u)
                      (seq 0 U)).
  { apply map_ext_in. intros u Hu. apply in_seq in Hu.
    rewrite Hf by lia. reflexivity. }
  rewrite Hprev. destruct t as [|t]; [lia |].
  replace (S t - 1)%nat with t by lia.
  rewrite score3_row. apply filled_set_row; [exact Ha | lia].
Qed.

Lemma score3t_col0 :
  cumsum (0 :: map (fun t => blank_at J t 0) (seq 0 (T - 1)))
  = map (fun t => g t 0%nat) (seq 0 T).
Proof.
  unfold cumsum. cbn [cum_from]. cbv zeta.
  rewrite (cum_from_map_seq Rplus _ (fun t => g t 0%nat)).
  - rewrite (seq_0_pos T T_pos). cbn [map]. f_equal. unfold g. cbn. lra.
  - unfold g. cbn. lra.
  - intros i _. reflexivity.
Qed.

Lemma score3t_col (u : nat) :
  Scan.scanrec_log (0 :: map (fun t => blank_at J t (S u)) (seq 0 (T - 1)))
    (map (fun t => g t u + symbol_at J targets t u) (seq 0 T))
  = map (fun t => g t (S u)) (seq 0 T).
Proof.
  rewrite (seq_0_pos T T_pos). unfold Scan.scanrec_log. cbn [map].
  rewrite (scan_log_from_map_seq _ _ (fun t => g t (S u))).
  - reflexivity.
  - reflexivity.
  - intros i _. unfold g. rewrite log_alpha_rec_SS.
    rewrite (Rplus_comm (blank_at J i (S u))). reflexivity.
Qed.

Lemma score3t_table :
  targets_readable (dim2 J) U targets ->
  exists a, log_alpha_table3_transposed Scan.scanrec_log J T U targets = Ok a
            /\ filled_cols g T U U a.
Proof.
  intros readable. unfold log_alpha_table3_transposed.
  rewrite (bind_ok _ _ _ (slice_t_blank J 0 ltac:(lia) J_dim2)).
  rewrite J_dim0, (shift_map_seq _ _ T T_pos), score3t_col0.
  destruct (filled_cols_set_col g T U 0 (new_full T U finfo_float_min))
    as [a0 [Hset Ha0]]; [repeat split; intros; lia | lia |].
  rewrite (bind_ok _ _ _ Hset).
  apply (for_range_inv (fun u a => filled_cols g T U u a));
    [lia | exact Ha0 |].
  intros u a Hu Ha. pose proof Ha as [Hr [Hc Hf]].
  rewrite (bind_ok _ _ _ (get_col_ok a (u - 1) ltac:(lia))).
  destruct (readable (u - 1)%nat ltac:(lia)) as [y [Hy Hin]].
  assert (Hidx : index1 targets (u - 1) = Ok y)
    by (unfold index1; now rewrite Hy).
  rewrite (bind_ok _ _ _ Hidx).
  rewrite (bind_ok _ _ _ (slice_t_symbol J targets (u - 1) y
                            ltac:(lia) Hy Hin)).
  rewrite (bind_ok _ _ _ (slice_t_blank J u ltac:(lia) J_dim2)).
  rewrite Hr, !J_dim0, (shift_map_seq _ _ T T_pos), map2_map_seq.
  assert (Hprev : map (fun i => item2 a i (u - 1)%nat
                                + symbol_at J targets i (u - 1)) (seq 0 T)
                  = map (fun t => g t (u - 1)%nat
                                  + symbol_at J targets t (u - 1)) (seq 0 T)).
  { apply map_ext_in. intros t Ht. apply in_seq in Ht.
    rewrite Hf by lia. reflexivity. }
  rewrite Hprev. destruct u as [|u]; [lia |].
  replace (S u - 1)%nat with u by lia.
  rewrite score3t_col. apply filled_cols_set_col; [exact Ha | lia].
Qed.

End LogTables.

(** ** The values returned on well-formed input *)

Section Values.

Variable transcription_probs prediction_probs : Tensor2.
Variable targets : list Z.
Variable z : Tensor3.

Let T := rows2 transcription_probs.
Let U := rows2 prediction_probs.

Hypothesis Hz : broadcast_add transcription_probs prediction_probs = Ok z.
Hypothesis HT : (1 <= T)%nat.
Hypothesis HU : (1 <= U)%nat.
Hypothesis HK : (1 <= dim2 z)%nat.

Let P := softmax z.
Let L := log_softmax z.
Let f := alpha_rec (blank_at P) (symbol_at P targets).
Let g := log_alpha_rec (blank_at L) (symbol_at L targets).

Lemma sum_dims : dim0 z = T /\ dim1 z = U.
Proof.
  unfold broadcast_add in Hz.
  destruct (broadcast_dim _ _); [| discriminate].
  injection Hz as <-. split; reflexivity.
Qed.

Lemma score1_value :
  targets_readable (dim2 z) U targets ->
  transducer_forward_score1 transcription_probs prediction_probs targets
  = Ok (f (T - 1)%nat (U - 1)%nat * blank_at P (T - 1) (U - 1)).
Proof.
  intros Hread.
  assert (HJ : joint_probs transcription_probs prediction_probs = Ok P)
    by (unfold joint_probs; rewrite Hz; reflexivity).
  destruct (score1_with_joint _ _ targets P HJ HK HT HU Hread)
    as [a [_ [_ Hscore]]].
  exact Hscore.
Qed.

Lemma score2_value :
  valid_targets (dim2 z) U targets ->
  transducer_forward_score2 Scan.scanrec
    transcription_probs prediction_probs targets
  = Ok (f (T - 1)%nat (U - 1)%nat * blank_at P (T - 1) (U - 1)).
Proof.
  intros Hvalid. destruct sum_dims as [H0 H1].
  destruct (alpha_table2_filled P T U targets H0 H1 HK HT HU Hvalid)
    as [a [Ha [Hr [Hc Hf]]]].
  unfold transducer_forward_score2, joint_probs. rewrite Hz. cbn [bind].
  fold T U P. rewrite Ha. cbn [bind].
  rewrite (bind_ok _ _ _ (get2_ok a (T - 1) (U - 1) ltac:(lia) ltac:(lia))).
  rewrite (bind_ok _ _ _ (get3_blank P (T - 1) (U - 1)
                            ltac:(cbn; lia) ltac:(cbn; lia) HK)).
  rewrite Hf by lia. reflexivity.
Qed.

Lemma score3_value :
  valid_targets (dim2 z) U targets ->
  transducer_forward_score3 Scan.scanrec_log
    transcription_probs prediction_probs targets
  = Ok (g (T - 1)%nat (U - 1)%nat + blank_at L (T - 1) (U - 1)).
Proof.
  intros Hvalid. destruct sum_dims as [H0 H1].
  destruct (score3_table L T U targets H0 H1 HK HT HU Hvalid)
    as [a [Ha [Hr [Hc Hf]]]].
  unfold transducer_forward_score3, joint_log. rewrite Hz. cbn [bind].
  fold T U L. rewrite Ha. cbn [bind].
  rewrite (bind_ok _ _ _ (get2_ok a (T - 1) (U - 1) ltac:(lia) ltac:(lia))).
  rewrite (bind_ok _ _ _ (get3_blank L (T - 1) (U - 1)
                            ltac:(cbn; lia) ltac:(cbn; lia) HK)).
  rewrite Hf by lia. reflexivity.
Qed.

Lemma score3_transposed_value :
  targets_readable (dim2 z) U targets ->
  transducer_forward_score3_transposed Scan.scanrec_log
    transcription_probs prediction_probs targets
  = Ok (g (T - 1)%nat (U - 1)%nat + blank_at L (T - 1) (U - 1)).
Proof.
  intros Hread. destruct sum_dims as [H0 H1].
  destruct (score3t_table L T U targets H0 H1 HK HT HU Hread)
    as [a [Ha [Hr [Hc Hf]]]].
  unfold transducer_forward_score3_transposed, joint_log.
  rewrite Hz. cbn [bind].
  fold T U L. rewrite Ha. cbn [bind].
  rewrite (bind_ok _ _ _ (get2_ok a (T - 1) (U - 1) ltac:(lia) ltac:(lia))).
  rewrite (bind_ok _ _ _ (get3_blank L (T - 1) (U - 1)
                            ltac:(cbn; lia) ltac:(cbn; lia) HK)).
  rewrite Hf by lia. reflexivity.
Qed.

End Values.

Lemma valid_input_sum (transcription_probs prediction_probs : Tensor2)
  (targets : list Z) :
  valid_input transcription_probs prediction_probs targets ->
  exists z,
    broadcast_add transcription_probs prediction_probs = Ok z
    /\ (1 <= dim2 z)%nat
    /\ valid_targets (dim2 z) (rows2 prediction_probs) targets.
Proof.
  intros [HT [HU [HK [Hcols Hvalid]]]].
  destruct (broadcast_add_same _ _ Hcols) as [z [Hz [_ [_ [H2 _]]]]].
  exists z. rewrite H2. auto.
Qed.

(** ** Probability domain against log domain *)

Lemma exp_logaddexp (a b : R) : exp (Scan.logaddexp a b) = exp a + exp b.
Proof.
  unfold Scan.logaddexp. apply exp_ln.
  pose proof (exp_pos a). pose proof (exp_pos b). lra.
Qed.

Lemma exp_log_alpha_rec (blank symbol : nat -> nat -> R) (t u : nat) :
  exp (log_alpha_rec blank symbol t u)
  = alpha_rec (fun t u => exp (blank t u)) (fun t u => exp (symbol t u)) t u.
Proof.
  revert u. induction t as [|t IHt]; induction u as [|u IHu].
  - cbn. apply exp_0.
  - rewrite log_alpha_rec_0S, alpha_rec_0S, exp_plus, IHu. reflexivity.
  - rewrite log_alpha_rec_S0, alpha_rec_S0, exp_plus, IHt. reflexivity.
  - rewrite log_alpha_rec_SS, alpha_rec_SS, exp_logaddexp, !exp_plus.
    rewrite IHt, IHu. reflexivity.
Qed.

Lemma alpha_rec_ext (b1 s1 b2 s2 : nat -> nat -> R) :
  (forall t u, b1 t u = b2 t u) -> (forall t u, s1 t u = s2 t u) ->
  forall t u, alpha_rec b1 s1 t u = alpha_rec b2 s2 t u.
Proof.
  intros Hb Hs. induction t as [|t IHt]; induction u as [|u IHu].
  - reflexivity.
  - rewrite !alpha_rec_0S, IHu, Hs. reflexivity.
  - rewrite !alpha_rec_S0, IHt, Hb. reflexivity.
  - rewrite !alpha_rec_SS, IHt, IHu, Hb, Hs. reflexivity.
Qed.

Lemma alpha_softmax_exp_log (z : Tensor3) (targets : list Z) (t u : nat) :
  (1 <= dim2 z)%nat ->
  alpha_rec (blank_at (softmax z)) (symbol_at (softmax z) targets) t u
  = exp (log_alpha_rec (blank_at (log_softmax z))
           (symbol_at (log_softmax z) targets) t u).
Proof.
  intros HK. rewrite exp_log_alpha_rec. apply alpha_rec_ext.
  - intros t' u'. unfold blank_at. now apply softmax_exp_log.
  - intros t' u'. unfold symbol_at. now apply softmax_exp_log.
Qed.

(** C3: on every well-formed input with T >= 1 and U >= 1 the nested-loop
    recurrence transducer_forward_score1 and the scan formulation
    transducer_forward_score2 (over the scan helper [Scan.scanrec]) both
    return, and return the same score. *)
Theorem score1_eq_score2
  (transcription_probs prediction_probs : Tensor2) (targets : list Z) :
  valid_input transcription_probs prediction_probs targets ->
  exists v,
    transducer_forward_score1 transcription_probs prediction_probs targets
    = Ok v
    /\ transducer_forward_score2 Scan.scanrec
         transcription_probs prediction_probs targets = Ok v.
Proof.
  intros Hin. destruct (valid_input_sum _ _ _ Hin) as [z [Hz [HK Hvalid]]].
  destruct Hin as [HT [HU _]].
  eexists. split.
  - apply (score1_value _ _ targets z Hz HT HU HK).
    now apply valid_targets_readable.
  - apply (score2_value _ _ targets z Hz HT HU HK Hvalid).
Qed.

(** C2: on every well-formed input with T >= 1 and U >= 1 the time-major
    traversal transducer_forward_score3 and the label-major traversal
    transducer_forward_score3_transposed (over [Scan.scanrec_log]) both
    return, and return the same log-domain score. *)
Theorem score3_eq_score3_transposed
  (transcription_probs prediction_probs : Tensor2) (targets : list Z) :
  valid_input transcription_probs prediction_probs targets ->
  exists v,
    transducer_forward_score3 Scan.scanrec_log
      transcription_probs prediction_probs targets = Ok v
    /\ transducer_forward_score3_transposed Scan.scanrec_log
         transcription_probs prediction_probs targets = Ok v.
Proof.
  intros Hin. destruct (valid_input_sum _ _ _ Hin) as [z [Hz [HK Hvalid]]].
  destruct Hin as [HT [HU _]].
  eexists. split.
  - apply (score3_value _ _ targets z Hz HT HU HK Hvalid).
  - apply (score3_transposed_value _ _ targets z Hz HT HU HK).
    now apply valid_targets_readable.
Qed.

(** C4: on every well-formed input with T >= 1 and U >= 1 the
    probability-domain score of transducer_forward_score1 is the
    exponential of the log-domain score of transducer_forward_score3. *)
Theorem score1_eq_exp_score3
  (transcription_probs prediction_probs : Tensor2) (targets : list Z) :
  valid_input transcription_probs prediction_probs targets ->
  exists p l,
    transducer_forward_score1 transcription_probs prediction_probs targets
    = Ok p
    /\ transducer_forward_score3 Scan.scanrec_log
         transcription_probs prediction_probs targets = Ok l
    /\ p = exp l.
Proof.
  intros Hin. destruct (valid_input_sum _ _ _ Hin) as [z [Hz [HK Hvalid]]].
  destruct Hin as [HT [HU _]].
  eexists. eexists. split; [| split].
  - apply (score1_value _ _ targets z Hz HT HU HK).
    now apply valid_targets_readable.
  - apply (score3_value _ _ targets z Hz HT HU HK Hvalid).
  - rewrite exp_plus, alpha_softmax_exp_log by exact HK.
    unfold blank_at. now rewrite softmax_exp_log.
Qed.

(** ** Degenerate grids *)

Lemma alpha_rec_col0 (blank symbol : nat -> nat -> R) (t : nat) :
  alpha_rec blank symbol t 0 = prod_upto (fun s => blank s 0%nat) t.
Proof.
  induction t as [|t IH]; [reflexivity |].
  rewrite alpha_rec_S0, IH. reflexivity.
Qed.

Lemma alpha_rec_row0 (blank symbol : nat -> nat -> R) (u : nat) :
  alpha_rec blank symbol 0 u = prod_upto (fun i => symbol 0%nat i) u.
Proof.
  induction u as [|u IH]; [reflexivity |].
  rewrite alpha_rec_0S, IH. reflexivity.
Qed.

Lemma log_alpha_rec_col0 (blank symbol : nat -> nat -> R) (t : nat) :
  log_alpha_rec blank symbol t 0 = sum_upto (fun s => blank s 0%nat) t.
Proof.
  induction t as [|t IH]; [reflexivity |].
  rewrite log_alpha_rec_S0, IH. reflexivity.
Qed.

(** With a single column the label-major traversal never calls the scan
    helper. *)
Lemma score3t_single_column
  (scanrec_log : list R -> list R -> list R)
  (J : Tensor3) (T : nat) (targets : list Z) :
  dim0 J = T -> dim1 J = 1%nat -> (1 <= dim2 J)%nat -> (1 <= T)%nat ->
  exists a,
    log_alpha_table3_transposed scanrec_log J T 1 targets = Ok a
    /\ filled_cols (log_alpha_rec (blank_at J) (symbol_at J targets))
         T 1 1 a.
Proof.
  intros H0 H1 HK HT. unfold log_alpha_table3_transposed.
  rewrite (bind_ok _ _ _ (slice_t_blank J 0 ltac:(lia) HK)).
  rewrite H0, (shift_map_seq _ _ T HT).
  rewrite (score3t_col0 J T targets HT).
  destruct (filled_cols_set_col
              (log_alpha_rec (blank_at J) (symbol_at J targets))
              T 1 0 (new_full T 1 finfo_float_min))
    as [a0 [Hset Ha0]]; [repeat split; intros; lia | lia |].
  rewrite (bind_ok _ _ _ Hset). exists a0. split; [reflexivity | exact Ha0].
Qed.

(** C7: with U = 1 (a single blank column) and any T >= 1,
    transducer_forward_score1 returns the product over t = 0..T-1 of the
    blank probability of the joint lattice at (t, 0); in the log domain
    the label-major traversal returns the sum of the blank
    log-probabilities, whatever the scan helper is.  No label is read. *)
Theorem score_single_column
  (transcription_probs prediction_probs : Tensor2) (targets : list Z) :
  let T := rows2 transcription_probs in
  rows2 prediction_probs = 1%nat ->
  (1 <= T)%nat ->
  (1 <= cols2 transcription_probs)%nat ->
  cols2 prediction_probs = cols2 transcription_probs ->
  exists P L,
    joint_probs transcription_probs prediction_probs = Ok P
    /\ joint_log transcription_probs prediction_probs = Ok L
    /\ transducer_forward_score1 transcription_probs prediction_probs targets
       = Ok (prod_upto (fun t => blank_at P t 0) T)
    /\ forall scanrec_log,
         transducer_forward_score3_transposed scanrec_log
           transcription_probs prediction_probs targets
         = Ok (sum_upto (fun t => blank_at L t 0) T).
Proof.
  intros T HU HT HK Hcols.
  destruct (joint_same _ _ Hcols) as [z [Hz [HP [HL [H0 [H1 H2]]]]]].
  exists (softmax z), (log_softmax z).
  split; [exact HP |]. split; [exact HL |]. split.
  - rewrite (score1_value _ _ targets z Hz); try lia.
    + rewrite HU. cbn [Nat.sub]. rewrite alpha_rec_col0. fold T.
      replace T with (S (T - 1)) at 3 by lia. reflexivity.
    + intros u Hu. lia.
  - intros scanrec_log.
    destruct (score3t_single_column scanrec_log (log_softmax z) T targets)
      as [a [Ha [Hr [Hc Hf]]]]; try (cbn; lia).
    unfold transducer_forward_score3_transposed. rewrite HL. cbn [bind].
    rewrite HU. fold T. rewrite Ha. cbn [bind].
    rewrite (bind_ok _ _ _ (get2_ok a (T - 1) (1 - 1) ltac:(lia) ltac:(lia))).
    rewrite (bind_ok _ _ _ (get3_blank (log_softmax z) (T - 1) (1 - 1)
                              ltac:(cbn; lia) ltac:(cbn; lia)
                              ltac:(cbn; lia))).
    rewrite Hf by lia. cbn [Nat.sub]. rewrite log_alpha_rec_col0.
    replace T with (S (T - 1)) at 3 by lia. reflexivity.
Qed.

(** ** The last entry of targets *)

Lemma bind_ext {A B : Type} (m1 m2 : result A) (k1 k2 : A -> result B) :
  m1 = m2 -> (forall x, k1 x = k2 x) -> bind m1 k1 = bind m2 k2.
Proof. intros -> Hk. destruct m2; cbn; [apply Hk | reflexivity]. Qed.

Lemma for_range_ext_in {S : Type} (body1 body2 : nat -> S -> result S) :
  forall l s,
    (forall i s0, In i l -> body1 i s0 = body2 i s0) ->
    for_range l body1 s = for_range l body2 s.
Proof.
  induction l as [|i l IH]; intros s H; [reflexivity |].
  cbn [for_range]. apply bind_ext.
  - apply H. now left.
  - intros s1. apply IH. intros j s0 Hj. apply H. now right.
Qed.

Lemma index1_app_l (ys l : list Z) (i : nat) :
  (i < length ys)%nat -> index1 (ys ++ l) i = index1 ys i.
Proof. intros Hi. unfold index1. now rewrite nth_error_app1. Qed.

Lemma in_range (a b i : nat) : In i (range a b) -> (a <= i < b)%nat.
Proof. unfold range. rewrite in_seq. lia. Qed.

Lemma gather_from_snoc (m : Tensor2) (a : Z) :
  (0 <= a < Z.of_nat (cols2 m))%Z ->
  forall ys u,
    gather_from m u (ys ++ [a])
    = r <- gather_from m u ys ;;
      Ok (r ++ [item2 m (u + length ys)%nat (Z.to_nat a)]).
Proof.
  intros Ha. induction ys as [|y ys IH]; intros u.
  - cbn [app gather_from length bind].
    replace (0 <=? a)%Z with true by (symmetry; apply Z.leb_le; lia).
    replace (a <? Z.of_nat (cols2 m))%Z with true
      by (symmetry; apply Z.ltb_lt; lia).
    cbn. now rewrite Nat.add_0_r.
  - cbn [app gather_from length].
    destruct ((0 <=? y)%Z && (y <? Z.of_nat (cols2 m))%Z); [| reflexivity].
    rewrite IH. destruct (gather_from m (S u) ys) as [r|e]; cbn [bind app].
    + now rewrite Nat.add_succ_r.
    + reflexivity.
Qed.

(** What follows a gather sees the last gathered entry only through
    [from_bot[:-1]], so the last label does not matter as long as gather
    accepts it. *)
Lemma gather_last_snoc_bind {B : Type} (m : Tensor2) (ys : list Z) (a b : Z)
  (k1 k2 : list R -> result B) :
  (0 <= a < Z.of_nat (cols2 m))%Z -> (0 <= b < Z.of_nat (cols2 m))%Z ->
  (forall r x y, k1 (r ++ [x]) = k2 (r ++ [y])) ->
  bind (gather_last m (ys ++ [a])) k1 = bind (gather_last m (ys ++ [b])) k2.
Proof.
  intros Ha Hb Hk. unfold gather_last. rewrite !length_app. cbn [length].
  destruct (length ys + 1 <=? rows2 m)%nat; [| reflexivity].
  rewrite (gather_from_snoc m a Ha), (gather_from_snoc m b Hb).
  destruct (gather_from m 0 ys) as [r|e]; cbn [bind]; [apply Hk | reflexivity].
Qed.

Lemma alpha_table1_last (J : Tensor3) (T U : nat) (ys : list Z) (a b : Z) :
  (length ys + 1 = U)%nat ->
  alpha_table1 J T U (ys ++ [a]) = alpha_table1 J T U (ys ++ [b]).
Proof.
  intros Hlen. unfold alpha_table1.
  apply bind_ext; [reflexivity | intros a0].
  apply bind_ext.
  - apply for_range_ext_in. intros u s Hu. apply in_range in Hu.
    rewrite !index1_app_l by lia. reflexivity.
  - intros a1. apply for_range_ext_in. intros t s _. cbv zeta.
    apply bind_ext; [reflexivity | intros p].
    apply bind_ext; [reflexivity | intros q].
    apply bind_ext; [reflexivity | intros a2].
    apply for_range_ext_in. intros u s' Hu. apply in_range in Hu.
    rewrite !index1_app_l by lia. reflexivity.
Qed.

Lemma log_alpha_table3_transposed_last
  (scanrec_log : list R -> list R -> list R)
  (J : Tensor3) (T U : nat) (ys : list Z) (a b : Z) :
  (length ys + 1 = U)%nat ->
  log_alpha_table3_transposed scanrec_log J T U (ys ++ [a])
  = log_alpha_table3_transposed scanrec_log J T U (ys ++ [b]).
Proof.
  intros Hlen. unfold log_alpha_table3_transposed.
  apply bind_ext; [reflexivity | intros l0].
  apply bind_ext; [reflexivity | intros a0].
  apply for_range_ext_in. intros u s Hu. apply in_range in Hu.
  rewrite !index1_app_l by lia. reflexivity.
Qed.

Lemma alpha_table2_last (scanrec : list R -> list R -> list R)
  (J : Tensor3) (T U : nat) (ys : list Z) (a b : Z) :
  (0 <= a < Z.of_nat (dim2 J))%Z -> (0 <= b < Z.of_nat (dim2 J))%Z ->
  alpha_table2 scanrec J T U (ys ++ [a])
  = alpha_table2 scanrec J T U (ys ++ [b]).
Proof.
  intros Ha Hb. unfold alpha_table2, slice3.
  destruct (0 <? dim0 J)%nat; [| reflexivity]. cbn [bind].
  apply gather_last_snoc_bind; try assumption.
  intros r x y. cbv zeta. rewrite !removelast_last.
  apply bind_ext; [reflexivity | intros a0].
  apply for_range_ext_in. intros t s _.
  apply bind_ext; [reflexivity | intros prev].
  apply bind_ext; [reflexivity | intros blank].
  destruct (t <? dim0 J)%nat; [| reflexivity]. cbn [bind].
  apply gather_last_snoc_bind; try assumption.
  intros r' x' y'. cbv zeta. now rewrite !removelast_last.
Qed.

Lemma log_alpha_table3_last (scanrec_log : list R -> list R -> list R)
  (J : Tensor3) (T U : nat) (ys : list Z) (a b : Z) :
  (0 <= a < Z.of_nat (dim2 J))%Z -> (0 <= b < Z.of_nat (dim2 J))%Z ->
  log_alpha_table3 scanrec_log J T U (ys ++ [a])
  = log_alpha_table3 scanrec_log J T U (ys ++ [b]).
Proof.
  intros Ha Hb. unfold log_alpha_table3, slice3.
  destruct (0 <? dim0 J)%nat; [| reflexivity]. cbn [bind].
  apply gather_last_snoc_bind; try assumption.
  intros r x y. cbv zeta. rewrite !removelast_last.
  apply bind_ext; [reflexivity | intros a0].
  apply for_range_ext_in. intros t s _.
  apply bind_ext; [reflexivity | intros prev].
  apply bind_ext; [reflexivity | intros blank].
  destruct (t <? dim0 J)%nat; [| reflexivity]. cbn [bind].
  apply gather_last_snoc_bind; try assumption.
  intros r' x' y'. cbv zeta. now rewrite !removelast_last.
Qed.

(** C9: two U-length target arrays that differ only in their last entry
    targets[U-1] give the same result in every forward-score variant,
    whatever the scan helpers are.  The sequential loops never read the
    last entry; the scan formulations gather it (so it has to be a label
    in [0, K)) and drop it with [from_bot[:-1]]. *)
Theorem last_target_ignored
  (scanrec scanrec_log : list R -> list R -> list R)
  (transcription_probs prediction_probs : Tensor2)
  (ys : list Z) (a b : Z) :
  let K := cols2 transcription_probs in
  (length ys + 1 = rows2 prediction_probs)%nat ->
  cols2 prediction_probs = K ->
  (transducer_forward_score1 transcription_probs prediction_probs (ys ++ [a])
   = transducer_forward_score1 transcription_probs prediction_probs
       (ys ++ [b])
   /\ transducer_forward_score3_transposed scanrec_log
        transcription_probs prediction_probs (ys ++ [a])
      = transducer_forward_score3_transposed scanrec_log
          transcription_probs prediction_probs (ys ++ [b]))
  /\ ((0 <= a < Z.of_nat K)%Z -> (0 <= b < Z.of_nat K)%Z ->
      transducer_forward_score2 scanrec
        transcription_probs prediction_probs (ys ++ [a])
      = transducer_forward_score2 scanrec
          transcription_probs prediction_probs (ys ++ [b])
      /\ transducer_forward_score3 scanrec_log
           transcription_probs prediction_probs (ys ++ [a])
         = transducer_forward_score3 scanrec_log
             transcription_probs prediction_probs (ys ++ [b])).
Proof.
  intros K Hlen Hcols.
  destruct (joint_same _ _ Hcols) as [z [_ [HP [HL [_ [_ H2]]]]]].
  split; [split | intros Ha Hb; split].
  - unfold transducer_forward_score1. rewrite HP. cbn [bind].
    now rewrite (alpha_table1_last _ _ _ ys a b Hlen).
  - unfold transducer_forward_score3_transposed. rewrite HL. cbn [bind].
    now rewrite (log_alpha_table3_transposed_last _ _ _ _ ys a b Hlen).
  - unfold transducer_forward_score2. rewrite HP. cbn [bind].
    rewrite (alpha_table2_last scanrec (softmax z) _ _ ys a b);
      [reflexivity | cbn; fold K in H2; lia | cbn; fold K in H2; lia].
  - unfold transducer_forward_score3. rewrite HL. cbn [bind].
    rewrite (log_alpha_table3_last scanrec_log (log_softmax z) _ _ ys a b);
      [reflexivity | cbn; fold K in H2; lia | cbn; fold K in H2; lia].
Qed.

(** With a one-symbol vocabulary every joint probability is 1. *)
Lemma softmax_single (z : Tensor3) (t u k : nat) :
  dim2 z = 1%nat -> (forall j, item3 z t u j = item3 z t u 0) ->
  item3 (softmax z) t u k = 1.
Proof.
  intros HK Hconst. cbn. rewrite HK. cbn [sum_upto].
  rewrite (Hconst k). pose proof (exp_pos (item3 z t u 0)).
  field. lra.
Qed.

(** ** How transducer_forward_score1 fails *)

Lemma bind_no_shape_error {A B : Type} (m : result A) (k : A -> result B) :
  no_shape_error m -> (forall x, no_shape_error (k x)) ->
  no_shape_error (bind m k).
Proof.
  unfold no_shape_error. intros Hm Hk. destruct m as [a|e]; cbn.
  - apply Hk.
  - intros [= ->]. now apply Hm.
Qed.

Lemma for_range_no_shape_error {S : Type} (body : nat -> S -> result S) :
  (forall i s, no_shape_error (body i s)) ->
  forall l s, no_shape_error (for_range l body s).
Proof.
  intros Hbody. induction l as [|i l IH]; intros s; cbn [for_range].
  - discriminate.
  - apply bind_no_shape_error; [apply Hbody | exact IH].
Qed.

Lemma get2_no_shape_error (a : Tensor2) (t u : nat) :
  no_shape_error (get2 a t u).
Proof. unfold get2. destruct (_ && _); discriminate. Qed.

Lemma set2_no_shape_error (a : Tensor2) (t u : nat) (v : R) :
  no_shape_error (set2 a t u v).
Proof. unfold set2. destruct (_ && _); discriminate. Qed.

Lemma index1_no_shape_error (l : list Z) (i : nat) :
  no_shape_error (index1 l i).
Proof. unfold index1. destruct (nth_error l i); discriminate. Qed.

Lemma get3_no_shape_error (J : Tensor3) (t u : nat) (y : Z) :
  no_shape_error (get3 J t u y).
Proof.
  unfold get3, wrap_index.
  destruct (_ && _); [| discriminate].
  destruct (_ && _); [discriminate |].
  destruct (_ && _); discriminate.
Qed.

Lemma alpha_table1_no_shape_error (J : Tensor3) (T U : nat) (targets : list Z) :
  no_shape_error (alpha_table1 J T U targets).
Proof.
  unfold alpha_table1.
  repeat first
    [ apply bind_no_shape_error; [| intros ?]
    | apply for_range_no_shape_error; intros ? ?
    | apply get2_no_shape_error
    | apply set2_no_shape_error
    | apply get3_no_shape_error
    | apply index1_no_shape_error
    | progress cbv zeta ].
Qed.

Lemma get3_ok_inv (J : Tensor3) (t u : nat) (y : Z) (p : R) :
  get3 J t u y = Ok p ->
  (t < dim0 J)%nat /\ (u < dim1 J)%nat
  /\ (- Z.of_nat (dim2 J) <= y < Z.of_nat (dim2 J))%Z.
Proof.
  unfold get3. destruct (t <? dim0 J)%nat eqn:Ht;
    destruct (u <? dim1 J)%nat eqn:Hu; cbn [andb]; try discriminate.
  intros H. apply bind_ok_inv in H. destruct H as [k [Hk _]].
  apply wrap_index_ok_inv in Hk.
  apply Nat.ltb_lt in Ht. apply Nat.ltb_lt in Hu. tauto.
Qed.

Lemma index1_ok_inv (l : list Z) (i : nat) (y : Z) :
  index1 l i = Ok y -> nth_error l i = Some y.
Proof.
  unfold index1. destruct (nth_error l i); [| discriminate].
  now intros [= ->].
Qed.

(** A table that was filled read every label of [targets[0 .. U-2]]. *)
Lemma alpha_table1_ok_readable (J : Tensor3) (T U : nat) (targets : list Z)
  (a : Tensor2) :
  alpha_table1 J T U targets = Ok a -> targets_readable (dim2 J) U targets.
Proof.
  unfold alpha_table1. intros H.
  apply bind_ok_inv in H. destruct H as [a0 [_ H]].
  apply bind_ok_inv in H. destruct H as [a1 [Hrow0 _]].
  intros u Hu.
  pose proof (for_range_seq_ok_inv
    (fun i => exists y, nth_error targets (i - 1) = Some y
                /\ (- Z.of_nat (dim2 J) <= y < Z.of_nat (dim2 J))%Z)
    _ _ _ _ _ Hrow0) as Hall.
  destruct (Hall ltac:(
    intros i s0 s1 _ Hbody;
    apply bind_ok_inv in Hbody; destruct Hbody as [y [Hy Hbody]];
    apply bind_ok_inv in Hbody; destruct Hbody as [p [Hp _]];
    exists y; split;
      [ now apply index1_ok_inv | exact (proj2 (proj2 (get3_ok_inv _ _ _ _ _ Hp))) ])
    (S u) ltac:(lia)) as [y [Hy Hin]].
  exists y. replace (S u - 1)%nat with u in Hy by lia. auto.
Qed.

Lemma score1_ok_inv (transcription_probs prediction_probs : Tensor2)
  (targets : list Z) (K : nat) (v : R) :
  broadcast_dim (cols2 transcription_probs) (cols2 prediction_probs) = Some K ->
  transducer_forward_score1 transcription_probs prediction_probs targets = Ok v ->
  score1_returns_on K (rows2 transcription_probs) (rows2 prediction_probs)
    targets.
Proof.
  intros HK H. unfold transducer_forward_score1, joint_probs, broadcast_add in H.
  rewrite HK in H. cbn [bind] in H.
  apply bind_ok_inv in H. destruct H as [a [Ha H]].
  apply bind_ok_inv in H. destruct H as [x [_ H]].
  apply bind_ok_inv in H. destruct H as [b [Hb _]].
  apply get3_ok_inv in Hb. cbn [dim0 dim1 dim2 softmax] in Hb.
  apply alpha_table1_ok_readable in Ha. cbn [dim2 softmax] in Ha.
  unfold score1_returns_on. repeat split; try lia. exact Ha.
Qed.

Lemma score1_returns (transcription_probs prediction_probs : Tensor2)
  (targets : list Z) (K : nat) :
  broadcast_dim (cols2 transcription_probs) (cols2 prediction_probs) = Some K ->
  score1_returns_on K (rows2 transcription_probs) (rows2 prediction_probs)
    targets ->
  is_ok (transducer_forward_score1 transcription_probs prediction_probs
           targets).
Proof.
  intros HK [HT [HU [HK1 Hread]]].
  assert (Hz : exists z, broadcast_add transcription_probs prediction_probs
                         = Ok z /\ dim2 z = K).
  { unfold broadcast_add. rewrite HK. eexists. split; reflexivity. }
  destruct Hz as [z [Hz H2]].
  eexists. apply (score1_value _ _ targets z Hz HT HU); rewrite H2; assumption.
Qed.

Lemma broadcast_dim_none (a b : nat) :
  broadcast_dim a b = None <-> (a <> b /\ a <> 1%nat /\ b <> 1%nat).
Proof.
  unfold broadcast_dim.
  destruct (Nat.eqb_spec a b); destruct (Nat.eqb_spec a 1);
    destruct (Nat.eqb_spec b 1); split; intros H;
    try discriminate; try reflexivity; try tauto; try lia.
Qed.

Lemma score1_shape_error (transcription_probs prediction_probs : Tensor2)
  (targets : list Z) :
  transducer_forward_score1 transcription_probs prediction_probs targets
  = Raise RuntimeError
  <-> broadcast_dim (cols2 transcription_probs) (cols2 prediction_probs)
      = None.
Proof.
  unfold transducer_forward_score1, joint_probs, broadcast_add.
  destruct (broadcast_dim _ _) as [K|]; cbn [bind].
  - split; [| discriminate]. intros H. exfalso. revert H.
    repeat first
      [ apply alpha_table1_no_shape_error
      | apply bind_no_shape_error; [| intros ?]
      | apply get2_no_shape_error
      | apply get3_no_shape_error
      | discriminate ].
  - split; reflexivity.
Qed.

(** C5, as amended: transducer_forward_score1 raises none of the named
    errors; it fails only through the tensor library.  It fails with the
    shape error exactly when the two K differ and neither is 1 (a K of 1
    broadcasts); otherwise it returns exactly when T >= 1, U >= 1,
    K >= 1 and every label of targets[0 .. U-2] exists and lies in
    [-K, K) (negative labels count from the end; targets[U-1] is never
    read), and fails with the index error in every other case.  In
    particular it returns on every input that satisfies the three
    contracts. *)
Theorem score1_outcome
  (transcription_probs prediction_probs : Tensor2) (targets : list Z) :
  let T := rows2 transcription_probs in
  let U := rows2 prediction_probs in
  let Kt := cols2 transcription_probs in
  let Kp := cols2 prediction_probs in
  let score :=
    transducer_forward_score1 transcription_probs prediction_probs targets in
  (score = Raise RuntimeError <-> (Kt <> Kp /\ Kt <> 1%nat /\ Kp <> 1%nat))
  /\ match broadcast_dim Kt Kp with
     | None => score = Raise RuntimeError
     | Some K =>
         (score1_returns_on K T U targets /\ is_ok score)
         \/ (~ score1_returns_on K T U targets /\ score = Raise IndexError)
     end
  /\ (valid_input transcription_probs prediction_probs targets -> is_ok score).
Proof.
  intros T U Kt Kp score. split; [| split].
  - unfold score. rewrite score1_shape_error. apply broadcast_dim_none.
  - destruct (broadcast_dim Kt Kp) as [K|] eqn:HK.
    + destruct score as [v|[|]] eqn:Hscore.
      * left. split; [| now exists v].
        exact (score1_ok_inv _ _ targets K v HK Hscore).
      * right. split; [| reflexivity]. intros Hret.
        destruct (score1_returns _ _ targets K HK Hret) as [v Hv].
        unfold score in Hscore. congruence.
      * exfalso. unfold score in Hscore.
        apply score1_shape_error in Hscore. unfold Kt, Kp in HK. congruence.
    + unfold score. now apply score1_shape_error.
  - intros [HT [HU [HK [Hcols Hvalid]]]].
    apply (score1_returns _ _ targets (cols2 transcription_probs)).
    + rewrite Hcols. apply broadcast_dim_same.
    + repeat split; try assumption. now apply valid_targets_readable.
Qed.

(** C5 fails as stated.  With T = U = K = 1 and targets [7] the label 7
    lies outside [0, K) and the call returns 1: the last entry of
    targets is never read.  With K = 1 against K = 2 the vocabulary
    sizes differ and the call returns: the size 1 is broadcast. *)
Lemma unread_label_and_broadcast_accepted :
  (let targets := [7%Z] in
   (exists y, In y targets /\ ~ (0 <= y < 1)%Z)
   /\ transducer_forward_score1 (const_scores 1 1 0) (const_scores 1 1 0)
        targets = Ok 1)
  /\ (cols2 (const_scores 1 1 0) <> cols2 (const_scores 1 2 0)
      /\ is_ok (transducer_forward_score1
                  (const_scores 1 1 0) (const_scores 1 2 0) [0%Z])).
Proof.
  split; [split | split].
  - exists 7%Z. split; [now left | lia].
  - set (z := mkTensor3 1 1 1 (fun _ _ _ => 0 + 0)).
    assert (Hz : broadcast_add (const_scores 1 1 0) (const_scores 1 1 0)
                 = Ok z) by reflexivity.
    rewrite (score1_value _ _ [7%Z] z Hz); try (cbn; lia).
    + cbn [rows2 const_scores Nat.sub alpha_rec alpha_row0].
      unfold blank_at. rewrite softmax_single by reflexivity.
      f_equal. lra.
    + intros u Hu. cbn in Hu. lia.
  - cbn. lia.
  - apply (score1_returns _ _ [0%Z] 2); [reflexivity |].
    unfold score1_returns_on. cbn [rows2 const_scores].
    repeat split; try lia. intros u Hu. lia.
Qed.

(** ** The scan helper against section 4.3 *)

Lemma prod_between_step (gates : nat -> R) (k u : nat) :
  (k <= u)%nat ->
  prod_between gates k (S u) = prod_between gates k u * gates (S u).
Proof.
  intros Hk. unfold prod_between.
  replace (S u - k)%nat with (S (u - k)) by lia. cbn [prod_upto].
  replace (k + (u - k))%nat with u by lia. reflexivity.
Qed.

Lemma scan_entry_sum_step (gates tokens : nat -> R) (u : nat) :
  scan_entry_sum gates tokens (S u)
  = gates (S u) * scan_entry_sum gates tokens u + tokens (S u).
Proof.
  unfold scan_entry_sum.
  change (sum_upto ?f (S (S u))) with (sum_upto f (S u) + f (S u)).
  cbv beta.
  rewrite (sum_upto_ext _
             (fun k => tokens k * prod_between gates k u * gates (S u))).
  - rewrite sum_upto_scale. unfold prod_between at 2.
    rewrite Nat.sub_diag. cbn [prod_upto]. lra.
  - intros k Hk. rewrite prod_between_step by lia. lra.
Qed.

(** The modelled [scanrec] computes the sum over entry points. *)
Lemma scanrec_entry_points (gates tokens : nat -> R) (n : nat) :
  Scan.scanrec (map gates (seq 0 n)) (map tokens (seq 0 n))
  = map (scan_entry_sum gates tokens) (seq 0 n).
Proof.
  destruct n as [|n]; [reflexivity |].
  unfold Scan.scanrec. cbn [seq map Scan.scan_from]. cbv zeta.
  assert (H0 : gates 0%nat * 0 + tokens 0%nat
               = scan_entry_sum gates tokens 0).
  { unfold scan_entry_sum, prod_between. cbn. lra. }
  rewrite H0. f_equal.
  rewrite <- (seq_shift n 0), (map_map S gates).
  rewrite seq_shift.
  apply (scan_from_map_seq (fun i => gates (S i)) tokens
           (scan_entry_sum gates tokens)); [reflexivity |].
  intros i _. apply scan_entry_sum_step.
Qed.

(** ** The properties on the input of _test_simple *)

Lemma simple_valid_input :
  valid_input simple_transcription simple_prediction simple_targets.
Proof.
  unfold valid_input, valid_targets. cbn.
  repeat split; try lia. repeat constructor; lia.
Defined.

Lemma simple_targets_readable : targets_readable 4 3 simple_targets.
Proof.
  intros u Hu. destruct u as [|[|u]]; [| | lia];
    eexists; (split; [reflexivity | lia]).
Defined.

Lemma score3_eq_score3_transposed_witness :
  exists v,
    transducer_forward_score3 Scan.scanrec_log
      simple_transcription simple_prediction simple_targets = Ok v
    /\ transducer_forward_score3_transposed Scan.scanrec_log
         simple_transcription simple_prediction simple_targets = Ok v.
Proof.
  apply (score3_eq_score3_transposed simple_transcription simple_prediction
           simple_targets simple_valid_input).
Defined.

Lemma score1_eq_score2_witness :
  exists v,
    transducer_forward_score1 simple_transcription simple_prediction
      simple_targets = Ok v
    /\ transducer_forward_score2 Scan.scanrec
         simple_transcription simple_prediction simple_targets = Ok v.
Proof.
  apply (score1_eq_score2 simple_transcription simple_prediction
           simple_targets simple_valid_input).
Defined.

Lemma score1_eq_exp_score3_witness :
  exists p l,
    transducer_forward_score1 simple_transcription simple_prediction
      simple_targets = Ok p
    /\ transducer_forward_score3 Scan.scanrec_log
         simple_transcription simple_prediction simple_targets = Ok l
    /\ p = exp l.
Proof.
  apply (score1_eq_exp_score3 simple_transcription simple_prediction
           simple_targets simple_valid_input).
Defined.

Lemma score1_outcome_witness :
  is_ok (transducer_forward_score1 simple_transcription simple_prediction
           simple_targets).
Proof.
  apply (proj2 (proj2 (score1_outcome simple_transcription simple_prediction
                         simple_targets)) simple_valid_input).
Defined.

Lemma joint_lattice_entries_witness :
  let z t u k := item2 simple_transcription t k + item2 simple_prediction u k in
  exists P L,
    joint_probs simple_transcription simple_prediction = Ok P
    /\ joint_log simple_transcription simple_prediction = Ok L
    /\ (dim0 P, dim1 P, dim2 P) = (4%nat, 3%nat, 4%nat)
    /\ (dim0 L, dim1 L, dim2 L) = (4%nat, 3%nat, 4%nat)
    /\ forall t u k, (t < 4)%nat -> (u < 3)%nat -> (k < 4)%nat ->
         item3 P t u k
         = exp (z t u k) / sum_upto (fun j => exp (z t u j)) 4
         /\ item3 L t u k
            = z t u k - ln (sum_upto (fun j => exp (z t u j)) 4).
Proof.
  apply (joint_lattice_entries simple_transcription simple_prediction).
  reflexivity.
Defined.

Lemma score_single_column_witness :
  exists P L,
    joint_probs simple_transcription (const_scores 1 4 0) = Ok P
    /\ joint_log simple_transcription (const_scores 1 4 0) = Ok L
    /\ transducer_forward_score1 simple_transcription (const_scores 1 4 0)
         [0%Z]
       = Ok (prod_upto (fun t => blank_at P t 0) 4)
    /\ forall scanrec_log,
         transducer_forward_score3_transposed scanrec_log
           simple_transcription (const_scores 1 4 0) [0%Z]
         = Ok (sum_upto (fun t => blank_at L t 0) 4).
Proof.
  apply (score_single_column simple_transcription (const_scores 1 4 0)
           [0%Z] eq_refl ltac:(cbn; lia) ltac:(cbn; lia) eq_refl).
Defined.

Lemma last_target_ignored_witness :
  (transducer_forward_score1 simple_transcription simple_prediction
     [0; 1; 2]%Z
   = transducer_forward_score1 simple_transcription simple_prediction
       [0; 1; 3]%Z
   /\ transducer_forward_score3_transposed Scan.scanrec_log
        simple_transcription simple_prediction [0; 1; 2]%Z
      = transducer_forward_score3_transposed Scan.scanrec_log
          simple_transcription simple_prediction [0; 1; 3]%Z)
  /\ (transducer_forward_score2 Scan.scanrec
        simple_transcription simple_prediction [0; 1; 2]%Z
      = transducer_forward_score2 Scan.scanrec
          simple_transcription simple_prediction [0; 1; 3]%Z
      /\ transducer_forward_score3 Scan.scanrec_log
           simple_transcription simple_prediction [0; 1; 2]%Z
         = transducer_forward_score3 Scan.scanrec_log
             simple_transcription simple_prediction [0; 1; 3]%Z).
Proof.
  destruct (last_target_ignored Scan.scanrec Scan.scanrec_log
              simple_transcription simple_prediction [0; 1]%Z 2%Z 3%Z
              eq_refl eq_refl) as [Hseq Hscan].
  split; [exact Hseq |]. apply Hscan; cbn; lia.
Defined.

(** * The leading blank of the documented layout

    The loops read [targets[u-1]] on the advance from column u - 1 to
    column u.  On an array laid out as line 9 documents it, entry 0 is
    the blank: the first advance consumes the blank's entry, every later
    advance consumes the label before the one section 4.2 names, and the
    last label is never read. *)

Lemma softmax_item (z : Tensor3) (t u k : nat) :
  item3 (softmax z) t u k
  = exp (item3 z t u k) / sum_upto (fun j => exp (item3 z t u j)) (dim2 z).
Proof. reflexivity. Qed.

Lemma Rdiv_neq (a b s : R) : 0 < s -> a <> b -> a / s <> b / s.
Proof.
  intros Hs Hab Heq. apply Hab.
  apply (Rmult_eq_reg_r (/ s)); [exact Heq | apply Rinv_neq_0_compat; lra].
Qed.

(** C1: on the input of [_test_simple] (T = 4, U = 3, K = 4, targets
    [0, 1, 2], laid out as documented: the blank, then the labels 1 and
    2) the table of transducer_forward_score1 does not satisfy the
    recurrence of section 4.2.  The code writes
    alpha[0,1] = alpha[0,0] * joint[0,0,0], the blank's entry
    exp 2 / (exp 2 + 3), where the recurrence consumes the first label,
    1, whose entry is 1 / (exp 2 + 3); and it writes
    alpha[0,2] = alpha[0,1] * joint[0,1,1], the first label's entry,
    where the recurrence consumes the second label, 2. *)
Theorem score1_consumes_leading_blank :
  valid_input simple_transcription simple_prediction simple_targets
  /\ exists J alpha,
       joint_probs simple_transcription simple_prediction = Ok J
       /\ alpha_table1 J 4 3 simple_targets = Ok alpha
       /\ item2 alpha 0%nat 0%nat = 1
       /\ item2 alpha 0%nat 1%nat = item2 alpha 0%nat 0%nat * item3 J 0 0 0
       /\ item2 alpha 0%nat 2%nat = item2 alpha 0%nat 1%nat * item3 J 0 1 1
       /\ documented_symbol J simple_targets 0 0 = item3 J 0 0 1
       /\ documented_symbol J simple_targets 0 1 = item3 J 0 1 2
       /\ item3 J 0 0 0 = exp 2 / (exp 2 + 3)
       /\ item3 J 0 0 1 = 1 / (exp 2 + 3)
       /\ item2 alpha 0%nat 1%nat
          <> item2 alpha 0%nat 0%nat * documented_symbol J simple_targets 0 0
       /\ item2 alpha 0%nat 2%nat
          <> item2 alpha 0%nat 1%nat * documented_symbol J simple_targets 0 1.
Proof.
  split; [exact simple_valid_input |].
  set (x := simple_transcription). set (y := simple_prediction).
  set (z := mkTensor3 4 3 4 (fun t u k => item2 x t k + item2 y u k)).
  assert (Hz : broadcast_add x y = Ok z) by reflexivity.
  assert (HJ : joint_probs x y = Ok (softmax z))
    by (unfold joint_probs; rewrite Hz; reflexivity).
  destruct (score1_with_joint x y simple_targets (softmax z) HJ
              ltac:(cbn; lia) ltac:(cbn; lia) ltac:(cbn; lia)
              simple_targets_readable)
    as [a [Ha [[_ [_ Hf]] _]]].
  cbn [rows2 x y simple_transcription simple_prediction of_rows] in Ha, Hf.
  assert (Hsym0 : symbol_at (softmax z) simple_targets 0 0
                  = item3 (softmax z) 0 0 0) by reflexivity.
  assert (Hsym1 : symbol_at (softmax z) simple_targets 0 1
                  = item3 (softmax z) 0 1 1) by reflexivity.
  assert (Hsum : sum_upto (fun j => exp (item3 z 0 0 j)) 4 = exp 2 + 3).
  { cbn [sum_upto item3 z item2 x y simple_transcription simple_prediction
         of_rows nth].
    replace (1 + 1) with 2 by lra. replace (0 + 0) with 0 by lra.
    rewrite exp_0. lra. }
  assert (H000 : item3 (softmax z) 0 0 0 = exp 2 / (exp 2 + 3)).
  { rewrite softmax_item. change (dim2 z) with 4%nat. rewrite Hsum.
    cbn [item3 z item2 x y simple_transcription simple_prediction of_rows nth].
    replace (1 + 1) with 2 by lra. reflexivity. }
  assert (H001 : item3 (softmax z) 0 0 1 = 1 / (exp 2 + 3)).
  { rewrite softmax_item. change (dim2 z) with 4%nat. rewrite Hsum.
    cbn [item3 z item2 x y simple_transcription simple_prediction of_rows nth].
    replace (0 + 0) with 0 by lra. rewrite exp_0. reflexivity. }
  assert (H01 : item3 (softmax z) 0 1 1 <> item3 (softmax z) 0 1 2).
  { rewrite !softmax_item. apply Rdiv_neq.
    - apply sum_exp_pos. cbn. lia.
    - change (item3 z 0 1 1) with (0 + 2 / 10).
      change (item3 z 0 1 2) with (0 + 3 / 10).
      pose proof (exp_increasing (0 + 2 / 10) (0 + 3 / 10) ltac:(lra)). lra. }
  assert (Ha00 : item2 a 0%nat 0%nat = 1) by (rewrite Hf by lia; reflexivity).
  assert (Ha01 : item2 a 0%nat 1%nat
                 = item2 a 0%nat 0%nat * item3 (softmax z) 0 0 0).
  { rewrite !Hf by lia. rewrite alpha_rec_0S, Hsym0. reflexivity. }
  assert (Ha02 : item2 a 0%nat 2%nat
                 = item2 a 0%nat 1%nat * item3 (softmax z) 0 1 1).
  { rewrite !Hf by lia. rewrite (alpha_rec_0S _ _ 1), Hsym1. reflexivity. }
  pose proof (exp_ineq1 2 ltac:(lra)) as He.
  exists (softmax z), a.
  split; [exact HJ |]. split; [exact Ha |]. split; [exact Ha00 |].
  split; [exact Ha01 |]. split; [exact Ha02 |].
  split; [reflexivity |]. split; [reflexivity |].
  split; [exact H000 |]. split; [exact H001 |]. split.
  - rewrite Ha01.
    change (documented_symbol (softmax z) simple_targets 0 0)
      with (item3 (softmax z) 0 0 1).
    rewrite Ha00, H000, H001, !Rmult_1_l. apply Rdiv_neq; lra.
  - rewrite Ha02.
    change (documented_symbol (softmax z) simple_targets 0 1)
      with (item3 (softmax z) 0 1 2).
    intros Heq. apply H01.
    apply (Rmult_eq_reg_l (item2 a 0%nat 1%nat)); [exact Heq |].
    rewrite Ha01, Ha00, H000.
    assert (0 < exp 2 / (exp 2 + 3)); [| lra].
    apply Rdiv_lt_0_compat; lra.
Qed.

(** C8: on an input with a single time step laid out as documented
    (T = 1, U = 3, K = 2, targets [0, 1, 1]: the blank, then the label 1
    twice) transducer_forward_score1 returns
    joint[0,0,0] * joint[0,1,1] * joint[0,2,0]: the blank's entry, the
    first label's entry and the final blank.  The product of the
    transition probabilities of the two labels is
    joint[0,0,1] * joint[0,1,1], times the final blank.  Every cell
    gives the blank exp 1 / (exp 1 + 1) and the label 1 / (exp 1 + 1),
    so the two values differ. *)
Theorem score1_single_row_consumes_blank :
  valid_input single_row_transcription single_row_prediction
    single_row_targets
  /\ exists P v,
       joint_probs single_row_transcription single_row_prediction = Ok P
       /\ transducer_forward_score1 single_row_transcription
            single_row_prediction single_row_targets = Ok v
       /\ v = item3 P 0 0 0 * item3 P 0 1 1 * item3 P 0 2 0
       /\ prod_upto (fun u => documented_symbol P single_row_targets 0 u) 2
          * blank_at P 0 2
          = item3 P 0 0 1 * item3 P 0 1 1 * item3 P 0 2 0
       /\ (forall u, (u < 3)%nat ->
             item3 P 0 u 0 = exp 1 / (exp 1 + 1)
             /\ item3 P 0 u 1 = 1 / (exp 1 + 1))
       /\ v <> prod_upto
                 (fun u => documented_symbol P single_row_targets 0 u) 2
               * blank_at P 0 2.
Proof.
  set (x := single_row_transcription). set (y := single_row_prediction).
  assert (Hvalid : valid_input x y single_row_targets).
  { unfold valid_input, valid_targets. cbn.
    repeat split; try lia. repeat constructor; lia. }
  split; [exact Hvalid |].
  set (z := mkTensor3 1 3 2 (fun t u k => item2 x t k + item2 y u k)).
  assert (Hz : broadcast_add x y = Ok z) by reflexivity.
  assert (HJ : joint_probs x y = Ok (softmax z))
    by (unfold joint_probs; rewrite Hz; reflexivity).
  assert (Hread : targets_readable (dim2 (softmax z)) 3 single_row_targets).
  { apply valid_targets_readable. exact (proj2 (proj2 (proj2 (proj2 Hvalid)))). }
  destruct (score1_with_joint x y single_row_targets (softmax z) HJ
              ltac:(cbn; lia) ltac:(cbn; lia) ltac:(cbn; lia) Hread)
    as [a [_ [_ Hscore]]].
  cbn [rows2 x y single_row_transcription single_row_prediction of_rows
       const_scores Nat.sub] in Hscore.
  assert (Hcell : forall u, (u < 3)%nat ->
            item3 (softmax z) 0 u 0 = exp 1 / (exp 1 + 1)
            /\ item3 (softmax z) 0 u 1 = 1 / (exp 1 + 1)).
  { intros u _. rewrite !softmax_item. change (dim2 z) with 2%nat.
    cbn [sum_upto item3 z item2 x y single_row_transcription
         single_row_prediction of_rows const_scores nth].
    replace (1 + 0) with 1 by lra. replace (0 + 0) with 0 by lra.
    rewrite exp_0, Rplus_0_l. split; reflexivity. }
  assert (Hdoc : prod_upto
                   (fun u => documented_symbol (softmax z)
                               single_row_targets 0 u) 2
                 * blank_at (softmax z) 0 2
                 = item3 (softmax z) 0 0 1 * item3 (softmax z) 0 1 1
                   * item3 (softmax z) 0 2 0).
  { cbn [prod_upto]. unfold blank_at.
    change (documented_symbol (softmax z) single_row_targets 0 0)
      with (item3 (softmax z) 0 0 1).
    change (documented_symbol (softmax z) single_row_targets 0 1)
      with (item3 (softmax z) 0 1 1).
    ring. }
  assert (Hcode : alpha_rec (blank_at (softmax z))
                    (symbol_at (softmax z) single_row_targets) 0 2
                  * blank_at (softmax z) 0 2
                  = item3 (softmax z) 0 0 0 * item3 (softmax z) 0 1 1
                    * item3 (softmax z) 0 2 0).
  { rewrite !alpha_rec_0S. unfold blank_at.
    change (symbol_at (softmax z) single_row_targets 0 0)
      with (item3 (softmax z) 0 0 0).
    change (symbol_at (softmax z) single_row_targets 0 1)
      with (item3 (softmax z) 0 1 1).
    change (alpha_rec (fun t u => item3 (softmax z) t u 0)
              (symbol_at (softmax z) single_row_targets) 0 0) with 1.
    ring. }
  exists (softmax z). eexists.
  split; [exact HJ |]. split; [exact Hscore |]. split; [exact Hcode |].
  split; [exact Hdoc |]. split; [exact Hcell |].
  rewrite Hcode, Hdoc.
  destruct (Hcell 0%nat ltac:(lia)) as [-> ->].
  destruct (Hcell 1%nat ltac:(lia)) as [_ ->].
  destruct (Hcell 2%nat ltac:(lia)) as [-> _].
  pose proof (exp_ineq1 1 ltac:(lra)) as He.
  assert (Hp : 0 < / (exp 1 + 1)) by (apply Rinv_0_lt_compat; lra).
  intros Heq. unfold Rdiv in Heq.
  assert (Hq : exp 1 * (/ (exp 1 + 1) * / (exp 1 + 1) * / (exp 1 + 1)
               * exp 1)
               = 1 * (/ (exp 1 + 1) * / (exp 1 + 1) * / (exp 1 + 1)
                  * exp 1)) by lra.
  apply Rmult_eq_reg_r in Hq; [lra |].
  apply Rgt_not_eq. repeat apply Rmult_lt_0_compat; lra.
Qed.

(** C10: on a well-formed input laid out as documented (T = 2, U = 2,
    K = 2, targets [0, 1]: the blank, then the label 1; every softmax
    row gives the blank p = [peaked_blank] > 5/6) the cell
    alpha[1,1] of transducer_forward_score1 is p * p + p * p and the
    returned score is (p * p + p * p) * p: both exceed 1.  The label
    advances consumed [targets[0]], the blank, so the label move out of
    a cell carries the same entry as the blank move and the blank's
    mass is counted twice.  With the label's entry on the advance, as
    section 4.2 has it, the same cell holds at most 1. *)
Theorem score1_exceeds_one :
  valid_input peaked_transcription peaked_prediction peaked_targets
  /\ exists J alpha v,
       joint_probs peaked_transcription peaked_prediction = Ok J
       /\ alpha_table1 J 2 2 peaked_targets = Ok alpha
       /\ item2 alpha 1%nat 1%nat
          = peaked_blank * peaked_blank + peaked_blank * peaked_blank
       /\ 1 < item2 alpha 1%nat 1%nat
       /\ transducer_forward_score1 peaked_transcription peaked_prediction
            peaked_targets = Ok v
       /\ v = (peaked_blank * peaked_blank + peaked_blank * peaked_blank)
              * peaked_blank
       /\ 1 < v
       /\ alpha_rec (blank_at J) (documented_symbol J peaked_targets) 1 1
          <= 1.
Proof.
  set (x := peaked_transcription). set (y := peaked_prediction).
  assert (Hvalid : valid_input x y peaked_targets).
  { unfold valid_input, valid_targets. cbn.
    repeat split; try lia. repeat constructor; lia. }
  split; [exact Hvalid |].
  set (z := mkTensor3 2 2 2 (fun t u k => item2 x t k + item2 y u k)).
  assert (Hz : broadcast_add x y = Ok z) by reflexivity.
  assert (HJ : joint_probs x y = Ok (softmax z))
    by (unfold joint_probs; rewrite Hz; reflexivity).
  assert (Hread : targets_readable (dim2 (softmax z)) 2 peaked_targets).
  { apply valid_targets_readable. exact (proj2 (proj2 (proj2 (proj2 Hvalid)))). }
  destruct (score1_with_joint x y peaked_targets (softmax z) HJ
              ltac:(cbn; lia) ltac:(cbn; lia) ltac:(cbn; lia) Hread)
    as [a [Ha [[_ [_ Hf]] Hscore]]].
  cbn [rows2 x y peaked_transcription peaked_prediction of_rows
       const_scores Nat.sub] in Ha, Hf, Hscore.
  set (p := peaked_blank).
  set (q := 1 / (exp 4 + 1)).
  assert (Hcell : forall t u, (t < 2)%nat ->
            item3 (softmax z) t u 0 = p /\ item3 (softmax z) t u 1 = q).
  { intros t u Ht. rewrite !softmax_item. change (dim2 z) with 2%nat.
    assert (Hrow : forall k, item2 x t k = nth k [4; 0] 0).
    { intros k. destruct t as [|[|t]]; [reflexivity | reflexivity | lia]. }
    cbn [sum_upto item3 z]. rewrite !Hrow.
    cbn [item2 y peaked_prediction const_scores nth].
    replace (4 + 0) with 4 by lra. replace (0 + 0) with 0 by lra.
    rewrite exp_0, Rplus_0_l. split; reflexivity. }
  pose proof (exp_ineq1 4 ltac:(lra)) as He.
  assert (Hpq : p + q = 1) by (unfold p, q, peaked_blank; field; lra).
  assert (Hq : 0 < q) by (unfold q; apply Rdiv_lt_0_compat; lra).
  assert (Hp : 5 / 6 < p).
  { assert (q < 1 / 6); [| lra].
    unfold q. apply Rmult_lt_reg_r with (r := exp 4 + 1); [lra |].
    unfold Rdiv. rewrite Rmult_assoc, Rinv_l by lra. lra. }
  assert (Hcode : alpha_rec (blank_at (softmax z))
                    (symbol_at (softmax z) peaked_targets) 1 1
                  = p * p + p * p).
  { rewrite alpha_rec_SS, alpha_rec_0S, alpha_rec_S0. unfold blank_at.
    change (symbol_at (softmax z) peaked_targets 0 0)
      with (item3 (softmax z) 0 0 0).
    change (symbol_at (softmax z) peaked_targets 1 0)
      with (item3 (softmax z) 1 0 0).
    change (alpha_rec (fun t u => item3 (softmax z) t u 0)
              (symbol_at (softmax z) peaked_targets) 0 0) with 1.
    rewrite (proj1 (Hcell 0%nat 0%nat ltac:(lia))).
    rewrite (proj1 (Hcell 0%nat 1%nat ltac:(lia))).
    rewrite (proj1 (Hcell 1%nat 0%nat ltac:(lia))). ring. }
  assert (Hdoc : alpha_rec (blank_at (softmax z))
                   (documented_symbol (softmax z) peaked_targets) 1 1
                 = p * q + p * q).
  { rewrite alpha_rec_SS, alpha_rec_0S, alpha_rec_S0. unfold blank_at.
    change (documented_symbol (softmax z) peaked_targets 0 0)
      with (item3 (softmax z) 0 0 1).
    change (documented_symbol (softmax z) peaked_targets 1 0)
      with (item3 (softmax z) 1 0 1).
    change (alpha_rec (fun t u => item3 (softmax z) t u 0)
              (documented_symbol (softmax z) peaked_targets) 0 0) with 1.
    rewrite (proj1 (Hcell 0%nat 0%nat ltac:(lia))).
    rewrite (proj2 (Hcell 0%nat 0%nat ltac:(lia))).
    rewrite (proj1 (Hcell 0%nat 1%nat ltac:(lia))).
    rewrite (proj2 (Hcell 1%nat 0%nat ltac:(lia))). ring. }
  assert (Hpp : 25 / 36 < p * p) by nra.
  exists (softmax z), a. eexists. fold p.
  split; [exact HJ |]. split; [exact Ha |].
  split; [rewrite Hf by lia; exact Hcode |].
  split; [rewrite Hf by lia; rewrite Hcode; lra |].
  split; [exact Hscore |].
  split; [rewrite Hcode; unfold blank_at;
          rewrite (proj1 (Hcell 1%nat 1%nat ltac:(lia))); reflexivity |].
  split.
  - rewrite Hcode. unfold blank_at.
    rewrite (proj1 (Hcell 1%nat 1%nat ltac:(lia))). nra.
  - rewrite Hdoc. nra.
Qed.

(** * Further properties of the forward-score functions *)

(** ** Empty input and mismatched vocabularies, in every variant *)

(** Whatever filled the table, the last two reads need a cell
    (T-1, U-1) and a blank entry. *)
Lemma final_reads_ok_inv (table : result Tensor2) (J : Tensor3) (i j : nat)
  (op : R -> R -> R) (v : R) :
  (a <- table ;; x <- get2 a i j ;; b <- get3 J i j 0 ;; Ok (op x b)) = Ok v ->
  (i < dim0 J)%nat /\ (j < dim1 J)%nat /\ (1 <= dim2 J)%nat.
Proof.
  intros H.
  apply bind_ok_inv in H. destruct H as [a [_ H]].
  apply bind_ok_inv in H. destruct H as [x [_ H]].
  apply bind_ok_inv in H. destruct H as [b [Hb _]].
  apply get3_ok_inv in Hb. lia.
Qed.

(** No variant returns a score for an empty time axis or an empty label
    axis, whatever the targets and the scan helpers are. *)
Theorem empty_input_never_scores
  (scanrec scanrec_log : list R -> list R -> list R)
  (transcription_probs prediction_probs : Tensor2) (targets : list Z) :
  rows2 transcription_probs = 0%nat \/ rows2 prediction_probs = 0%nat ->
  ~ is_ok (transducer_forward_score1
             transcription_probs prediction_probs targets)
  /\ ~ is_ok (transducer_forward_score2 scanrec
                transcription_probs prediction_probs targets)
  /\ ~ is_ok (transducer_forward_score3 scanrec_log
                transcription_probs prediction_probs targets)
  /\ ~ is_ok (transducer_forward_score3_transposed scanrec_log
                transcription_probs prediction_probs targets).
Proof.
  intros Hempty.
  assert (Hp : forall (table : Tensor3 -> result Tensor2) (op : R -> R -> R) (v : R),
             (J <- joint_probs transcription_probs prediction_probs ;;
              a <- table J ;;
              x <- get2 a (rows2 transcription_probs - 1)
                     (rows2 prediction_probs - 1) ;;
              b <- get3 J (rows2 transcription_probs - 1)
                     (rows2 prediction_probs - 1) 0 ;;
              Ok (op x b)) = Ok v -> False).
  { intros table op v H. apply bind_ok_inv in H. destruct H as [J [HJ H]].
    apply final_reads_ok_inv in H.
    destruct (joint_probs_dims _ _ _ HJ) as [H0 H1]. lia. }
  assert (Hl : forall (table : Tensor3 -> result Tensor2) (op : R -> R -> R) (v : R),
             (J <- joint_log transcription_probs prediction_probs ;;
              a <- table J ;;
              x <- get2 a (rows2 transcription_probs - 1)
                     (rows2 prediction_probs - 1) ;;
              b <- get3 J (rows2 transcription_probs - 1)
                     (rows2 prediction_probs - 1) 0 ;;
              Ok (op x b)) = Ok v -> False).
  { intros table op v H. apply bind_ok_inv in H. destruct H as [J [HJ H]].
    apply final_reads_ok_inv in H.
    destruct (joint_log_dims _ _ _ HJ) as [H0 H1]. lia. }
  repeat split; intros [v Hv].
  - exact (Hp (fun J => alpha_table1 J _ _ targets) Rmult v Hv).
  - exact (Hp (fun J => alpha_table2 scanrec J _ _ targets) Rmult v Hv).
  - exact (Hl (fun J => log_alpha_table3 scanrec_log J _ _ targets)
              Rplus v Hv).
  - exact (Hl (fun J => log_alpha_table3_transposed scanrec_log J _ _ targets)
              Rplus v Hv).
Qed.

Lemma empty_input_never_scores_witness :
  ~ is_ok (transducer_forward_score1
             (const_scores 0 4 0) simple_prediction simple_targets)
  /\ ~ is_ok (transducer_forward_score2 Scan.scanrec
                (const_scores 0 4 0) simple_prediction simple_targets)
  /\ ~ is_ok (transducer_forward_score3 Scan.scanrec_log
                (const_scores 0 4 0) simple_prediction simple_targets)
  /\ ~ is_ok (transducer_forward_score3_transposed Scan.scanrec_log
                (const_scores 0 4 0) simple_prediction simple_targets).
Proof.
  apply (empty_input_never_scores Scan.scanrec Scan.scanrec_log
           (const_scores 0 4 0) simple_prediction simple_targets
           (or_introl eq_refl)).
Defined.

(** When the two vocabulary sizes differ and neither is 1, every variant
    fails with the shape error before it looks at the targets. *)
Theorem shape_mismatch_every_variant
  (scanrec scanrec_log : list R -> list R -> list R)
  (transcription_probs prediction_probs : Tensor2) (targets : list Z) :
  let Kt := cols2 transcription_probs in
  let Kp := cols2 prediction_probs in
  Kt <> Kp -> Kt <> 1%nat -> Kp <> 1%nat ->
  transducer_forward_score1 transcription_probs prediction_probs targets
  = Raise RuntimeError
  /\ transducer_forward_score2 scanrec
       transcription_probs prediction_probs targets = Raise RuntimeError
  /\ transducer_forward_score3 scanrec_log
       transcription_probs prediction_probs targets = Raise RuntimeError
  /\ transducer_forward_score3_transposed scanrec_log
       transcription_probs prediction_probs targets = Raise RuntimeError.
Proof.
  intros Kt Kp H1 H2 H3.
  assert (HK : broadcast_dim Kt Kp = None) by (apply broadcast_dim_none; auto).
  unfold transducer_forward_score1, transducer_forward_score2,
    transducer_forward_score3, transducer_forward_score3_transposed,
    joint_probs, joint_log, broadcast_add.
  fold Kt Kp. rewrite HK. cbn [bind]. auto.
Qed.

Lemma shape_mismatch_every_variant_witness :
  transducer_forward_score1 simple_transcription (const_scores 3 5 0)
    simple_targets = Raise RuntimeError
  /\ transducer_forward_score2 Scan.scanrec
       simple_transcription (const_scores 3 5 0) simple_targets
     = Raise RuntimeError
  /\ transducer_forward_score3 Scan.scanrec_log
       simple_transcription (const_scores 3 5 0) simple_targets
     = Raise RuntimeError
  /\ transducer_forward_score3_transposed Scan.scanrec_log
       simple_transcription (const_scores 3 5 0) simple_targets
     = Raise RuntimeError.
Proof.
  apply (shape_mismatch_every_variant Scan.scanrec Scan.scanrec_log
           simple_transcription (const_scores 3 5 0) simple_targets);
    cbn; lia.
Defined.

(** ** Labels outside the vocabulary *)

Lemma gather_from_rejects (m : Tensor2) :
  forall index u,
    Exists (fun y => ~ (0 <= y < Z.of_nat (cols2 m))%Z) index ->
    gather_from m u index = Raise RuntimeError.
Proof.
  induction index as [|y index IH]; intros u Hex.
  - inversion Hex.
  - cbn [gather_from].
    destruct ((0 <=? y)%Z && (y <? Z.of_nat (cols2 m))%Z) eqn:Hy;
      [| reflexivity].
    apply andb_prop in Hy. destruct Hy as [H0 H1].
    apply Z.leb_le in H0. apply Z.ltb_lt in H1.
    inversion Hex as [? ? Hbad | ? ? Hrest]; subst; [lia |].
    now rewrite (IH (S u) Hrest).
Qed.

Lemma gather_last_rejects (m : Tensor2) (index : list Z) :
  (rows2 m < length index)%nat
  \/ Exists (fun y => ~ (0 <= y < Z.of_nat (cols2 m))%Z) index ->
  gather_last m index = Raise RuntimeError.
Proof.
  intros H. unfold gather_last.
  destruct (Nat.leb_spec (length index) (rows2 m)) as [Hle | Hgt];
    [| reflexivity].
  destruct H as [Hlen | Hex]; [lia |]. now apply gather_from_rejects.
Qed.

(** The scan formulations gather every entry of targets before they
    compute anything: with a non-empty time axis and matching K, one
    label outside [0, K) anywhere in targets (a negative one and the
    unused last one included), or more labels than prediction rows,
    makes both fail with the gather's error, whatever the scan helpers
    are. *)
Theorem scan_variants_reject_label
  (scanrec scanrec_log : list R -> list R -> list R)
  (transcription_probs prediction_probs : Tensor2) (targets : list Z) :
  let K := cols2 transcription_probs in
  (1 <= rows2 transcription_probs)%nat ->
  cols2 prediction_probs = K ->
  (rows2 prediction_probs < length targets)%nat
  \/ Exists (fun y => ~ (0 <= y < Z.of_nat K)%Z) targets ->
  transducer_forward_score2 scanrec
    transcription_probs prediction_probs targets = Raise RuntimeError
  /\ transducer_forward_score3 scanrec_log
       transcription_probs prediction_probs targets = Raise RuntimeError.
Proof.
  intros K HT Hcols Hbad.
  destruct (joint_same _ _ Hcols) as [z [_ [HP [HL [H0 [H1 H2]]]]]].
  fold K in H2.
  assert (Hgather : forall J : Tensor3,
             dim1 J = rows2 prediction_probs -> dim2 J = K ->
             gather_last (mkTensor2 (dim1 J) (dim2 J) (item3 J 0)) targets
             = Raise RuntimeError).
  { intros J HJ1 HJ2. apply gather_last_rejects. cbn [rows2 cols2].
    rewrite HJ1, HJ2. exact Hbad. }
  split.
  - unfold transducer_forward_score2. rewrite HP. cbn [bind].
    unfold alpha_table2.
    rewrite (bind_ok _ _ _ (slice3_ok (softmax z) 0 ltac:(cbn; lia))).
    now rewrite (Hgather (softmax z) H1 H2).
  - unfold transducer_forward_score3. rewrite HL. cbn [bind].
    unfold log_alpha_table3.
    rewrite (bind_ok _ _ _ (slice3_ok (log_softmax z) 0 ltac:(cbn; lia))).
    now rewrite (Hgather (log_softmax z) H1 H2).
Qed.

Lemma scan_variants_reject_label_witness :
  transducer_forward_score2 Scan.scanrec
    simple_transcription simple_prediction [0; 1; -1]%Z = Raise RuntimeError
  /\ transducer_forward_score3 Scan.scanrec_log
       simple_transcription simple_prediction [0; 1; -1]%Z
     = Raise RuntimeError.
Proof.
  apply (scan_variants_reject_label Scan.scanrec Scan.scanrec_log
           simple_transcription simple_prediction [0; 1; -1]%Z
           ltac:(cbn; lia) eq_refl).
  right. apply Exists_cons_tl, Exists_cons_tl, Exists_cons_hd. cbn. lia.
Defined.

Lemma wrap_index_normalize (K : nat) (y : Z) :
  wrap_index K (normalize_label K y) = wrap_index K y.
Proof.
  unfold normalize_label.
  destruct ((- Z.of_nat K <=? y)%Z && (y <? 0)%Z) eqn:Hc; [| reflexivity].
  pose proof Hc as Hc'. apply andb_prop in Hc'. destruct Hc' as [Hlo Hneg].
  apply Z.leb_le in Hlo. apply Z.ltb_lt in Hneg.
  unfold wrap_index. rewrite Hc.
  replace (0 <=? y + Z.of_nat K)%Z with true
    by (symmetry; apply Z.leb_le; lia).
  replace (y + Z.of_nat K <? Z.of_nat K)%Z with true
    by (symmetry; apply Z.ltb_lt; lia).
  replace (0 <=? y)%Z with false by (symmetry; apply Z.leb_gt; lia).
  reflexivity.
Qed.

Lemma index1_map (f : Z -> Z) (l : list Z) (i : nat) :
  index1 (map f l) i = (y <- index1 l i ;; Ok (f y)).
Proof.
  unfold index1. rewrite nth_error_map.
  destruct (nth_error l i); reflexivity.
Qed.

Lemma get3_normalize (J : Tensor3) (t u : nat) (y : Z) :
  get3 J t u (normalize_label (dim2 J) y) = get3 J t u y.
Proof. unfold get3. now rewrite wrap_index_normalize. Qed.

Lemma slice_t_normalize (J : Tensor3) (u : nat) (y : Z) :
  slice_t J u (normalize_label (dim2 J) y) = slice_t J u y.
Proof. unfold slice_t. now rewrite wrap_index_normalize. Qed.

Lemma read_label_normalize {B : Type} (J : Tensor3) (targets : list Z)
  (i t u : nat) (k : R -> result B) :
  (y <- index1 (map (normalize_label (dim2 J)) targets) i ;;
   p <- get3 J t u y ;; k p)
  = (y <- index1 targets i ;; p <- get3 J t u y ;; k p).
Proof.
  rewrite index1_map. destruct (index1 targets i) as [y|e]; cbn [bind];
    [now rewrite get3_normalize | reflexivity].
Qed.

Lemma alpha_table1_normalize (J : Tensor3) (T U : nat) (targets : list Z) :
  alpha_table1 J T U (map (normalize_label (dim2 J)) targets)
  = alpha_table1 J T U targets.
Proof.
  unfold alpha_table1.
  apply bind_ext; [reflexivity | intros a0].
  apply bind_ext.
  - apply for_range_ext_in. intros u s _. apply read_label_normalize.
  - intros a1. apply for_range_ext_in. intros t s _. cbv zeta.
    apply bind_ext; [reflexivity | intros p].
    apply bind_ext; [reflexivity | intros q].
    apply bind_ext; [reflexivity | intros a2].
    apply for_range_ext_in. intros u s' _.
    apply bind_ext; [reflexivity | intros b].
    apply read_label_normalize.
Qed.

Lemma log_alpha_table3_transposed_normalize
  (scanrec_log : list R -> list R -> list R)
  (J : Tensor3) (T U : nat) (targets : list Z) :
  log_alpha_table3_transposed scanrec_log J T U
    (map (normalize_label (dim2 J)) targets)
  = log_alpha_table3_transposed scanrec_log J T U targets.
Proof.
  unfold log_alpha_table3_transposed.
  apply bind_ext; [reflexivity | intros l0].
  apply bind_ext; [reflexivity | intros a0].
  apply for_range_ext_in. intros u s _.
  apply bind_ext; [reflexivity | intros prev].
  rewrite index1_map. destruct (index1 targets (u - 1)) as [y|e];
    cbn [bind]; [now rewrite slice_t_normalize | reflexivity].
Qed.

(** The two variants that index the lattice with targets[u-1] read a
    negative label in [-K, 0) as the label plus K: replacing every such
    label by its non-negative equivalent changes neither result. *)
Theorem sequential_variants_wrap_negative_labels
  (scanrec_log : list R -> list R -> list R)
  (transcription_probs prediction_probs : Tensor2) (targets : list Z) :
  let K := cols2 transcription_probs in
  cols2 prediction_probs = K ->
  transducer_forward_score1 transcription_probs prediction_probs
    (map (normalize_label K) targets)
  = transducer_forward_score1 transcription_probs prediction_probs targets
  /\ transducer_forward_score3_transposed scanrec_log
       transcription_probs prediction_probs (map (normalize_label K) targets)
     = transducer_forward_score3_transposed scanrec_log
         transcription_probs prediction_probs targets.
Proof.
  intros K Hcols.
  destruct (joint_same _ _ Hcols) as [z [_ [HP [HL [_ [_ H2]]]]]].
  fold K in H2. split.
  - unfold transducer_forward_score1. rewrite HP. cbn [bind].
    replace K with (dim2 (softmax z)) by exact H2.
    now rewrite alpha_table1_normalize.
  - unfold transducer_forward_score3_transposed. rewrite HL. cbn [bind].
    replace K with (dim2 (log_softmax z)) by exact H2.
    now rewrite log_alpha_table3_transposed_normalize.
Qed.

Lemma sequential_variants_wrap_negative_labels_witness :
  transducer_forward_score1 simple_transcription simple_prediction
    [0; 1; 2]%Z
  = transducer_forward_score1 simple_transcription simple_prediction
      [-4; -3; 2]%Z
  /\ transducer_forward_score3_transposed Scan.scanrec_log
       simple_transcription simple_prediction [0; 1; 2]%Z
     = transducer_forward_score3_transposed Scan.scanrec_log
         simple_transcription simple_prediction [-4; -3; 2]%Z.
Proof.
  apply (sequential_variants_wrap_negative_labels Scan.scanrec_log
           simple_transcription simple_prediction [-4; -3; 2]%Z eq_refl).
Defined.

(** ** Shifting the scores *)

Lemma broadcast_dim_pos (a b K : nat) :
  broadcast_dim a b = Some K -> (1 <= a)%nat -> (1 <= b)%nat -> (1 <= K)%nat.
Proof.
  unfold broadcast_dim.
  destruct (a =? b)%nat; [intros [= <-]; lia |].
  destruct (a =? 1)%nat; [intros [= <-]; lia |].
  destruct (b =? 1)%nat; [intros [= <-]; lia | discriminate].
Qed.

Lemma sum_exp_shift (g : nat -> R) (c : R) (n : nat) :
  sum_upto (fun j => exp (g j + c)) n = sum_upto (fun j => exp (g j)) n * exp c.
Proof.
  rewrite <- sum_upto_scale. apply sum_upto_ext.
  intros j _. apply exp_plus.
Qed.

(** Softmax and log-softmax do not see a constant added to a whole row
    of the K axis. *)
Lemma softmax_shift (z : Tensor3) (c : nat -> nat -> R) :
  (1 <= dim2 z)%nat ->
  let z' := mkTensor3 (dim0 z) (dim1 z) (dim2 z)
              (fun t u k => item3 z t u k + c t u) in
  softmax z' = softmax z /\ log_softmax z' = log_softmax z.
Proof.
  intros HK z'. unfold softmax, log_softmax. cbn [dim0 dim1 dim2 item3 z'].
  split; f_equal; extensionality t; extensionality u; extensionality k;
    rewrite sum_exp_shift;
    pose proof (sum_exp_pos (item3 z t u) (dim2 z) HK) as Hpos;
    pose proof (exp_pos (c t u)) as Hc.
  - rewrite exp_plus. field. lra.
  - rewrite ln_mult, ln_exp by assumption. lra.
Qed.

Lemma joint_shift (x y : Tensor2) (c d : nat -> R) :
  (1 <= cols2 x)%nat -> (1 <= cols2 y)%nat ->
  joint_probs (shift_rows c x) (shift_rows d y) = joint_probs x y
  /\ joint_log (shift_rows c x) (shift_rows d y) = joint_log x y.
Proof.
  intros Hx Hy. unfold joint_probs, joint_log, broadcast_add.
  cbn [shift_rows rows2 cols2 item2].
  destruct (broadcast_dim (cols2 x) (cols2 y)) as [K|] eqn:HK;
    [| split; reflexivity].
  pose proof (broadcast_dim_pos _ _ _ HK Hx Hy) as HK1.
  cbn [bind].
  set (z := mkTensor3 (rows2 x) (rows2 y) K
              (fun t u k => item2 x t (bidx (cols2 x) k)
                            + item2 y u (bidx (cols2 y) k))).
  destruct (softmax_shift z (fun t u => c t + d u) HK1) as [Hs Hl].
  assert (Hz : mkTensor3 (rows2 x) (rows2 y) K
                 (fun t u k => item2 x t (bidx (cols2 x) k) + c t
                               + (item2 y u (bidx (cols2 y) k) + d u))
               = mkTensor3 (dim0 z) (dim1 z) (dim2 z)
                   (fun t u k => item3 z t u k + (c t + d u))).
  { cbn [z dim0 dim1 dim2 item3]. f_equal.
    extensionality t; extensionality u; extensionality k. lra. }
  rewrite Hz, Hs, Hl. split; reflexivity.
Qed.

(** Adding a constant to every score of a transcription row, and another
    to every score of a prediction row, changes no result of any of the
    four variants: the joint lattice normalizes over the K axis. *)
Theorem scores_shift_invariant
  (scanrec scanrec_log : list R -> list R -> list R)
  (transcription_probs prediction_probs : Tensor2) (targets : list Z)
  (c d : nat -> R) :
  (1 <= cols2 transcription_probs)%nat ->
  (1 <= cols2 prediction_probs)%nat ->
  let x' := shift_rows c transcription_probs in
  let y' := shift_rows d prediction_probs in
  transducer_forward_score1 x' y' targets
  = transducer_forward_score1 transcription_probs prediction_probs targets
  /\ transducer_forward_score2 scanrec x' y' targets
     = transducer_forward_score2 scanrec
         transcription_probs prediction_probs targets
  /\ transducer_forward_score3 scanrec_log x' y' targets
     = transducer_forward_score3 scanrec_log
         transcription_probs prediction_probs targets
  /\ transducer_forward_score3_transposed scanrec_log x' y' targets
     = transducer_forward_score3_transposed scanrec_log
         transcription_probs prediction_probs targets.
Proof.
  intros Hx Hy x' y'.
  destruct (joint_shift transcription_probs prediction_probs c d Hx Hy)
    as [HP HL]. fold x' y' in HP, HL.
  unfold transducer_forward_score1, transducer_forward_score2,
    transducer_forward_score3, transducer_forward_score3_transposed.
  rewrite HP, HL. repeat split; reflexivity.
Qed.

Lemma scores_shift_invariant_witness :
  let x' := shift_rows (fun t => INR t) simple_transcription in
  let y' := shift_rows (fun _ => 5) simple_prediction in
  transducer_forward_score1 x' y' simple_targets
  = transducer_forward_score1 simple_transcription simple_prediction
      simple_targets
  /\ transducer_forward_score2 Scan.scanrec x' y' simple_targets
     = transducer_forward_score2 Scan.scanrec
         simple_transcription simple_prediction simple_targets
  /\ transducer_forward_score3 Scan.scanrec_log x' y' simple_targets
     = transducer_forward_score3 Scan.scanrec_log
         simple_transcription simple_prediction simple_targets
  /\ transducer_forward_score3_transposed Scan.scanrec_log x' y'
       simple_targets
     = transducer_forward_score3_transposed Scan.scanrec_log
         simple_transcription simple_prediction simple_targets.
Proof.
  apply (scores_shift_invariant Scan.scanrec Scan.scanrec_log
           simple_transcription simple_prediction simple_targets
           (fun t => INR t) (fun _ => 5)
           ltac:(cbn; lia) ltac:(cbn; lia)).
Defined.

(** * Properties of the audio encoders *)

(** ** The layers of StridingAudioEncoder *)

Lemma last_cons_nonempty (a d : Z) (l : list Z) :
  l <> [] -> last (a :: l) d = last l d.
Proof. destruct l; [congruence | reflexivity]. Qed.

(** [StridingAudioEncoder.__init__] needs at least one stride; with two
    or more it builds one layer per stride, in order; with a single
    stride it builds two layers, both with that stride.  Every layer has
    kernel size 3 and padding 1. *)
Theorem striding_encoder_layers (conv_strides : list Z) :
  match conv_strides with
  | [] =>
      AttentionAudio.StridingAudioEncoder.conv conv_strides
      = AttentionAudio.Throw AttentionAudio.IndexError
  | [s] =>
      AttentionAudio.StridingAudioEncoder.conv conv_strides
      = AttentionAudio.Return
          [AttentionAudio.mkConv1d 3 s 1; AttentionAudio.mkConv1d 3 s 1]
  | _ =>
      AttentionAudio.StridingAudioEncoder.conv conv_strides
      = AttentionAudio.Return
          (map (fun s => AttentionAudio.mkConv1d 3 s 1) conv_strides)
  end.
Proof.
  destruct conv_strides as [|a [|b l]]; try reflexivity.
  unfold AttentionAudio.StridingAudioEncoder.conv.
  cbn [tl]. f_equal. cbn [map app]. f_equal.
  rewrite (last_cons_nonempty a a (b :: l)) by discriminate.
  change (map (fun s => AttentionAudio.mkConv1d 3 s 1) (removelast (b :: l))
          ++ map (fun s => AttentionAudio.mkConv1d 3 s 1) [last (b :: l) a]
          = map (fun s => AttentionAudio.mkConv1d 3 s 1) (b :: l)).
  rewrite <- map_app, <- app_removelast_last by discriminate. reflexivity.
Qed.

(** ** Length arithmetic *)

Module LengthFacts.

Import AttentionAudio.
Local Open Scope Z_scope.

Lemma round_half_even_exact (v q : Z) :
  0 < q -> Float32.round_half_even (v * q) q = v.
Proof.
  intros Hq. unfold Float32.round_half_even.
  rewrite Z.mod_mul, Z.div_mul by lia.
  replace (2 * 0 ?= q) with Lt by (symmetry; apply Z.compare_lt_iff; lia).
  reflexivity.
Qed.

(** A number with at most 24 significant bits above the unit is not
    changed by rounding. *)
Lemma round_nonneg_exact (m c q : Z) :
  0 <= m < 2 ^ 24 -> 0 <= c <= 253 -> 0 < q ->
  Float32.round_nonneg (m * 2 ^ c * q) q = Some (m * 2 ^ c).
Proof.
  intros Hm Hc Hq. unfold Float32.round_nonneg.
  rewrite Z.div_mul by lia.
  pose proof (Z.pow_pos_nonneg 2 c ltac:(lia) ltac:(lia)) as Hpc.
  assert (Hmax : m * 2 ^ c < 2 ^ 277).
  { replace 277 with (24 + 253) by lia. rewrite (Z.pow_add_r 2 24 253) by lia.
    pose proof (Z.pow_le_mono_r 2 c 253 ltac:(lia) ltac:(lia)). nia. }
  set (v := m * 2 ^ c) in *.
  set (c' := Z.max (Z.log2 v - 23) 0).
  assert (Hc' : 0 <= c' <= c).
  { subst c'. split; [lia |].
    destruct (Z.eq_dec v 0) as [-> | Hv]; [cbn; lia |].
    assert (Hpos : 0 < v) by (subst v; nia).
    assert (Hlt : v < 2 ^ (24 + c)).
    { rewrite Z.pow_add_r by lia. subst v. nia. }
    pose proof (proj1 (Z.log2_lt_pow2 v (24 + c) Hpos) Hlt). lia. }
  pose proof (Z.pow_pos_nonneg 2 c' ltac:(lia) ltac:(lia)) as Hpc'.
  assert (Hv : v = m * 2 ^ (c - c') * 2 ^ c').
  { subst v. replace c with (c - c' + c') at 1 by lia.
    rewrite Z.pow_add_r by lia. ring. }
  replace (v * q) with (m * 2 ^ (c - c') * (q * 2 ^ c')) by (rewrite Hv; ring).
  rewrite round_half_even_exact by nia.
  rewrite <- Hv.
  replace (v <? 2 ^ 277) with true by (symmetry; apply Z.ltb_lt; lia).
  reflexivity.
Qed.

Lemma round_exact (m c q : Z) :
  - 2 ^ 24 < m < 2 ^ 24 -> 0 <= c <= 253 -> 0 < q ->
  Float32.round (m * 2 ^ c * q) q = Some (m * 2 ^ c).
Proof.
  intros Hm Hc Hq. unfold Float32.round.
  pose proof (Z.pow_pos_nonneg 2 c ltac:(lia) ltac:(lia)) as Hpc.
  destruct (Z.leb_spec 0 (m * 2 ^ c * q)) as [Hp | Hp].
  - apply round_nonneg_exact; [| assumption | assumption].
    split; [| lia]. nia.
  - replace (- (m * 2 ^ c * q)) with (- m * 2 ^ c * q) by ring.
    assert (Hm' : 0 <= - m < 2 ^ 24) by (split; [nia | lia]).
    rewrite (round_nonneg_exact (- m) c q Hm' Hc Hq).
    cbn [option_map]. f_equal. ring.
Qed.

Lemma of_int_exact (n : Z) :
  - 2 ^ 24 < n < 2 ^ 24 -> Float32.of_int n = Float32.integer n.
Proof.
  intros Hn. unfold Float32.of_int, Float32.integer.
  rewrite <- (Z.mul_1_r (n * 2 ^ 149)) at 1.
  apply round_exact; lia.
Qed.

Lemma add_exact (a b : Z) :
  - 2 ^ 24 < a + b < 2 ^ 24 ->
  Float32.add (Float32.integer a) (Float32.integer b) = Float32.integer (a + b).
Proof.
  intros H. unfold Float32.add, Float32.integer.
  replace (a * 2 ^ 149 + b * 2 ^ 149) with ((a + b) * 2 ^ 149 * 1) by ring.
  apply round_exact; lia.
Qed.

Lemma sub_exact (a b : Z) :
  - 2 ^ 24 < a - b < 2 ^ 24 ->
  Float32.sub (Float32.integer a) (Float32.integer b) = Float32.integer (a - b).
Proof.
  intros H. unfold Float32.sub, Float32.integer.
  replace (a * 2 ^ 149 - b * 2 ^ 149) with ((a - b) * 2 ^ 149 * 1) by ring.
  apply round_exact; lia.
Qed.

(** Division by a power of two, one added, floored: no step rounds. *)
Lemma div_pow2_add_floor (n j : Z) :
  0 <= j < 24 -> -1 <= n -> n + 2 ^ j < 2 ^ 24 ->
  Float32.floor
    (Float32.add (Float32.div (Float32.integer n) (Float32.of_int (2 ^ j)))
       (Float32.of_int 1))
  = Float32.integer (n / 2 ^ j + 1).
Proof.
  intros Hj Hn Hlt.
  pose proof (Z.pow_pos_nonneg 2 j ltac:(lia) ltac:(lia)) as Hpj.
  pose proof (Z.pow_lt_mono_r 2 j 24 ltac:(lia) ltac:(lia) ltac:(lia)) as Hj24.
  assert (Hunit : 2 ^ 149 = 2 ^ (149 - j) * 2 ^ j).
  { rewrite <- Z.pow_add_r by lia. f_equal. lia. }
  pose proof (Z.pow_pos_nonneg 2 (149 - j) ltac:(lia) ltac:(lia)) as Hpu.
  rewrite (of_int_exact (2 ^ j)) by lia.
  rewrite (of_int_exact 1) by lia.
  assert (Hdiv : Float32.div (Float32.integer n) (Float32.integer (2 ^ j))
                 = Some (n * 2 ^ (149 - j))).
  { unfold Float32.div, Float32.integer.
    replace (2 ^ j * 2 ^ 149 =? 0) with false
      by (symmetry; apply Z.eqb_neq; nia).
    replace (0 <? 2 ^ j * 2 ^ 149) with true
      by (symmetry; apply Z.ltb_lt; nia).
    replace (n * 2 ^ 149 * 2 ^ 149)
      with (n * 2 ^ (149 - j) * (2 ^ j * 2 ^ 149))
      by (rewrite Hunit at 2; ring).
    apply round_exact; [lia | lia | nia]. }
  rewrite Hdiv.
  assert (Hadd : Float32.add (Some (n * 2 ^ (149 - j))) (Float32.integer 1)
                 = Some ((n + 2 ^ j) * 2 ^ (149 - j))).
  { unfold Float32.add, Float32.integer.
    replace (n * 2 ^ (149 - j) + 1 * 2 ^ 149)
      with ((n + 2 ^ j) * 2 ^ (149 - j) * 1) by (rewrite Hunit; ring).
    apply round_exact; lia. }
  rewrite Hadd. unfold Float32.floor, Float32.integer. cbn [option_map]. f_equal.
  f_equal.
  replace ((n + 2 ^ j) * 2 ^ (149 - j) / 2 ^ 149)
    with ((n + 1 * 2 ^ j) * 2 ^ (149 - j) / (2 ^ j * 2 ^ (149 - j)))
    by (f_equal; [ring | rewrite Hunit; ring]).
  rewrite Z.div_mul_cancel_r by lia. now rewrite Z.div_add by lia.
Qed.

Lemma to_int32_exact (n : Z) :
  - 2 ^ 31 <= n < 2 ^ 31 -> Float32.to_int32 (Float32.integer n) = Some n.
Proof.
  intros Hn. unfold Float32.to_int32, Float32.integer.
  rewrite Z.quot_mul by lia.
  replace (- 2 ^ 31 <=? n) with true by (symmetry; apply Z.leb_le; lia).
  replace (n <? 2 ^ 31) with true by (symmetry; apply Z.ltb_lt; lia).
  reflexivity.
Qed.

Lemma wrap64_small (n : Z) : - 2 ^ 63 <= n < 2 ^ 63 -> wrap64 n = n.
Proof. intros Hn. unfold wrap64. rewrite Z.mod_small; lia. Qed.

Lemma wrap32_small (n : Z) : - 2 ^ 31 <= n < 2 ^ 31 -> wrap32 n = n.
Proof. intros Hn. unfold wrap32. rewrite Z.mod_small; lia. Qed.

Lemma ceil_div_spec (a b q : Z) :
  0 < b -> q = ceil_div a b <-> b * (q - 1) < a <= b * q.
Proof.
  intros Hb. unfold ceil_div.
  pose proof (Z.div_mod (a + b - 1) b ltac:(lia)).
  pose proof (Z.mod_pos_bound (a + b - 1) b Hb).
  split.
  - intros ->. nia.
  - intros Hq.
    assert (q - 1 < (a + b - 1) / b + 0 <= q); [| lia].
    split; nia.
Qed.

Lemma ceil_div_nested (a b c : Z) :
  0 < b -> 0 < c -> ceil_div (ceil_div a b) c = ceil_div a (b * c).
Proof.
  intros Hb Hc. apply ceil_div_spec; [nia |].
  pose proof (proj1 (ceil_div_spec a b _ Hb) eq_refl) as [H1 H2].
  pose proof (proj1 (ceil_div_spec (ceil_div a b) c _ Hc) eq_refl)
    as [H3 H4].
  set (q := ceil_div a b) in *. set (r := ceil_div q c) in *.
  assert (b * q <= b * (c * r)) by (apply Z.mul_le_mono_nonneg_l; lia).
  assert (b * (c * (r - 1)) <= b * (q - 1))
    by (apply Z.mul_le_mono_nonneg_l; lia).
  rewrite <- ?Z.mul_assoc. lia.
Qed.

Lemma ceil_div_1 (a : Z) : ceil_div a 1 = a.
Proof. unfold ceil_div. rewrite Z.div_1_r. lia. Qed.

Lemma ceil_div_bounds (a b : Z) :
  0 <= a -> 1 <= b -> 0 <= ceil_div a b <= a.
Proof.
  intros Ha Hb.
  pose proof (proj1 (ceil_div_spec a b _ ltac:(lia)) eq_refl) as [H1 H2].
  split; nia.
Qed.

(** One value through one pass, after [o + 2 * p - k] left [n - 1]. *)
Lemma pass_value (n j : Z) :
  0 <= j < 24 -> 0 <= n -> n - 1 + 2 ^ j < 2 ^ 24 ->
  Float32.floor
    (Float32.add (Float32.div (Float32.integer (n - 1))
                    (Float32.of_int (2 ^ j)))
       (Float32.of_int 1))
  = Float32.integer (ceil_div n (2 ^ j)).
Proof.
  intros Hj Hn Hlt. rewrite div_pow2_add_floor by lia.
  f_equal. unfold ceil_div.
  pose proof (Z.pow_pos_nonneg 2 j ltac:(lia) ltac:(lia)).
  replace (n + 2 ^ j - 1) with (n - 1 + 1 * 2 ^ j) by ring.
  now rewrite Z.div_add by lia.
Qed.

Lemma conv_lengths_int64 (c : Conv1d) (j : Z) (l : list Z) :
  kernel_size c = 3 -> padding c = 1 -> stride c = 2 ^ j -> 0 <= j < 24 ->
  Forall (fun n => 0 <= n /\ n - 1 + 2 ^ j < 2 ^ 24) l ->
  conv_lengths c (Int64 l)
  = Float (map (fun n => Float32.integer (ceil_div n (2 ^ j))) l).
Proof.
  intros Hk Hp Hs Hj Hl. unfold conv_lengths. rewrite Hk, Hp, Hs.
  cbn [add_scalar sub_scalar true_div floor]. f_equal.
  rewrite !map_map. apply map_ext_in. intros n Hin.
  rewrite Forall_forall in Hl. destruct (Hl n Hin) as [Hn Hlt].
  pose proof (Z.pow_pos_nonneg 2 j ltac:(lia) ltac:(lia)).
  rewrite (wrap64_small (n + 2 * 1)) by lia.
  rewrite (wrap64_small (n + 2 * 1 - 3)) by lia.
  replace (n + 2 * 1 - 3) with (n - 1) by ring.
  rewrite (of_int_exact (n - 1)) by lia.
  now apply pass_value.
Qed.

Lemma conv_lengths_float (c : Conv1d) (j : Z) (l : list Z) :
  kernel_size c = 3 -> padding c = 1 -> stride c = 2 ^ j -> 0 <= j < 24 ->
  Forall (fun n => 0 <= n /\ n + 2 < 2 ^ 24 /\ n - 1 + 2 ^ j < 2 ^ 24) l ->
  conv_lengths c (Float (map Float32.integer l))
  = Float (map (fun n => Float32.integer (ceil_div n (2 ^ j))) l).
Proof.
  intros Hk Hp Hs Hj Hl. unfold conv_lengths. rewrite Hk, Hp, Hs.
  cbn [add_scalar sub_scalar true_div floor]. f_equal.
  rewrite !map_map. apply map_ext_in. intros n Hin.
  rewrite Forall_forall in Hl. destruct (Hl n Hin) as [Hn [Hn2 Hlt]].
  rewrite (of_int_exact (2 * 1)), (of_int_exact 3) by lia.
  rewrite add_exact, sub_exact by lia.
  replace (n + 2 * 1 - 3) with (n - 1) by ring.
  now apply pass_value.
Qed.

(** The value one length takes through [AudioEncoder.subsampled_lengths]. *)
Lemma audio_encoder_length (input_lengths : list Z) :
  AudioEncoder.subsampled_lengths input_lengths
  = map (fun L =>
           Float32.to_int32
             (Float32.floor
                (Float32.add
                   (Float32.div
                      (Float32.of_int (wrap64 (wrap64 (L + 2 * 1) - 3)))
                      (Float32.of_int 2))
                   (Float32.of_int 1)))) input_lengths.
Proof.
  unfold AudioEncoder.subsampled_lengths, conv_lengths.
  cbn [AudioEncoder.conv_subsample padding kernel_size stride
       add_scalar sub_scalar true_div floor to_int].
  now rewrite !map_map.
Qed.

(** [AudioEncoder.subsampled_lengths] halves every int64 length from 0
    to 16777219, rounding up: the entry for a length L is the integer o
    with 2 (o - 1) < L <= 2 o.  Up to 16777214 no binary32 operation
    rounds; on the five lengths above one may, without changing the
    result. *)
Theorem audio_encoder_lengths_halve (input_lengths : list Z) :
  Forall (fun L => 0 <= L <= 16777219) input_lengths ->
  AudioEncoder.subsampled_lengths input_lengths
  = map (fun L => Some (ceil_div L 2)) input_lengths
  /\ forall L, 2 * (ceil_div L 2 - 1) < L <= 2 * ceil_div L 2.
Proof.
  intros Hl. split; [| intros L; now apply ceil_div_spec].
  rewrite audio_encoder_length. apply map_ext_in. intros L Hin.
  rewrite Forall_forall in Hl. pose proof (Hl L Hin) as HL.
  destruct (Z_le_gt_dec L 16777214) as [Hsmall | Hbig].
  - rewrite (wrap64_small (L + 2 * 1)) by lia.
    rewrite (wrap64_small (L + 2 * 1 - 3)) by lia.
    replace (L + 2 * 1 - 3) with (L - 1) by ring.
    rewrite (of_int_exact (L - 1)) by lia.
    change 2 with (2 ^ 1) at 1.
    rewrite pass_value by lia.
    apply to_int32_exact.
    pose proof (ceil_div_bounds L 2 ltac:(lia) ltac:(lia)). lia.
  - assert (Hcases : L = 16777215 \/ L = 16777216 \/ L = 16777217
                     \/ L = 16777218 \/ L = 16777219) by lia.
    destruct Hcases as [-> | [-> | [-> | [-> | ->]]]];
      vm_compute; reflexivity.
Qed.

(** The next length is out of reach: 16777220 - 1 has no binary32
    representation and rounds up to 16777220, and the encoder reports
    8388611 frames where the convolution produces 8388610. *)
Theorem audio_encoder_lengths_float32_limit :
  AudioEncoder.subsampled_lengths [16777220] = [Some 8388611]
  /\ ceil_div 16777220 2 = 8388610
  /\ Float32.of_int (16777220 - 1) = Float32.integer 16777220.
Proof. repeat split; vm_compute; reflexivity. Qed.

Lemma pow2_layer_intro (j : Z) :
  0 <= j <= 23 -> pow2_layer (mkConv1d 3 (2 ^ j) 1).
Proof.
  intros Hj. split; [reflexivity |]. split; [reflexivity |].
  exists j. split; [exact Hj | reflexivity].
Qed.

Lemma total_stride_pos (conv : list Conv1d) :
  Forall pow2_layer conv -> 1 <= total_stride conv.
Proof.
  induction 1 as [|c conv [_ [_ [j [Hj Hs]]]] _ IH];
    unfold total_stride in *; cbn [map fold_right]; [lia |].
  rewrite Hs. pose proof (Z.pow_pos_nonneg 2 j ltac:(lia) ltac:(lia)). nia.
Qed.

(** Through power-of-two layers every value stays an integer that
    binary32 holds, whichever dtype the pass started from. *)
Lemma striding_fold (conv : list Conv1d) :
  Forall pow2_layer conv ->
  forall (o : lengths) (l : list Z),
    Forall (fun L => 0 <= L < 2 ^ 23) l ->
    o = Int64 l \/ o = Float (map Float32.integer l) ->
    to_int (fold_left (fun o c => conv_lengths c o) conv o)
    = map (fun L => Some (ceil_div L (total_stride conv))) l.
Proof.
  induction 1 as [|c conv [Hk [Hp [j [Hj Hs]]]] Hrest IH]; intros o l Hl Ho.
  - cbn [fold_left]. unfold total_stride. cbn [map fold_right].
    rewrite Forall_forall in Hl.
    destruct Ho as [-> | ->]; cbn [to_int]; rewrite ?map_map;
      apply map_ext_in; intros L Hin; pose proof (Hl L Hin);
      rewrite ceil_div_1.
    + rewrite wrap32_small by lia. reflexivity.
    + apply to_int32_exact. lia.
  - cbn [fold_left].
    pose proof (Z.pow_pos_nonneg 2 j ltac:(lia) ltac:(lia)) as Hpj.
    pose proof (Z.pow_le_mono_r 2 j 23 ltac:(lia) ltac:(lia)) as Hj23.
    assert (Hstep : conv_lengths c o
                    = Float (map Float32.integer
                               (map (fun n => ceil_div n (2 ^ j)) l))).
    { rewrite map_map. destruct Ho as [-> | ->].
      - apply conv_lengths_int64; try assumption; [lia |].
        eapply Forall_impl; [| exact Hl]. cbv beta. intros n Hn. lia.
      - apply conv_lengths_float; try assumption; [lia |].
        eapply Forall_impl; [| exact Hl]. cbv beta. intros n Hn. lia. }
    rewrite Hstep.
    rewrite (IH _ (map (fun n => ceil_div n (2 ^ j)) l)).
    + rewrite map_map. apply map_ext. intros L.
      unfold total_stride. cbn [map fold_right]. fold (total_stride conv).
      rewrite Hs, ceil_div_nested; [reflexivity | lia |].
      pose proof (total_stride_pos conv Hrest). lia.
    + rewrite Forall_forall in *. intros n Hin.
      apply in_map_iff in Hin. destruct Hin as [L [<- HL]].
      pose proof (Hl L HL).
      pose proof (ceil_div_bounds L (2 ^ j) ltac:(lia) ltac:(lia)). lia.
    + right. reflexivity.
Qed.

(** [StridingAudioEncoder.subsampled_lengths] over layers with kernel
    size 3, padding 1 and strides that are powers of two up to 2^23
    divides every int64 length below 2^23 by the product of the
    strides, rounding up once at the end: no binary32 operation rounds,
    and the floors of the single layers do not accumulate. *)
Theorem striding_encoder_lengths
  (conv : list Conv1d) (input_lengths : list Z) :
  Forall pow2_layer conv ->
  Forall (fun L => 0 <= L < 2 ^ 23) input_lengths ->
  StridingAudioEncoder.subsampled_lengths conv input_lengths
  = map (fun L => Some (ceil_div L (total_stride conv))) input_lengths
  /\ forall L, total_stride conv * (ceil_div L (total_stride conv) - 1) < L
               <= total_stride conv * ceil_div L (total_stride conv).
Proof.
  intros Hconv Hl. split.
  - unfold StridingAudioEncoder.subsampled_lengths.
    apply striding_fold; [exact Hconv | exact Hl | left; reflexivity].
  - intros L. apply ceil_div_spec; [| reflexivity].
    pose proof (total_stride_pos conv Hconv). lia.
Qed.

Lemma striding_encoder_lengths_witness :
  let conv := [mkConv1d 3 2 1; mkConv1d 3 4 1] in
  StridingAudioEncoder.subsampled_lengths conv [100; 7; 0]
  = map (fun L => Some (ceil_div L (total_stride conv))) [100; 7; 0]
  /\ forall L, total_stride conv * (ceil_div L (total_stride conv) - 1) < L
               <= total_stride conv * ceil_div L (total_stride conv).
Proof.
  apply (striding_encoder_lengths [mkConv1d 3 2 1; mkConv1d 3 4 1]
           [100; 7; 0]).
  - repeat apply Forall_cons; try apply Forall_nil;
      [apply (pow2_layer_intro 1) | apply (pow2_layer_intro 2)]; lia.
  - repeat constructor; lia.
Defined.

(** A single configured stride 2^j is applied twice (the first and the
    last layer are both built from it): the lengths are divided by
    2^j * 2^j. *)
Theorem striding_encoder_single_stride (j : Z) (input_lengths : list Z) :
  0 <= j <= 23 ->
  Forall (fun L => 0 <= L < 2 ^ 23) input_lengths ->
  exists conv,
    StridingAudioEncoder.conv [2 ^ j] = Return conv
    /\ StridingAudioEncoder.subsampled_lengths conv input_lengths
       = map (fun L => Some (ceil_div L (2 ^ j * 2 ^ j))) input_lengths.
Proof.
  intros Hj Hl. eexists. split; [reflexivity |].
  unfold StridingAudioEncoder.subsampled_lengths.
  cbn [map app tl removelast last].
  rewrite (striding_fold [mkConv1d 3 (2 ^ j) 1; mkConv1d 3 (2 ^ j) 1]
             ltac:(repeat apply Forall_cons; try apply Forall_nil;
                   now apply pow2_layer_intro)
             (Int64 input_lengths) input_lengths Hl
             ltac:(left; reflexivity)).
  apply map_ext. intros L. unfold total_stride.
  cbn [map fold_right stride]. now rewrite Z.mul_1_r.
Qed.

Lemma striding_encoder_single_stride_witness :
  exists conv,
    StridingAudioEncoder.conv [2 ^ 1] = Return conv
    /\ StridingAudioEncoder.subsampled_lengths conv [100; 7; 0]
       = map (fun L => Some (ceil_div L (2 ^ 1 * 2 ^ 1))) [100; 7; 0].
Proof.
  apply (striding_encoder_single_stride 1 [100; 7; 0]).
  - lia.
  - repeat constructor; lia.
Defined.

(** Through power-of-two layers no utterance is lost and none grows: a
    length L >= 1 below 2^23 comes out as a length between 1 and L, and
    a length 0 as 0. *)
Theorem striding_encoder_lengths_bounds
  (conv : list Conv1d) (input_lengths : list Z) (i : nat) (L : Z) :
  Forall pow2_layer conv ->
  Forall (fun L => 0 <= L < 2 ^ 23) input_lengths ->
  nth_error input_lengths i = Some L ->
  exists o,
    nth_error (StridingAudioEncoder.subsampled_lengths conv input_lengths) i
    = Some (Some o)
    /\ (L = 0 -> o = 0)
    /\ (1 <= L -> 1 <= o <= L).
Proof.
  intros Hconv Hl HL.
  pose proof (total_stride_pos conv Hconv) as HP.
  assert (Hnonneg : 0 <= L).
  { rewrite Forall_forall in Hl.
    pose proof (Hl L (nth_error_In _ _ HL)). lia. }
  exists (ceil_div L (total_stride conv)). split.
  - unfold StridingAudioEncoder.subsampled_lengths.
    rewrite (striding_fold conv Hconv (Int64 input_lengths) input_lengths Hl
               ltac:(left; reflexivity)).
    rewrite nth_error_map, HL. reflexivity.
  - pose proof (proj1 (ceil_div_spec L (total_stride conv) _ ltac:(lia))
                  eq_refl) as [Hlo Hhi].
    set (o := ceil_div L (total_stride conv)) in *.
    split; intros HL0; nia.
Qed.

Lemma striding_encoder_lengths_bounds_witness :
  exists o,
    nth_error
      (StridingAudioEncoder.subsampled_lengths
         [mkConv1d 3 2 1; mkConv1d 3 4 1] [100; 7; 0]) 1
    = Some (Some o)
    /\ (7 = 0 -> o = 0)
    /\ (1 <= 7 -> 1 <= o <= 7).
Proof.
  apply (striding_encoder_lengths_bounds
           [mkConv1d 3 2 1; mkConv1d 3 4 1] [100; 7; 0] 1 7).
  - repeat apply Forall_cons; try apply Forall_nil;
      [apply (pow2_layer_intro 1) | apply (pow2_layer_intro 2)]; lia.
  - repeat constructor; lia.
  - reflexivity.
Defined.

Lemma audio_encoder_lengths_halve_witness :
  AudioEncoder.subsampled_lengths [100; 7; 0; 16777219]
  = map (fun L => Some (ceil_div L 2)) [100; 7; 0; 16777219]
  /\ forall L, 2 * (ceil_div L 2 - 1) < L <= 2 * ceil_div L 2.
Proof.
  apply (audio_encoder_lengths_halve [100; 7; 0; 16777219]).
  repeat constructor; lia.
Defined.

End LengthFacts.

(** ** The sinusoidal position table *)



(** [sinusoids] fails its assertion on an odd number of channels and
    [math.log] fails on a time scale that is not positive; otherwise it
    returns a table with [length] rows of [channels] entries. *)
Theorem sinusoids_outcome (length channels : nat) (max_timescale : R) :
  match AttentionAudio.sinusoids length channels max_timescale with
  | AttentionAudio.Throw AttentionAudio.AssertionError =>
      (channels mod 2 <> 0)%nat
  | AttentionAudio.Throw AttentionAudio.ValueError =>
      (channels mod 2 = 0)%nat /\ max_timescale <= 0
  | AttentionAudio.Throw AttentionAudio.IndexError => False
  | AttentionAudio.Return rows =>
      (channels mod 2 = 0)%nat /\ 0 < max_timescale
      /\ List.length rows = length
      /\ Forall (fun row => List.length row = channels) rows
  end.
Proof.
  unfold AttentionAudio.sinusoids.
  destruct (Nat.eqb_spec (channels mod 2) 0) as [Heven | Hodd];
    cbn [negb]; [| exact Hodd].
  destruct (Rlt_dec 0 max_timescale) as [Hpos | Hneg].
  - split; [exact Heven |]. split; [exact Hpos |]. split.
    + now rewrite !length_map, length_seq.
    + apply Forall_forall. intros row Hrow.
      apply in_map_iff in Hrow. destruct Hrow as [r [<- Hr]].
      apply in_map_iff in Hr. destruct Hr as [t [<- _]].
      unfold AttentionAudio.arange_div.
      rewrite length_app, !length_map, length_seq.
      pose proof (Nat.div_mod_eq channels 2). lia.
  - split; [exact Heven | lra].
Qed.









(** With two channels the scales are 0 / 0: the call returns, and every
    entry of the table is NaN. *)
Theorem sinusoids_two_channels_nan (length : nat) (m : R) :
  0 < m ->
  exists rows,
    AttentionAudio.sinusoids length 2 m = AttentionAudio.Return rows
    /\ List.length rows = length
    /\ Forall (fun row => row = [None; None]) rows.
Proof.
  intros Hm. unfold AttentionAudio.sinusoids.
  change ((2 mod 2 =? 0)%nat) with true. change (2 / 2)%nat with 1%nat.
  cbn [negb]. destruct (Rlt_dec 0 m) as [_ | Hneg]; [| contradiction].
  eexists. split; [reflexivity |]. split.
  - now rewrite !length_map, length_seq.
  - apply Forall_forall. intros row Hrow.
    apply in_map_iff in Hrow. destruct Hrow as [r [<- Hr]].
    apply in_map_iff in Hr. destruct Hr as [t [<- _]].
    reflexivity.
Qed.

Lemma sinusoids_two_channels_nan_witness :
  exists rows,
    AttentionAudio.sinusoids 8 2 10000 = AttentionAudio.Return rows
    /\ List.length rows = 8%nat
    /\ Forall (fun row => row = [None; None]) rows.
Proof.
  apply (sinusoids_two_channels_nan 8 10000). lra.
Defined.

(** * Properties of the training-log reader *)

Module QuerySimFacts.

Import Ascii String QuerySim.

Section Reader.

Variable int : string -> option Z.
Variable sort_values : list (Z * string) -> list (Z * string).

Lemma read_line_before (line : string) (acc : list (Z * string)) :
  startswith line "valid [12" = false ->
  read_line int line (false, acc) = Return (false, acc).
Proof. intros H. unfold read_line. cbn [andb]. now rewrite H. Qed.

Lemma read_line_marker (line : string) (acc : list (Z * string)) :
  startswith line "valid [12" = true ->
  read_line int line (false, acc) = Return (true, acc).
Proof. intros H. unfold read_line. cbn [andb]. now rewrite H. Qed.

Lemma read_line_skip (line : string) (acc : list (Z * string)) :
  selected line = false ->
  read_line int line (true, acc) = Return (true, acc).
Proof.
  intros H. unfold read_line. unfold selected in H. cbn [andb].
  rewrite H. now destruct (startswith line "valid [12").
Qed.

Lemma read_lines_before (pre rest : list string) (acc : list (Z * string)) :
  Forall (fun line => startswith line "valid [12" = false) pre ->
  read_lines int (pre ++ rest) (false, acc)
  = read_lines int rest (false, acc).
Proof.
  induction 1 as [|line pre Hline _ IH]; [reflexivity |].
  cbn [app read_lines]. now rewrite (read_line_before line acc Hline).
Qed.

(** Nothing before the first line that starts with "valid [12" matters:
    such lines are neither collected nor checked, whatever they hold. *)
Theorem lines_before_marker_ignored (pre rest : list string) :
  Forall (fun line => startswith line "valid [12" = false) pre ->
  training_log_to_dataset int sort_values (pre ++ rest)
  = training_log_to_dataset int sort_values rest.
Proof.
  intros Hpre. unfold training_log_to_dataset.
  now rewrite read_lines_before.
Qed.

(** Reading from the start is reading the lines after the marker with
    the flag set. *)
Lemma read_lines_after_marker (lines : list string)
  (acc : list (Z * string)) :
  match read_lines int lines (false, acc) with
  | Return (_, hyps) =>
      exists b, read_lines int (after_marker lines) (true, acc)
                = Return (b, hyps)
  | Throw e => read_lines int (after_marker lines) (true, acc) = Throw e
  end.
Proof.
  induction lines as [|line lines IH].
  - cbn. now exists true.
  - cbn [read_lines after_marker].
    destruct (startswith line "valid [12") eqn:Hm.
    + rewrite (read_line_marker line acc Hm).
      destruct (read_lines int lines (true, acc)) as [[b hyps]|e];
        [now exists b | reflexivity].
    + rewrite (read_line_before line acc Hm). exact IH.
Qed.

Lemma read_line_selected (line : string) (acc : list (Z * string))
  (state : bool * list (Z * string)) :
  selected line = true ->
  read_line int line (true, acc) = Return state ->
  exists row, state = (true, (acc ++ [row])%list) /\ row_of int line row.
Proof.
  intros Hsel. unfold read_line. unfold selected in Hsel. cbn [andb].
  rewrite Hsel.
  destruct (split tab (strip line)) as [|epoch [|idx [|hypN [|text [|]]]]]
    eqn:Hsplit; try discriminate.
  destruct (String.eqb epoch "12" && startswith hypN "hyp") eqn:Hok;
    [| discriminate].
  destruct (int idx) as [n|] eqn:Hint; [| discriminate].
  intros [= <-]. exists (n, text). split; [reflexivity |].
  apply andb_prop in Hok. destruct Hok as [Hepoch Hhyp].
  apply String.eqb_eq in Hepoch. subst epoch.
  exists idx, hypN. cbn [fst snd]. auto.
Qed.

Lemma read_lines_rows (tail : list string) :
  forall acc b hyps,
    read_lines int tail (true, acc) = Return (b, hyps) ->
    exists new, hyps = (acc ++ new)%list
                /\ Forall2 (row_of int) (filter selected tail) new.
Proof.
  induction tail as [|line tail IH]; intros acc b hyps Hrun.
  - cbn in Hrun. injection Hrun as _ <-. exists []. split.
    + now rewrite app_nil_r.
    + constructor.
  - cbn [read_lines filter] in *.
    destruct (selected line) eqn:Hsel.
    + destruct (read_line int line (true, acc)) as [state|e] eqn:Hline;
        [| discriminate].
      destruct (read_line_selected line acc state Hsel Hline)
        as [row [-> Hrow]].
      destruct (IH _ _ _ Hrun) as [new [-> Hnew]].
      exists (row :: new). split; [now rewrite <- app_assoc |].
      now constructor.
    + rewrite (read_line_skip line acc Hsel) in Hrun.
      exact (IH _ _ _ Hrun).
Qed.

(** What a returned frame holds: it is sorted by dataset_index, and its
    rows are, up to their order, the rows of the lines after the marker
    that start with "12" and contain "hyp", each of which had exactly
    the four tab-separated fields 12, a dataset index [int] accepts, a
    field starting with "hyp", and the text. *)
Theorem dataset_rows (lines : list string) (rows : list (Z * string)) :
  (forall l, Permutation (sort_values l) l) ->
  (forall l, Sorted index_le (sort_values l)) ->
  training_log_to_dataset int sort_values lines = Return rows ->
  Sorted index_le rows
  /\ exists hyps,
       Permutation rows hyps
       /\ Forall2 (row_of int) (filter selected (after_marker lines)) hyps.
Proof.
  intros Hperm Hsorted. unfold training_log_to_dataset.
  pose proof (read_lines_after_marker lines []) as Hafter.
  destruct (read_lines int lines (false, [])) as [[b hyps]|e];
    [| discriminate].
  intros [= <-]. split; [apply Hsorted |].
  destruct Hafter as [b' Hrun].
  destruct (read_lines_rows _ _ _ _ Hrun) as [new [-> Hnew]].
  exists new. split; [apply Hperm | exact Hnew].
Qed.

Lemma read_lines_wellformed (tail : list string) :
  Forall (fun line => exists row, row_of int line row)
    (filter selected tail) ->
  forall acc, exists hyps, read_lines int tail (true, acc) = Return (true, hyps).
Proof.
  induction tail as [|line tail IH]; intros Hall acc.
  - now exists acc.
  - cbn [read_lines filter] in *.
    destruct (selected line) eqn:Hsel.
    + inversion Hall as [|? ? [[n text] [idx [hypN [Hsplit [Hhyp Hint]]]]]
                           Hrest]; subst.
      unfold read_line. unfold selected in Hsel. cbn [andb].
      rewrite Hsel, Hsplit. cbn [fst snd] in *.
      rewrite String.eqb_refl, Hhyp, Hint. cbn [andb].
      apply IH. exact Hrest.
    + rewrite (read_line_skip line acc Hsel). apply IH. exact Hall.
Qed.

(** Conversely the call returns as soon as every such line after the
    marker is well formed; no other line can make it fail. *)
Theorem wellformed_log_returns (lines : list string) :
  Forall (fun line => exists row, row_of int line row)
    (filter selected (after_marker lines)) ->
  exists rows, training_log_to_dataset int sort_values lines = Return rows.
Proof.
  intros Hall. unfold training_log_to_dataset.
  destruct (read_lines_wellformed _ Hall []) as [hyps Hrun].
  pose proof (read_lines_after_marker lines []) as Hafter.
  destruct (read_lines int lines (false, [])) as [[b hyps']|e].
  - eexists. reflexivity.
  - rewrite Hrun in Hafter. discriminate.
Qed.

Lemma read_lines_first_selected (tail more : list string) (line : string)
  (e : exn) :
  filter selected tail = line :: more ->
  (forall acc, read_line int line (true, acc) = Throw e) ->
  forall acc, read_lines int tail (true, acc) = Throw e.
Proof.
  intros Hfilter Hline. induction tail as [|l tail IH]; intros acc.
  - discriminate.
  - cbn [read_lines filter] in *. destruct (selected l) eqn:Hsel.
    + injection Hfilter as -> _. now rewrite Hline.
    + rewrite (read_line_skip l acc Hsel). now apply IH.
Qed.

(** How the first hypothesis line after the marker makes the call fail:
    with other than four tab-separated fields (an empty text is
    stripped away with its tab) the unpacking raises ValueError; with
    four fields whose first is not exactly 12, or whose third does not
    start with "hyp", the assertion fails; with a dataset index that
    [int] rejects, ValueError. *)
Theorem first_hypothesis_line_failure (lines more : list string)
  (line : string) :
  filter selected (after_marker lines) = line :: more ->
  match split tab (strip line) with
  | [epoch; dataset_index; hypN; text] =>
      if String.eqb epoch "12" && startswith hypN "hyp"
      then int dataset_index = None ->
           training_log_to_dataset int sort_values lines = Throw ValueError
      else training_log_to_dataset int sort_values lines
           = Throw AssertionError
  | _ => training_log_to_dataset int sort_values lines = Throw ValueError
  end.
Proof.
  intros Hfilter.
  assert (Hsel : selected line = true).
  { assert (In line (filter selected (after_marker lines)))
      by (rewrite Hfilter; now left).
    apply filter_In in H. tauto. }
  assert (Hlift : forall e,
             (forall acc, read_line int line (true, acc) = Throw e) ->
             training_log_to_dataset int sort_values lines = Throw e).
  { intros e He. unfold training_log_to_dataset.
    pose proof (read_lines_after_marker lines []) as Hafter.
    rewrite (read_lines_first_selected _ more line e Hfilter He) in Hafter.
    destruct (read_lines int lines (false, [])) as [[b hyps]|e'].
    - destruct Hafter as [b' Hb]. discriminate.
    - congruence. }
  unfold selected in Hsel.
  destruct (split tab (strip line)) as [|epoch [|idx [|hypN [|text [|]]]]]
    eqn:Hsplit;
    try (apply Hlift; intros acc; unfold read_line; cbn [andb];
         rewrite Hsel, Hsplit; reflexivity).
  destruct (String.eqb epoch "12" && startswith hypN "hyp") eqn:Hok.
  - intros Hint. apply Hlift. intros acc. unfold read_line. cbn [andb].
    rewrite Hsel, Hsplit, Hok, Hint. reflexivity.
  - apply Hlift. intros acc. unfold read_line. cbn [andb].
    rewrite Hsel, Hsplit, Hok. reflexivity.
Qed.

(** A log with no line starting with "valid [12" gives the empty frame,
    without any failure. *)
Theorem no_marker_empty_frame (lines : list string) :
  (forall l, Permutation (sort_values l) l) ->
  Forall (fun line => startswith line "valid [12" = false) lines ->
  training_log_to_dataset int sort_values lines = Return [].
Proof.
  intros Hperm Hlines. unfold training_log_to_dataset.
  rewrite <- (app_nil_r lines), read_lines_before by exact Hlines.
  cbn [read_lines]. f_equal.
  apply Permutation_nil. apply Permutation_sym. apply Hperm.
Qed.

End Reader.

Lemma insert_row_perm (r : Z * string) (l : list (Z * string)) :
  Permutation (insert_row r l) (r :: l).
Proof.
  induction l as [|r' l IH]; cbn [insert_row]; [apply Permutation_refl |].
  destruct (fst r <=? fst r')%Z; [apply Permutation_refl |].
  eapply Permutation_trans; [apply perm_skip; exact IH | apply perm_swap].
Qed.

Lemma insertion_sort_perm (l : list (Z * string)) :
  Permutation (insertion_sort l) l.
Proof.
  induction l as [|r l IH]; [constructor |]. cbn [insertion_sort fold_right].
  eapply Permutation_trans; [apply insert_row_perm |].
  apply perm_skip. exact IH.
Qed.

Lemma insert_row_sorted (r : Z * string) (l : list (Z * string)) :
  Sorted index_le l -> Sorted index_le (insert_row r l).
Proof.
  induction 1 as [|r' l Hl IH Hhd]; cbn [insert_row].
  - repeat constructor.
  - destruct (Z.leb_spec (fst r) (fst r')) as [Hle | Hgt].
    + constructor; [constructor; assumption |]. constructor. exact Hle.
    + constructor; [exact IH |].
      destruct l as [|r'' l]; cbn [insert_row].
      * constructor. unfold index_le. lia.
      * destruct (Z.leb_spec (fst r) (fst r'')).
        -- constructor. unfold index_le. lia.
        -- constructor. inversion Hhd; assumption.
Qed.

Lemma insertion_sort_sorted (l : list (Z * string)) :
  Sorted index_le (insertion_sort l).
Proof.
  induction l as [|r l IH]; [constructor |].
  cbn [insertion_sort fold_right]. apply insert_row_sorted. exact IH.
Qed.

Lemma lines_before_marker_ignored_witness :
  training_log_to_dataset int_of_digits insertion_sort
    (small_log_head ++ small_log_tail)
  = training_log_to_dataset int_of_digits insertion_sort small_log_tail.
Proof.
  apply (lines_before_marker_ignored int_of_digits insertion_sort
           small_log_head small_log_tail).
  repeat constructor.
Defined.

Lemma no_marker_empty_frame_witness :
  training_log_to_dataset int_of_digits insertion_sort small_log_head
  = Return [].
Proof.
  apply (no_marker_empty_frame int_of_digits insertion_sort small_log_head
           insertion_sort_perm).
  repeat constructor.
Defined.

Lemma dataset_rows_witness :
  let rows := [(3%Z, "foo"%string); (7%Z, "hello world"%string)] in
  Sorted index_le rows
  /\ exists hyps,
       Permutation rows hyps
       /\ Forall2 (row_of int_of_digits)
            (filter selected (after_marker (small_log_head ++ small_log_tail)))
            hyps.
Proof.
  apply (dataset_rows int_of_digits insertion_sort
           (small_log_head ++ small_log_tail)
           [(3%Z, "foo"%string); (7%Z, "hello world"%string)]
           insertion_sort_perm insertion_sort_sorted).
  vm_compute. reflexivity.
Defined.

Lemma wellformed_log_returns_witness :
  exists rows,
    training_log_to_dataset int_of_digits insertion_sort
      (small_log_head ++ small_log_tail) = Return rows.
Proof.
  apply (wellformed_log_returns int_of_digits insertion_sort
           (small_log_head ++ small_log_tail)).
  repeat constructor.
  - exists (7%Z, "hello world"%string), "7"%string, "hyp1"%string.
    repeat split.
  - exists (3%Z, "foo"%string), "3"%string, "hyp2"%string.
    repeat split.
Defined.

Lemma first_hypothesis_line_failure_witness :
  training_log_to_dataset int_of_digits insertion_sort epoch_120_log
  = Throw AssertionError.
Proof.
  exact (first_hypothesis_line_failure int_of_digits insertion_sort
           epoch_120_log [log_line ["12"; "3"; "hyp2"; "foo"]%string]
           epoch_120_line eq_refl).
Defined.

End QuerySimFacts.
